(** * repo_dagger: a shallow embedding of the dependency-graph engine

  The development follows the Go sources:
  - [file_visitor.go]   : [applyOnTemplate], [applyActions],
                          [checkExcludePatterns], [visitFile],
                          [VisitRecursively];
  - the Python resolver : [Resolve] (cumulative variant, with [.pyi]);
  - [main.go]           : [main], [BuildFullDepList], the digest;
  - the file hasher     : [CalculateFileHashes].

  The operating system, the glob matcher, the regular-expression engine
  and SHA-256 are collaborators of the program: they are parameters of
  the model ([Env], [sha256]).  Every failure that ends the run (an
  [error] that reaches [log.Fatalf], or [log.Panicf]) is [None]. *)

From Stdlib Require Import ZArith Ascii String List Lia.
From stdpp Require Import base option list gmap sets strings sorting pretty.

Local Open Scope Z_scope.
Local Open Scope nat_scope.
Local Open Scope list_scope.

(* ===================================================================== *)
(** * Go's standard library, as far as the program uses it *)
(* ===================================================================== *)

(** ** package strings *)
Module strings.

(** [strings.HasPrefix(s, prefix)] *)
Definition HasPrefix (s pre : string) : bool := String.prefix pre s.

(** [strings.ReplaceAll(s, old, new)] for a non-empty [old]: the
    non-overlapping occurrences of [old] are replaced from the left.
    [skip] counts the bytes of a matched occurrence still to drop. *)
Fixpoint replace_go (old new : string) (skip : nat) (s : string) : string :=
  match s with
  | EmptyString => EmptyString
  | String c s' =>
      match skip with
      | S k => replace_go old new k s'
      | O =>
          if String.prefix old s
          then new +:+ replace_go old new (String.length old - 1) s'
          else String c (replace_go old new 0 s')
      end
  end.

Definition ReplaceAll (s old new : string) : string :=
  match old with
  | EmptyString => s
  | _ => replace_go old new 0 s
  end.

(** [strings.LastIndex(s, sep)]: byte index of the last occurrence of
    [sep], or -1. *)
Fixpoint last_index_go (sep : string) (i : nat) (s : string)
    (last : option nat) : option nat :=
  match s with
  | EmptyString => if String.prefix sep EmptyString then Some i else last
  | String _ s' =>
      last_index_go sep (S i) s' (if String.prefix sep s then Some i else last)
  end.

Definition LastIndex (s sep : string) : Z :=
  match last_index_go sep 0 s None with
  | Some i => Z.of_nat i
  | None => (-1)%Z
  end.

(** [strings.Join(elems, sep)] *)
Definition Join (elems : list string) (sep : string) : string :=
  String.concat sep elems.

(** [strings.Split(s, sep)] for a one-byte separator. *)
Fixpoint split_go (sep : ascii) (cur : string) (s : string) : list string :=
  match s with
  | EmptyString => [cur]
  | String c s' =>
      if Ascii.eqb c sep then cur :: split_go sep EmptyString s'
      else split_go sep (cur +:+ String c EmptyString) s'
  end.

Definition Split (s : string) (sep : ascii) : list string :=
  split_go sep EmptyString s.

End strings.

(** ** package path/filepath (Unix) *)
Module filepath.

Definition rooted (path : string) : bool :=
  match path with
  | String "/"%char _ => true
  | _ => false
  end.

(** One element of the path, against the elements kept so far (the last
    kept element first). *)
Definition clean_step (is_rooted : bool) (kept : list string) (e : string)
    : list string :=
  if String.eqb e EmptyString then kept
  else if String.eqb e "." then kept
  else if String.eqb e ".." then
    match kept with
    | top :: rest =>
        if String.eqb top ".." then e :: kept else rest
    | [] => if is_rooted then [] else [e]
    end
  else e :: kept.

(** [filepath.Clean] *)
Definition Clean (path : string) : string :=
  let r := rooted path in
  let kept := rev (fold_left (clean_step r) (strings.Split path "/"%char) []) in
  let body := strings.Join kept "/" in
  if r then "/" +:+ body
  else match kept with [] => "." | _ => body end.

(** [filepath.Join]: the elements from the first non-empty one on are
    joined by a slash and cleaned; no non-empty element gives [EmptyString]. *)
Fixpoint join_go (elem : list string) : string :=
  match elem with
  | [] => EmptyString
  | e :: rest =>
      if String.eqb e EmptyString then join_go rest
      else Clean (strings.Join elem "/")
  end.

Definition Join (elem : list string) : string := join_go elem.

(** [filepath.Dir]: everything up to and including the last separator,
    cleaned. *)
Definition Dir (path : string) : string :=
  match strings.LastIndex path "/" with
  | Zneg _ => Clean EmptyString
  | i => Clean (String.substring 0 (Z.to_nat i + 1) path)
  end.

End filepath.

(** ** package slices, at element type [string] *)
Module slices.

(** Go compares strings byte by byte; [String.leb] is that order. *)
Definition string_le (a b : string) : Prop := String.leb a b = true.

#[global] Instance string_le_dec : RelDecision string_le.
Proof. intros a b. unfold string_le. apply _. Defined.

(** [slices.Sort]: the result of sorting, as a value.  The algorithm of
    the Go library is not part of the program; by [sort_unique] below any
    sorting algorithm returns this list. *)
Definition sort (l : list string) : list string := merge_sort string_le l.

(** [slices.Compact]: every run of equal consecutive elements is replaced
    by its first element. *)
Fixpoint compact (l : list string) : list string :=
  match l with
  | [] => []
  | x :: rest =>
      match rest with
      | [] => [x]
      | y :: _ => if String.eqb x y then compact rest else x :: compact rest
      end
  end.

End slices.

(* ===================================================================== *)
(** * Outcomes, configuration and the environment *)
(* ===================================================================== *)

(** What a piece of the program does when it is run: it returns, it ends
    the run (an [error] handed up to [log.Fatalf], or [log.Panicf]), or
    the loop budget of the model is used up. *)
Inductive result (A : Type) : Type :=
  | Ok (a : A)
  | Fatal
  | OutOfFuel.
Arguments Ok {A} a.
Arguments Fatal {A}.
Arguments OutOfFuel {A}.

#[global] Instance result_ret : MRet result := λ A a, Ok a.
#[global] Instance result_bind : MBind result := λ A B f m,
  match m with
  | Ok a => f a
  | Fatal => Fatal
  | OutOfFuel => OutOfFuel
  end.

(** [v, err := ...; if err != nil { return err }] *)
Definition try {A} (o : option A) : result A :=
  match o with
  | Some a => Ok a
  | None => Fatal
  end.

Definition returned {A} (r : result A) : Prop :=
  match r with Ok _ => True | _ => False end.

(** [config.go] *)
Record RuleActions : Type := {
  Visit : list string;
  VisitSiblings : list string;
  VisitGrandSiblings : list string;
  VisitImportedPythonModules : bool;
  VisitPythonAllSubmodulesFor : list string;
  Exclude : list string;
}.

Record PathRule : Type := {
  Actions : RuleActions;
  RegexRules : gmap string RuleActions;
}.

Record Config : Type := {
  BaseDir : string;
  Inputs : list string;
  GlobalDeps : list string;
  GlobalExclude : list string;
  RootPythonPackages : list string;
  PathRules : gmap string PathRule;
}.

(** A compiled regular expression is its [FindAllStringSubmatch(s, -1)]. *)
Definition Regexp : Type := string → list (list string).

(** The collaborators.  A path handed to the operating system is the full
    path the program builds with [filepath.Join(base_dir, ...)]. *)
Record Env : Type := {
  (** [doublestar.Glob(os.DirFS(dir), pattern, WithFilesOnly(),
      WithFailOnIOErrors())], in the order the directory walk gives *)
  glob_files : string → string → option (list string);
  (** [doublestar.Glob(os.DirFS(dir), pattern)] *)
  glob_any : string → string → option (list string);
  (** [doublestar.Match(pattern, name)] *)
  glob_match : string → string → option bool;
  (** [os.Stat(path)]: [Some d] when it succeeds, [d] is [IsDir()] *)
  stat : string → option bool;
  (** [os.ReadFile(path)] *)
  read_file : string → option string;
  (** [regexp.Compile(pattern)] *)
  regexp_Compile : string → option Regexp;
  (** the order in which one [for ... range] statement walks a map: Go
      leaves it open, and picks it anew for each loop.  The first argument
      names the loop (the file visited, and the rule for an inner loop). *)
  range_path_rules : list string → gmap string PathRule → list (string * PathRule);
  range_regex_rules : list string → gmap string RuleActions → list (string * RuleActions);
  (** the YAML decoder with [KnownFields(true)], on the bytes of a file *)
  yaml_Decode : string → option Config;
  (** [sha256.Sum256], and [sha256.New()] with [Write]s and a final
      [Sum(nil)], on the bytes written *)
  sha256_Sum256 : string → string;
  (** the order in which the tasks of [main], one for each input file,
      get to store their result *)
  completion_order : list string → list string;
}.

(** A [range] walks every entry of the map once. *)
Definition range_ok (env : Env) : Prop :=
  (∀ k m, range_path_rules env k m ≡ₚ map_to_list m) ∧
  (∀ k m, range_regex_rules env k m ≡ₚ map_to_list m) ∧
  (∀ l, completion_order env l ≡ₚ l).

(* ===================================================================== *)
(** * The Python module resolver *)
(* ===================================================================== *)

Definition python_import_parser_simple : string := "(?m:^ *import ([^ \n]+))".
Definition python_import_parser_from : string :=
  "(?m:^ *from ([^ \n]+) import (\([^)]+\)|[^\n]+))".
Definition python_import_parser_ident : string := "[A-Za-z_][A-Za-z0-9_]*".

(** [PythonModuleResolver.cache]: a stored result is never [nil]. *)
Abbreviation resolver_cache := (gmap string (list string)).

Section resolver.
Context (env : Env) (config : Config) (base_dir : string).

(** The filter on the root modules: the loop with its [break]. *)
Definition allowed (module : string) : bool :=
  existsb
    (λ root_python_package,
       strings.HasPrefix module (root_python_package +:+ ".")
       || String.eqb module root_python_package)
    (RootPythonPackages config).

(** [_, err := os.Stat(filepath.Join(base_dir, p)); err == nil] *)
Definition exists_path (p : string) : bool :=
  bool_decide (is_Some (stat env (filepath.Join [base_dir; p]))).

(** [stat_res, err := os.Stat(...); err == nil && stat_res.IsDir()] *)
Definition is_dir (p : string) : bool :=
  bool_decide (stat env (filepath.Join [base_dir; p]) = Some true).

(** The six probes of one module, in the order of the source: the paths
    appended, and [visit_parent]. *)
Definition probe (module : string) : list string * bool :=
  let dir_path := strings.ReplaceAll module "." "/" in
  let dir_path_init := filepath.Join [dir_path; "__init__.py"] in
  let py_path := dir_path +:+ ".py" in
  let pyx_path := dir_path +:+ ".pyx" in
  let pyi_path := dir_path +:+ ".pyi" in
  let c_path := dir_path +:+ ".c" in
  let step (acc : list string * bool) (p : string) :=
    if exists_path p then (acc.1 ++ [p], true) else acc in
  let s1 := step ([], false) dir_path_init in
  let s2 := if is_dir dir_path then (s1.1, true) else s1 in
  fold_left step [py_path; pyx_path; pyi_path; c_path] s2.

(** [module[:idx]] for [idx := strings.LastIndex(module, ".")], when
    [idx != -1]. *)
Definition parent_module (module : string) : option string :=
  match strings.LastIndex module "." with
  | Zneg _ => None
  | idx => Some (String.substring 0 (Z.to_nat idx) module)
  end.

(** [Resolve].  A call on the parent is one unit of [fuel]. *)
Fixpoint Resolve_rec (fuel : nat) (module : string) (cache : resolver_cache)
    : result (list string * resolver_cache) :=
  match cache !! module with
  | Some cached => Ok (cached, cache)
  | None =>
      if negb (allowed module) then Ok ([], <[module := []]> cache)
      else if strings.HasPrefix module "." then Fatal
      else
        let '(paths, visit_parent) := probe module in
        '(paths, cache) ←
          (if visit_parent then
             match parent_module module with
             | Some parent =>
                 match fuel with
                 | O => OutOfFuel
                 | S fuel' =>
                     '(sub_resolve, cache) ← Resolve_rec fuel' parent cache;
                     Ok (paths ++ sub_resolve, cache)
                 end
             | None => Ok (paths, cache)
             end
           else Ok (paths, cache));
        Ok (paths, <[module := paths]> cache)
  end.

(** A dotted name has fewer parents than bytes. *)
Definition Resolve (module : string) (cache : resolver_cache)
    : result (list string * resolver_cache) :=
  Resolve_rec (String.length module) module cache.

End resolver.

(* ===================================================================== *)
(** * The closure of a file over the relation map *)
(* ===================================================================== *)

Section closure.
Context (file_relation_map : gmap string (list string)).

(** [file_relation_map[file]]: a missing key reads as the empty slice. *)
Definition related (file : string) : list string :=
  default [] (file_relation_map !! file).

(** The closure [buildDepList] inside [BuildFullDepList]; its captured
    variables [visited] and [dep_list] are the state.  One unit of [fuel]
    is one level of the recursion. *)
Fixpoint buildDepList (fuel : nat) (file : string)
    (st : gset string * list string) : result (gset string * list string) :=
  if decide (file ∈ st.1) then Ok st
  else
    match fuel with
    | O => OutOfFuel
    | S fuel' =>
        st ← fold_left
               (λ acc related_file, st ← acc; buildDepList fuel' related_file st)
               (related file)
               (Ok ({[file]} ∪ st.1, st.2));
        Ok (st.1, st.2 ++ [file])
    end.

(** Every file the traversal can meet. *)
Definition closure_universe (file : string) : gset string :=
  {[file]} ∪ dom file_relation_map
  ∪ ⋃ (list_to_set <$> (snd <$> map_to_list file_relation_map)).

(** [BuildFullDepList]: the recursion is at most as deep as there are
    files. *)
Definition BuildFullDepList (file : string) : result (list string) :=
  st ← buildDepList (S (size (closure_universe file))) file (∅, []);
  Ok (slices.sort st.2).

End closure.

(* ===================================================================== *)
(** * Slices over the backing array of [config.GlobalDeps.items] *)
(* ===================================================================== *)

(** [file_relations := config.GlobalDeps.items] copies the slice header,
    not the array: until an [append] has to grow the slice, [file_relations]
    and [config.GlobalDeps.items] are the same memory, and [slices.Sort] and
    [slices.Compact] work in place.  The YAML decoder allocates a sequence
    with [reflect.MakeSlice(t, l, l)], so the capacity of
    [config.GlobalDeps.items] is its length.  Every other array of the
    graph construction is reachable from one slice only.

    A slice is therefore either [Shared n], the first [n] elements of the
    global-deps array, or [Own l], an array of its own. *)
Inductive slice : Type :=
  | Shared (n : nat)
  | Own (l : list string).

Definition slice_items (gd : list string) (s : slice) : list string :=
  match s with
  | Shared n => take n gd
  | Own l => l
  end.

(** [append(s, xs...)]: in place while the capacity allows, into a new
    array otherwise. *)
Definition go_append (gd : list string) (s : slice) (xs : list string)
    : list string * slice :=
  match s with
  | Own l => (gd, Own (l ++ xs))
  | Shared n =>
      if decide (n + length xs ≤ length gd)
      then (take n gd ++ xs ++ drop (n + length xs) gd, Shared (n + length xs))
      else (gd, Own (take n gd ++ xs))
  end.

(** [slices.Sort(s)] *)
Definition Sort_slice (gd : list string) (s : slice) : list string * slice :=
  match s with
  | Own l => (gd, Own (slices.sort l))
  | Shared n => (slices.sort (take n gd) ++ drop n gd, Shared n)
  end.

(** [slices.Compact(s)], Go 1.22: the elements between the new and the old
    length are zeroed ([clear(s[i:])]), and [s[:i]] is returned. *)
Definition Compact_slice (gd : list string) (s : slice) : list string * slice :=
  match s with
  | Own l => (gd, Own (slices.compact l))
  | Shared n =>
      let r := slices.compact (take n gd) in
      (r ++ replicate (n - length r) EmptyString ++ drop n gd, Shared (length r))
  end.

(* ===================================================================== *)
(** * The relation engine: [file_visitor.go] *)
(* ===================================================================== *)

(** [for _, x := range l { ... }] with a body that may end the run. *)
Fixpoint for_each {A S : Type} (body : S → A → result S) (l : list A) (s : S)
    : result S :=
  match l with
  | [] => Ok s
  | x :: rest => s' ← body s x; for_each body rest s'
  end.

(** [RegexResult.applyOnTemplate]; [fmt.Sprintf] of [$%d] is a dollar and
    the index in decimal. *)
Definition applyOnTemplate (res : list string) (template : string) : string :=
  fold_left
    (λ out im, strings.ReplaceAll out ("$" +:+ pretty (im.1 : nat)) im.2)
    (imap (λ i m, (i, m)) res)
    template.

Definition applyOnTemplates (res : list string) (templates : list string)
    : list string :=
  applyOnTemplate res <$> templates.

(** What one visit works on: the array behind [config.GlobalDeps.items],
    the slice behind [file_relations], [python_mod_resolver.cache] and
    [regex_cache]. *)
Record visitor : Type := {
  v_gd : list string;
  v_rel : slice;
  v_cache : resolver_cache;
  v_regex : gmap string Regexp;
}.

(** An [append] of [xs] to the slice [file_relations] points to. *)
Definition record_relations (st : visitor) (xs : list string) : visitor :=
  let r := go_append (v_gd st) (v_rel st) xs in
  {| v_gd := r.1; v_rel := r.2; v_cache := v_cache st; v_regex := v_regex st |}.

Section engine.
Context (env : Env) (config : Config) (base_dir : string).

(** One glob of [pattern] under [dir]; each match is recorded by an
    [append] of its own, through [anchor]. *)
Definition visit_glob (dir : string) (anchor : string → string)
    (st : visitor) (pattern : string) : result visitor :=
  visit_files_chunk ← try (glob_files env dir pattern);
  Ok (fold_left (λ st visit_file, record_relations st [anchor visit_file])
        visit_files_chunk st).

(** The loop [for path_iter != "."]: one unit of [fuel] for each directory
    on the way up. *)
Fixpoint visit_grand_siblings (fuel : nat) (templates : list string)
    (path_iter : string) (st : visitor) : result visitor :=
  if String.eqb path_iter "." then Ok st
  else
    match fuel with
    | O => OutOfFuel
    | S fuel' =>
        st ← for_each
               (visit_glob (filepath.Join [base_dir; path_iter])
                  (λ visit_file, filepath.Join [path_iter; visit_file]))
               templates st;
        visit_grand_siblings fuel' templates (filepath.Dir path_iter) st
    end.

(** The text [file_data] points to, read on first need. *)
Definition need_file_data (file : string) (file_data : option string)
    : result string :=
  match file_data with
  | Some data => Ok data
  | None => try (read_file env (filepath.Join [base_dir; file]))
  end.

(** The import statements of a file: [pyimports] and [pyimports_idents]. *)
Definition parse_imports (data : string)
    : result (list string * gmap string string) :=
  simple ← try (regexp_Compile env python_import_parser_simple);
  from ← try (regexp_Compile env python_import_parser_from);
  ident ← try (regexp_Compile env python_import_parser_ident);
  acc ← for_each
          (λ (acc : list string * gmap string string) (m : list string),
             m1 ← try (m !! 1);
             Ok (acc.1 ++ [m1], <[m1 := m1]> acc.2))
          (simple data) ([], ∅);
  for_each
    (λ (acc : list string * gmap string string) (m : list string),
       m1 ← try (m !! 1);
       m2 ← try (m !! 2);
       for_each
         (λ (acc : list string * gmap string string) (import_ident : list string),
            i0 ← try (import_ident !! 0);
            let full_mod_name := m1 +:+ "." +:+ i0 in
            Ok (acc.1 ++ [full_mod_name], <[i0 := full_mod_name]> acc.2))
         (ident m2) (acc.1 ++ [m1], acc.2))
    (from data) acc.

(** The name [visit_python_all_submodules_for] stands for: the loop over
    the root packages has no [break], and the name itself is kept. *)
Definition found_in_root_pkg (mod_name : string) : bool :=
  existsb
    (λ root_package,
       strings.HasPrefix mod_name (root_package +:+ ".")
       || String.eqb mod_name root_package)
    (RootPythonPackages config).

Definition visit_all_submodules (pyimports_idents : gmap string string)
    (st : visitor) (mod_name : string) : result visitor :=
  full_mod_name ←
    (if found_in_root_pkg mod_name then Ok mod_name
     else try (pyimports_idents !! mod_name));
  let dir_path := strings.ReplaceAll full_mod_name "." "/" in
  visit_files_chunk ← try (glob_files env base_dir (dir_path +:+ "/**/*.py"));
  Ok (record_relations st visit_files_chunk).

Definition resolve_import (st : visitor) (module : string) : result visitor :=
  r ← Resolve env config base_dir module (v_cache st);
  Ok (record_relations
        {| v_gd := v_gd st; v_rel := v_rel st; v_cache := r.2;
           v_regex := v_regex st |}
        r.1).

(** [applyActions] *)
Definition applyActions (fuel : nat) (actions : RuleActions) (file : string)
    (file_data : option string) (st : visitor) (regex_result : list string)
    : result (option string * visitor) :=
  (* Visit files *)
  st ← for_each
         (λ st visit,
            visit_files_chunk ← try (glob_files env base_dir visit);
            Ok (record_relations st visit_files_chunk))
         (applyOnTemplates regex_result (Visit actions)) st;
  (* Visit siblings *)
  let path_iter := filepath.Dir file in
  st ← for_each
         (visit_glob (filepath.Join [base_dir; path_iter])
            (λ visit_file, filepath.Join [path_iter; visit_file]))
         (applyOnTemplates regex_result (VisitSiblings actions)) st;
  (* Visit grand siblings *)
  st ← visit_grand_siblings fuel
         (applyOnTemplates regex_result (VisitGrandSiblings actions))
         path_iter st;
  (* Visit imported Python modules *)
  if VisitImportedPythonModules actions
     || negb (length (VisitPythonAllSubmodulesFor actions) =? 0)
  then
    data ← need_file_data file file_data;
    imports ← parse_imports data;
    st ← for_each (visit_all_submodules imports.2)
           (applyOnTemplates regex_result (VisitPythonAllSubmodulesFor actions))
           st;
    st ← for_each resolve_import imports.1 st;
    Ok (Some data, st)
  else Ok (file_data, st).

(** [checkExcludePatterns] *)
Fixpoint checkExcludePatterns (exclude_patterns : list string) (file : string)
    : result bool :=
  match exclude_patterns with
  | [] => Ok false
  | excluded_file :: rest =>
      is_match ← try (glob_match env excluded_file file);
      if is_match : bool then Ok true else checkExcludePatterns rest file
  end.

(** The body of the loop over [path_rules.RegexRules]. *)
Definition apply_regex_rule (fuel : nat) (file : string)
    (s : option string * visitor) (rule : string * RuleActions)
    : result (option string * visitor) :=
  let regex_rule_pattern := rule.1 in
  let regex_actions := rule.2 in
  excluded ← checkExcludePatterns (Exclude regex_actions) file;
  if excluded : bool then Ok s
  else
    data ← need_file_data file s.1;
    compiled ←
      match v_regex s.2 !! regex_rule_pattern with
      | Some regex_pattern => Ok (regex_pattern, s.2)
      | None =>
          regex_pattern ← try (regexp_Compile env regex_rule_pattern);
          Ok (regex_pattern,
              {| v_gd := v_gd s.2; v_rel := v_rel s.2; v_cache := v_cache s.2;
                 v_regex := <[regex_rule_pattern := regex_pattern]> (v_regex s.2) |})
      end;
    for_each
      (λ (s : option string * visitor) regex_match,
         applyActions fuel regex_actions file s.1 s.2 regex_match)
      (compiled.1 data) (Some data, compiled.2).

(** The body of the loop over [config.PathRules]. *)
Definition apply_path_rule (fuel : nat) (file : string) (st : visitor)
    (rule : string * PathRule) : result visitor :=
  let rule_pattern := rule.1 in
  let path_rules := rule.2 in
  is_match ← try (glob_match env rule_pattern file);
  if is_match : bool then
    s ← applyActions fuel (Actions path_rules) file None st [];
    s ← for_each (apply_regex_rule fuel file)
          (range_regex_rules env [file; rule_pattern] (RegexRules path_rules)) s;
    Ok s.2
  else Ok st.

(** [visitFile] *)
Definition visitFile (fuel : nat) (file : string) (st : visitor)
    : result visitor :=
  excluded ← checkExcludePatterns (GlobalExclude config) file;
  if excluded : bool then Ok st
  else
    for_each (apply_path_rule fuel file)
      (range_path_rules env [file] (PathRules config)) st.

(** The maps [VisitRecursively] fills, and the caches it owns. *)
Record graph : Type := {
  g_gd : list string;
  all_files_set : gset string;
  file_relation_map : gmap string slice;
  g_cache : resolver_cache;
  g_regex : gmap string Regexp;
}.

(** The body of the loop over [input_files]: the graph and
    [related_files]. *)
Definition visit_input (fuel : nat) (s : graph * list string) (file : string)
    : result (graph * list string) :=
  let g := s.1 in
  if decide (file ∈ all_files_set g) then Ok s
  else
    (* file_relations := config.GlobalDeps.items *)
    let file_relations := Shared (length (GlobalDeps config)) in
    v ← visitFile fuel file
          {| v_gd := g_gd g; v_rel := file_relations;
             v_cache := g_cache g; v_regex := g_regex g |};
    let sorted := Sort_slice (v_gd v) (v_rel v) in
    let compacted := Compact_slice sorted.1 sorted.2 in
    Ok ({| g_gd := compacted.1;
           all_files_set := {[file]} ∪ all_files_set g;
           file_relation_map := <[file := compacted.2]> (file_relation_map g);
           g_cache := v_cache v;
           g_regex := v_regex v |},
        s.2 ++ slice_items compacted.1 compacted.2).

(** The loop of [VisitRecursively]: one unit of [fuel] for each wave. *)
Fixpoint visit_waves (fuel : nat) (g : graph) (input_files : list string)
    : result graph :=
  match fuel with
  | O => OutOfFuel
  | S fuel' =>
      s ← for_each (visit_input fuel') input_files (g, []);
      if length s.2 =? 0 then Ok s.1
      else visit_waves fuel' s.1 (slices.compact (slices.sort s.2))
  end.

(** [VisitRecursively], called by [main] with empty maps. *)
Definition VisitRecursively (fuel : nat) (input_files : list string)
    : result graph :=
  visit_waves fuel
    {| g_gd := GlobalDeps config; all_files_set := ∅; file_relation_map := ∅;
       g_cache := ∅; g_regex := ∅ |}
    input_files.

End engine.

(** The relation map as [main] reads it once the graph is built. *)
Definition relations_of (g : graph) : gmap string (list string) :=
  slice_items (g_gd g) <$> file_relation_map g.

(* ===================================================================== *)
(** * The driver: [main.go] and the file hasher *)
(* ===================================================================== *)

(** This value is bumped any time the program may output different output
    given the same input. *)
Definition ALGORITHM_VERSION : Z := 1.

(** The flags that decide what is computed and written; [Verbose],
    [SelfProfile] and the two statistics reports only add log lines and
    stay out of the model. *)
Record Args : Type := {
  ConfigPath : string;
  InputFiles : list string;
  PrintDepStats : bool;
  PrintRevDepStats : bool;
  OutDepHashes : string;
  OutRelations : string;
  OutRecursiveDeps : string;
  OutRecursiveDepsFor : string;
  HashSalt : string;
}.

(** [binary.Write(buf, binary.LittleEndian, v)] for a [uint64]. *)
Definition le_uint64 (v : Z) : string :=
  string_of_list_ascii
    ((λ i : nat, ascii_of_N (Z.to_N (Z.land (Z.shiftr v (8 * Z.of_nat i)) 255)))
       <$> seq 0 8).

Definition hex_digit (n : N) : ascii :=
  if (n <? 10)%N then ascii_of_N (48 + n) else ascii_of_N (87 + n).

(** [fmt.Sprintf] with the verb [%x] on a byte slice. *)
Fixpoint hex (bytes : string) : string :=
  match bytes with
  | EmptyString => EmptyString
  | String c rest =>
      let n := N_of_ascii c in
      String (hex_digit (n / 16)%N) (String (hex_digit (n mod 16)%N) (hex rest))
  end.

(** A [hash.Hash] is the bytes written to it so far. *)
Definition hasher_Write (hasher : string) (bytes : string) : string :=
  hasher +:+ bytes.

(** The zero value of [[32]byte]. *)
Definition zero_hash : string :=
  string_of_list_ascii (replicate 32 zero).

Section driver.
Context (env : Env).

(** [LoadConfig] *)
Definition LoadConfig (path : string) : option (Config * string) :=
  file_data ← read_file env path;
  config ← yaml_Decode env file_data;
  Some (config, sha256_Sum256 env file_data).

(** [CalculateFileHashes] *)
Definition CalculateFileHashes (all_files_set : gset string) (base_dir : string)
    : result (gmap string string) :=
  for_each
    (λ (fileHashes : gmap string string) file_name,
       file_data_bytes ← try (read_file env (filepath.Join [base_dir; file_name]));
       Ok (<[file_name := sha256_Sum256 env file_data_bytes]> fileHashes))
    (elements all_files_set) ∅.

(** The digest one task of [main] stores in [dep_hashes[file_name]]. *)
Definition dep_hash (args : Args) (config_hash : string)
    (fileHashes : gmap string string) (dep_list : list string)
    (file_name : string) : string :=
  let hasher := EmptyString in
  let hasher := hasher_Write hasher (le_uint64 ALGORITHM_VERSION) in
  let hasher := hasher_Write hasher (HashSalt args) in
  let hasher := hasher_Write hasher config_hash in
  let hasher := hasher_Write hasher file_name in
  let hasher :=
    fold_left
      (λ hasher dep,
         let hasher := hasher_Write hasher dep in
         let dep_hash := default zero_hash (fileHashes !! dep) in
         hasher_Write hasher dep_hash)
      dep_list hasher in
  hex (sha256_Sum256 env hasher).

(** What a run leaves behind. *)
Record run : Type := {
  exit_status : Z;
  last_log : string;
  relations_json : option (gmap string (list string));
  recursive_deps_json : option (list string);
  dep_hashes_json : option (gmap string string);
}.

(** [log.Fatalf], [log.Fatalln]: the message, then [os.Exit(1)]. *)
Definition log_Fatal (message : string)
    (relations : option (gmap string (list string))) : run :=
  {| exit_status := 1; last_log := message; relations_json := relations;
     recursive_deps_json := None; dep_hashes_json := None |}.

(** [config.Inputs.items] after the override by [-input-files]:
    [len(args.InputFiles) > 0 && args.InputFiles[0] != ""]. *)
Definition effective_inputs (args : Args) (config : Config) : list string :=
  match InputFiles args with
  | first :: _ =>
      if String.eqb first EmptyString then Inputs config else InputFiles args
  | [] => Inputs config
  end.

(** The task [main] starts for one input file. *)
Definition hash_task (args : Args) (config_hash : string)
    (relations : gmap string (list string)) (fileHashes : gmap string string)
    (s : option (list string) * gmap string string) (file_name : string)
    : result (option (list string) * gmap string string) :=
  dep_list ← BuildFullDepList relations file_name;
  let recursive_deps :=
    if String.eqb (OutRecursiveDepsFor args) file_name then Some dep_list
    else s.1 in
  let dep_hashes :=
    if String.eqb (OutDepHashes args) EmptyString then s.2
    else <[file_name := dep_hash args config_hash fileHashes dep_list file_name]> s.2 in
  Ok (recursive_deps, dep_hashes).

(** [main], from the parsed flags ([None]: [parseArgs] returned an
    error). *)
Definition main (fuel : nat) (parsed : option Args) : result run :=
  match parsed with
  | None => Ok (log_Fatal "Error: " None)
  | Some args =>
  match LoadConfig (ConfigPath args) with
  | None => Ok (log_Fatal "failed to load config file: " None)
  | Some (config, config_hash) =>
  let inputs := effective_inputs args config in
  let base_dir := filepath.Join [filepath.Dir (ConfigPath args); BaseDir config] in
  match for_each
          (λ input_files input,
             input_files_chunk ← try (glob_any env base_dir input);
             Ok (input_files ++ input_files_chunk))
          inputs []
  with
  | Fatal | OutOfFuel => Ok (log_Fatal "error while collecting input files: " None)
  | Ok input_files =>
  let input_files := slices.compact (slices.sort input_files) in
  if length input_files =? 0
  then Ok (log_Fatal "No input files found. Exiting." None)
  else
  match VisitRecursively env config base_dir fuel input_files with
  | OutOfFuel => OutOfFuel
  | Fatal => Ok (log_Fatal "error while visiting files: " None)
  | Ok g =>
  let relations := relations_of g in
  let relations_out :=
    if String.eqb (OutRelations args) EmptyString then None else Some relations in
  if negb (PrintDepStats args) && negb (PrintRevDepStats args)
     && String.eqb (OutDepHashes args) EmptyString
     && String.eqb (OutRecursiveDeps args) EmptyString
  then Ok {| exit_status := 0; last_log := "Done"; relations_json := relations_out;
             recursive_deps_json := None; dep_hashes_json := None |}
  else
  match (if String.eqb (OutDepHashes args) EmptyString then Ok ∅
         else CalculateFileHashes (all_files_set g) base_dir)
  with
  | Fatal | OutOfFuel => Ok (log_Fatal "Error while reading file " relations_out)
  | Ok fileHashes =>
  match for_each (hash_task args config_hash relations fileHashes)
          (completion_order env input_files) (None, ∅)
  with
  | OutOfFuel => OutOfFuel
  | Fatal => Fatal
  | Ok (recursive_deps, dep_hashes) =>
      Ok {| exit_status := 0; last_log := "Done"; relations_json := relations_out;
            recursive_deps_json := recursive_deps;
            dep_hashes_json :=
              if String.eqb (OutDepHashes args) EmptyString then None
              else Some dep_hashes |}
  end end end end end end.

(** [main] of the earlier revision [repo_dagger.go], up to the test for
    no input files; [rest] is what it does with the input files from there
    on.  That revision logs each failure and returns. *)
Definition main_repo_dagger (parsed : option string)
    (rest : Config → string → list string → run) : run :=
  let returns message :=
    {| exit_status := 0; last_log := message; relations_json := None;
       recursive_deps_json := None; dep_hashes_json := None |} in
  match parsed with
  | None => returns "Error:"
  | Some config_path =>
  match read_file env config_path ≫= yaml_Decode env with
  | None => returns "Error: "
  | Some config =>
  let base_dir := filepath.Join [filepath.Dir config_path; BaseDir config] in
  match for_each
          (λ input_files input,
             input_files_chunk ← try (glob_any env base_dir input);
             Ok (input_files ++ input_files_chunk))
          (Inputs config) []
  with
  | Fatal | OutOfFuel => returns "Error: "
  | Ok input_files =>
  let input_files := slices.compact (slices.sort input_files) in
  if length input_files =? 0
  then returns "No input files found. Exiting."
  else rest config base_dir input_files
  end end end.

End driver.

(* ===================================================================== *)
(** * A small world to run the program in *)
(* ===================================================================== *)

(** A file tree given by its files (path and content), with a glob
    matcher for literal names, [?], [*] and [**], and the three import
    patterns of the program as hand-written matchers.  It is used to run
    the model on concrete trees; the theorems about the engine hold for
    every [Env]. *)
Module world.

Definition newline : ascii := ascii_of_nat 10.
Definition space : ascii := ascii_of_nat 32.

(** One path element against one pattern element. *)
Fixpoint elem_match (p : list ascii) : list ascii → bool :=
  match p with
  | [] => λ s, match s with [] => true | _ => false end
  | c :: p' =>
      if Ascii.eqb c "*" then
        fix star (s : list ascii) : bool :=
          elem_match p' s
          || match s with [] => false | _ :: s' => star s' end
      else if Ascii.eqb c "?" then
        λ s, match s with [] => false | _ :: s' => elem_match p' s' end
      else
        λ s, match s with
             | [] => false
             | d :: s' => Ascii.eqb c d && elem_match p' s'
             end
  end.

(** The elements of a path against the elements of a pattern; [**]
    stands for any number of elements. *)
Fixpoint elems_match (p : list string) : list string → bool :=
  match p with
  | [] => λ s, match s with [] => true | _ => false end
  | e :: p' =>
      if String.eqb e "**" then
        fix stars (s : list string) : bool :=
          elems_match p' s
          || match s with [] => false | _ :: s' => stars s' end
      else
        λ s, match s with
             | [] => false
             | d :: s' =>
                 elem_match (list_ascii_of_string e) (list_ascii_of_string d)
                 && elems_match p' s'
             end
  end.

Definition path_match (pattern name : string) : bool :=
  elems_match (strings.Split pattern "/") (strings.Split name "/").

(** [name] below the directory [dir]. *)
Definition below (dir name : string) : option string :=
  if String.eqb dir "." then Some name
  else if String.prefix (dir +:+ "/") name
  then Some (String.substring (String.length dir + 1)
               (String.length name - String.length dir - 1) name)
  else None.

(** The directories on the way to a file. *)
Fixpoint ancestors (fuel : nat) (path : string) : list string :=
  match fuel with
  | O => []
  | S fuel' =>
      let d := filepath.Dir path in
      if String.eqb d "." then [] else d :: ancestors fuel' d
  end.

Definition directories (files : list (string * string)) : list string :=
  remove_dups (files.*1 ≫= λ f, ancestors (String.length f) f).

Definition glob_in (names : list string) (dir pattern : string) : list string :=
  omap (λ name, r ← below dir name; if path_match pattern r then Some r else None)
    names.

Fixpoint span (keep : ascii → bool) (s : string) : string * string :=
  match s with
  | EmptyString => (EmptyString, EmptyString)
  | String c s' =>
      if keep c then let r := span keep s' in (String c r.1, r.2)
      else (EmptyString, s)
  end.

Definition strip_prefix (pre s : string) : option string :=
  if String.prefix pre s
  then Some (String.substring (String.length pre)
               (String.length s - String.length pre) s)
  else None.

(** The text after the first newline, if there is one. *)
Fixpoint next_line (s : string) : option string :=
  match s with
  | EmptyString => None
  | String c s' => if Ascii.eqb c newline then Some s' else next_line s'
  end.

Definition not_blank (c : ascii) : bool :=
  negb (Ascii.eqb c space) && negb (Ascii.eqb c newline).

(** One try of the pattern for [import m] at the start of a line: the
    submatches, and the text after the match. *)
Definition simple_at (s : string) : option (list string * string) :=
  let sp := span (Ascii.eqb space) s in
  rest ← strip_prefix "import " sp.2;
  let name := span not_blank rest in
  if String.eqb name.1 EmptyString then None
  else Some ([sp.1 +:+ "import " +:+ name.1; name.1], name.2).

(** One try of the pattern for [from m import ...]. *)
Definition from_at (s : string) : option (list string * string) :=
  let sp := span (Ascii.eqb space) s in
  rest ← strip_prefix "from " sp.2;
  let name := span not_blank rest in
  if String.eqb name.1 EmptyString then None
  else
    rest ← strip_prefix " import " name.2;
    let in_parens :=
      rest' ← strip_prefix "(" rest;
      let inner := span (λ c, negb (Ascii.eqb c ")")) rest' in
      after ← strip_prefix ")" inner.2;
      if String.eqb inner.1 EmptyString then None
      else Some ("(" +:+ inner.1 +:+ ")", after) in
    let names :=
      match in_parens with
      | Some r => Some r
      | None =>
          let line := span (λ c, negb (Ascii.eqb c newline)) rest in
          if String.eqb line.1 EmptyString then None else Some line
      end in
    r ← names;
    Some ([sp.1 +:+ "from " +:+ name.1 +:+ " import " +:+ r.1; name.1; r.1], r.2).

(** All matches of a pattern that is anchored at the start of a line. *)
Fixpoint at_line_starts (try_at : string → option (list string * string))
    (fuel : nat) (s : string) : list (list string) :=
  match fuel with
  | O => []
  | S fuel' =>
      match try_at s with
      | Some (m, after) =>
          m :: match next_line after with
               | Some s' => at_line_starts try_at fuel' s'
               | None => []
               end
      | None =>
          match next_line s with
          | Some s' => at_line_starts try_at fuel' s'
          | None => []
          end
      end
  end.

Definition ident_start (c : ascii) : bool :=
  let n := nat_of_ascii c in
  (65 <=? n) && (n <=? 90) || (97 <=? n) && (n <=? 122) || (n =? 95).

Definition ident_char (c : ascii) : bool :=
  let n := nat_of_ascii c in
  ident_start c || (48 <=? n) && (n <=? 57).

(** All identifiers of a text, each the longest at its place. *)
Fixpoint idents (cur : option string) (s : string) : list (list string) :=
  match s with
  | EmptyString => match cur with Some i => [[i]] | None => [] end
  | String c s' =>
      match cur with
      | Some i =>
          if ident_char c then idents (Some (i +:+ String c EmptyString)) s'
          else [i] :: idents None s'
      | None =>
          if ident_start c then idents (Some (String c EmptyString)) s'
          else idents None s'
      end
  end.

Definition compile (pattern : string) : option Regexp :=
  if String.eqb pattern python_import_parser_simple
  then Some (λ s, at_line_starts simple_at (S (String.length s)) s)
  else if String.eqb pattern python_import_parser_from
  then Some (λ s, at_line_starts from_at (S (String.length s)) s)
  else if String.eqb pattern python_import_parser_ident
  then Some (idents None)
  else None.

(** The world of a file tree.  Maps are walked in the order of
    [map_to_list], tasks complete in the order they were started. *)
Definition of_files (files : list (string * string))
    (decode : string → option Config) (sum256 : string → string) : Env :=
  {| glob_files dir pattern := Some (glob_in files.*1 dir pattern);
     glob_any dir pattern :=
       Some (glob_in (files.*1 ++ directories files) dir pattern);
     glob_match pattern name := Some (path_match pattern name);
     stat path :=
       if bool_decide (path ∈ files.*1) then Some false
       else if String.eqb path "." || bool_decide (path ∈ directories files)
       then Some true
       else None;
     read_file path := (list_to_map files : gmap string string) !! path;
     regexp_Compile := compile;
     range_path_rules _ m := map_to_list m;
     range_regex_rules _ m := map_to_list m;
     yaml_Decode := decode;
     sha256_Sum256 := sum256;
     completion_order l := l |}.

End world.

(* ===================================================================== *)
(** * Notions the statements use *)
(* ===================================================================== *)

(** The five files [Resolve] probes for a module. *)
Definition candidates (module : string) : list string :=
  let dir_path := strings.ReplaceAll module "." "/" in
  [filepath.Join [dir_path; "__init__.py"]; dir_path +:+ ".py";
   dir_path +:+ ".pyx"; dir_path +:+ ".pyi"; dir_path +:+ ".c"].

(** At least one candidate form of the module exists: one of the five
    files, or the bare directory. *)
Definition form_exists (env : Env) (base_dir module : string) : bool :=
  existsb (exists_path env base_dir) (candidates module)
  || is_dir env base_dir (strings.ReplaceAll module "." "/").

(** What the digest of an input file is computed from, in the words of
    the specification: the algorithm version, the salt, the hash of the
    configuration file, the path of the input file, and for each file of
    the closure its path and its content digest. *)
Definition digest_input (salt config_hash file_name : string)
    (closure : list string) (content_digest : string → string) : string :=
  le_uint64 ALGORITHM_VERSION +:+ salt +:+ config_hash +:+ file_name
  +:+ fold_right String.append EmptyString
        ((λ dep, dep +:+ content_digest dep) <$> closure).

(** One file is a direct relation of another. *)
Definition edge (m : gmap string (list string)) (a b : string) : Prop :=
  b ∈ related m a.

(** How often a file occurs in a closure. *)
Definition occurrences (x : string) (l : list string) : nat :=
  length (filter (λ y, y = x) l).

(** Walking up from [path], directory by directory, reaches ["."] within
    [n] steps: [path] lies below the base directory. *)
Fixpoint climbs (n : nat) (path : string) : bool :=
  String.eqb path "."
  || match n with
     | O => false
     | S n' => climbs n' (filepath.Dir path)
     end.

(** What [visitFile] records for a file when it starts from an empty slice
    and empty caches. *)
Definition relations_found (env : Env) (config : Config) (base_dir : string)
    (fuel : nat) (file : string) : result (list string) :=
  v ← visitFile env config base_dir fuel file
        {| v_gd := []; v_rel := Own []; v_cache := ∅; v_regex := ∅ |};
  Ok (slice_items (v_gd v) (v_rel v)).

(** Two worlds over the same file tree: they differ at most in the order
    in which a glob lists its matches, in the order in which maps are
    walked, and in the order in which the tasks of [main] complete. *)
Definition same_listing (o1 o2 : option (list string)) : Prop :=
  match o1, o2 with
  | Some l1, Some l2 => l1 ≡ₚ l2
  | None, None => True
  | _, _ => False
  end.

Definition same_tree (env1 env2 : Env) : Prop :=
  (∀ dir pattern,
     same_listing (glob_files env1 dir pattern) (glob_files env2 dir pattern)) ∧
  (∀ dir pattern,
     same_listing (glob_any env1 dir pattern) (glob_any env2 dir pattern)) ∧
  glob_match env1 = glob_match env2 ∧
  stat env1 = stat env2 ∧
  read_file env1 = read_file env2 ∧
  regexp_Compile env1 = regexp_Compile env2 ∧
  yaml_Decode env1 = yaml_Decode env2 ∧
  sha256_Sum256 env1 = sha256_Sum256 env2.

(** The outputs of a run that ends with status 0. *)
Definition successful (r : result run) : option run :=
  match r with
  | Ok x => if (exit_status x =? 0)%Z then Some x else None
  | _ => None
  end.

(** What one task of [main] does to the two tables, as a function. *)
Definition hash_step (env : Env) (args : Args) (config_hash : string)
    (relations : gmap string (list string)) (fileHashes : gmap string string)
    (s : option (list string) * gmap string string) (file_name : string)
    : option (list string) * gmap string string :=
  let dep_list :=
    match BuildFullDepList relations file_name with
    | Ok l => l
    | _ => []
    end in
  (if String.eqb (OutRecursiveDepsFor args) file_name then Some dep_list else s.1,
   if String.eqb (OutDepHashes args) EmptyString then s.2
   else <[file_name := dep_hash env args config_hash fileHashes dep_list file_name]> s.2).

(* ===================================================================== *)
(** * Invariants of the graph construction *)
(* ===================================================================== *)

(** The slice [file_relations] points to all of the global-deps array, or
    to an array of its own. *)
Definition full_slice (gd : list string) (s : slice) : Prop :=
  match s with
  | Shared n => n = length gd
  | Own _ => True
  end.

(** Every cached result is what [Resolve] computes from an empty cache. *)
Definition cache_ok (env : Env) (config : Config) (base_dir : string)
    (cache : resolver_cache) : Prop :=
  ∀ module paths,
    cache !! module = Some paths →
    ∃ cache', Resolve env config base_dir module ∅ = Ok (paths, cache').

(** Every cached expression is the compiled pattern. *)
Definition regex_ok (env : Env) (regex_cache : gmap string Regexp) : Prop :=
  ∀ pattern r, regex_cache !! pattern = Some r → regexp_Compile env pattern = Some r.

Definition visitor_ok (env : Env) (config : Config) (base_dir : string)
    (st : visitor) : Prop :=
  full_slice (v_gd st) (v_rel st)
  ∧ cache_ok env config base_dir (v_cache st)
  ∧ regex_ok env (v_regex st).

(** A text held for the file is the text of the file. *)
Definition file_data_ok (env : Env) (base_dir file : string)
    (file_data : option string) : Prop :=
  ∀ data, file_data = Some data →
          read_file env (filepath.Join [base_dir; file]) = Some data.

Definition visiting_ok (env : Env) (config : Config) (base_dir file : string)
    (s : option string * visitor) : Prop :=
  visitor_ok env config base_dir s.2 ∧ file_data_ok env base_dir file s.1.

(** [st'] is [st] with the relations [e] appended; the caches may have
    grown. *)
Definition appended (st : visitor) (e : list string) (st' : visitor) : Prop :=
  v_gd st' = v_gd st ∧ v_rel st' = (go_append (v_gd st) (v_rel st) e).2.

(** Two runs of a piece of the engine, started on the visitors [v1] and
    [v2], agree: both return, having appended the same relations up to
    their order, or neither returns. *)
Definition agree {S : Type} (ok1 ok2 : S → Prop) (π : S → visitor)
    (v1 v2 : visitor) (r1 r2 : result S) : Prop :=
  match r1, r2 with
  | Ok s1, Ok s2 =>
      ok1 s1 ∧ ok2 s2
      ∧ ∃ e1 e2, e1 ≡ₚ e2 ∧ appended v1 e1 (π s1) ∧ appended v2 e2 (π s2)
  | Ok _, _ | _, Ok _ => False
  | _, _ => True
  end.

(** Two runs of a piece of the graph construction are related by [R]:
    both return, in related states, or neither returns. *)
Definition related_runs {S : Type} (R : S → S → Prop) (r1 r2 : result S) : Prop :=
  match r1, r2 with
  | Ok s1, Ok s2 => R s1 s2
  | Ok _, _ | _, Ok _ => False
  | _, _ => True
  end.

(** The caches of a graph hold true results, and the global-deps array
    has kept its length. *)
Definition graph_ok (env : Env) (config : Config) (base_dir : string)
    (g : graph) : Prop :=
  cache_ok env config base_dir (g_cache g)
  ∧ regex_ok env (g_regex g)
  ∧ length (g_gd g) = length (GlobalDeps config).

(** Two graphs with the same maps and the same global-deps array, each
    with caches of true results. *)
Definition same_graph (env : Env) (config : Config) (base_dir : string)
    (g1 g2 : graph) : Prop :=
  graph_ok env config base_dir g1 ∧ graph_ok env config base_dir g2
  ∧ g_gd g1 = g_gd g2
  ∧ all_files_set g1 = all_files_set g2
  ∧ file_relation_map g1 = file_relation_map g2.

(** A graph all of whose files lie in the universe [U]. *)
Definition graph_within (env : Env) (config : Config) (base_dir : string)
    (U : gset string) (g : graph) : Prop :=
  graph_ok env config base_dir g
  ∧ all_files_set g ⊆ U
  ∧ (∀ x, x ∈ g_gd g → x ∈ U)
  ∧ (NoDup (g_gd g) ∨ EmptyString ∈ U).

(** What one call of [buildDepList] leaves behind: the files it marked
    are new, each is appended once, each is reachable from the file of the
    call, and each has all its relations marked. *)
Definition marks (m : gmap string (list string)) (roots : list string)
    (V : gset string) (L : list string)
    (V' : gset string) (L' : list string) : Prop :=
  V ⊆ V'
  ∧ (∀ c, c ∈ roots → c ∈ V')
  ∧ (∃ new, L' = L ++ new ∧ NoDup new ∧ ∀ x, x ∈ new ↔ x ∈ V' ∧ x ∉ V)
  ∧ (∀ x, x ∈ V' → x ∉ V → ∃ c, c ∈ roots ∧ rtc (edge m) c x)
  ∧ (∀ x y, x ∈ V' → x ∉ V → edge m x y → y ∈ V').

(** Two runs in the middle of a wave: the same graph so far and the same
    relations gathered for the next wave. *)
Definition same_frontier (env : Env) (config : Config) (base_dir : string)
    (s1 s2 : graph * list string) : Prop :=
  same_graph env config base_dir s1.1 s2.1 ∧ s1.2 = s2.2.

(** A wave that started from the graph [g0]: the graph and the relations
    gathered so far stay within [U], and the set of visited files has grown
    as soon as a relation was gathered. *)
Definition wave_inv (env : Env) (config : Config) (base_dir : string)
    (U : gset string) (g0 : graph) (s : graph * list string) : Prop :=
  graph_within env config base_dir U s.1
  ∧ (∀ x, x ∈ s.2 → x ∈ U)
  ∧ all_files_set g0 ⊆ all_files_set s.1
  ∧ (s.2 = [] ∨ all_files_set g0 ⊂ all_files_set s.1).

(** A piece of the engine that does not run out of budget. *)
Definition finishes {A : Type} (r : result A) : Prop :=
  match r with
  | OutOfFuel => False
  | _ => True
  end.

(* ===================================================================== *)
(** * Concrete trees and configurations *)
(* ===================================================================== *)

Module scenario.

Definition nl : string := String world.newline EmptyString.

Definition actions (siblings grand_siblings : list string) (imports : bool)
    : RuleActions :=
  {| Visit := []; VisitSiblings := siblings; VisitGrandSiblings := grand_siblings;
     VisitImportedPythonModules := imports; VisitPythonAllSubmodulesFor := [];
     Exclude := [] |}.

(** The end-to-end scenario: the pytest rule and the generic python rule
    of [example_config.yaml]. *)
Definition files : list (string * string) :=
  [("tests/test_foo.py", "import pkg.db" +:+ nl);
   ("pkg/db.py", EmptyString);
   ("pkg/__init__.py", EmptyString);
   ("conftest.py", EmptyString);
   ("poetry.lock", EmptyString);
   ("repo_dagger.yaml", "base_dir: .")].

Definition pytest_rule : PathRule :=
  {| Actions := actions [] ["conftest.py"; "__init__.py"] false;
     RegexRules := ∅ |}.

Definition python_rule : PathRule :=
  {| Actions := actions [] ["__init__.py"] true; RegexRules := ∅ |}.

Definition config : Config :=
  {| BaseDir := "."; Inputs := ["tests/**/test_*.py"];
     GlobalDeps := ["poetry.lock"]; GlobalExclude := [];
     RootPythonPackages := ["pkg"];
     PathRules := <["tests/**/test_*.py" := pytest_rule]>
                    (<["**/*.py" := python_rule]> ∅) |}.

(** A stand-in for SHA-256 where no digest is looked at. *)
Definition no_hash (bytes : string) : string := zero_hash.

Definition env : Env := world.of_files files (λ _, Some config) no_hash.

(** The same tree with the pytest rule alone. *)
Definition config_pytest_only : Config :=
  {| BaseDir := "."; Inputs := ["tests/**/test_*.py"];
     GlobalDeps := ["poetry.lock"]; GlobalExclude := [];
     RootPythonPackages := ["pkg"];
     PathRules := <["tests/**/test_*.py" := pytest_rule]> ∅ |}.

(** The tree of the resolver example. *)
Definition resolver_files : list (string * string) :=
  [("pkg/sub/mod.py", EmptyString);
   ("pkg/sub/__init__.py", EmptyString);
   ("pkg/__init__.py", EmptyString)].

Definition resolver_env : Env :=
  world.of_files resolver_files (λ _, None) no_hash.

(** A module that exists as a package, as a module and as a stub. *)
Definition stub_files : list (string * string) :=
  [("pkg/mod/__init__.py", EmptyString);
   ("pkg/mod.py", EmptyString);
   ("pkg/mod.pyi", EmptyString)].

Definition stub_env : Env := world.of_files stub_files (λ _, None) no_hash.

(** A file with relative imports, beside the module it imports. *)
Definition relative_files : list (string * string) :=
  [("pkg/a.py", "from . import b" +:+ nl +:+ "from .b import f" +:+ nl);
   ("pkg/b.py", EmptyString);
   ("pkg/__init__.py", EmptyString)].

Definition relative_config : Config :=
  {| BaseDir := "."; Inputs := ["pkg/a.py"]; GlobalDeps := [];
     GlobalExclude := []; RootPythonPackages := ["pkg"];
     PathRules := <["**/*.py" := {| Actions := actions [] [] true;
                                     RegexRules := ∅ |}]> ∅ |}.

Definition relative_env : Env :=
  world.of_files relative_files (λ _, Some relative_config) no_hash.

(** Two excluded inputs, and a global dependency listed twice. *)
Definition excluded_files : list (string * string) :=
  [("x.pyc", EmptyString); ("y.pyc", EmptyString); ("a", EmptyString);
   ("repo_dagger.yaml", "global_deps: [a, a]")].

Definition excluded_config : Config :=
  {| BaseDir := "."; Inputs := ["*.pyc"]; GlobalDeps := ["a"; "a"];
     GlobalExclude := ["**/*.pyc"]; RootPythonPackages := [];
     PathRules := ∅ |}.

Definition excluded_env : Env :=
  world.of_files excluded_files (λ _, Some excluded_config) no_hash.

(** A tree no input pattern matches. *)
Definition empty_config : Config :=
  {| BaseDir := "."; Inputs := ["tests/**/test_*.py"];
     GlobalDeps := ["poetry.lock"]; GlobalExclude := [];
     RootPythonPackages := ["pkg"]; PathRules := ∅ |}.

Definition empty_env : Env :=
  world.of_files [("repo_dagger.yaml", "inputs: tests/**/test_*.py")]
    (λ _, Some empty_config) no_hash.

(** The scenario in a world that lists directories, walks maps and
    completes tasks in the opposite order. *)
Definition env_reversed : Env :=
  {| glob_files dir pattern := reverse <$> glob_files env dir pattern;
     glob_any dir pattern := reverse <$> glob_any env dir pattern;
     glob_match := glob_match env;
     stat := stat env;
     read_file := read_file env;
     regexp_Compile := regexp_Compile env;
     range_path_rules k m := reverse (map_to_list m);
     range_regex_rules k m := reverse (map_to_list m);
     yaml_Decode := yaml_Decode env;
     sha256_Sum256 := sha256_Sum256 env;
     completion_order l := reverse l |}.

Definition args (config_path out_relations out_dep_hashes : string) : Args :=
  {| ConfigPath := config_path; InputFiles := [EmptyString];
     PrintDepStats := false; PrintRevDepStats := false;
     OutDepHashes := out_dep_hashes; OutRelations := out_relations;
     OutRecursiveDeps := EmptyString; OutRecursiveDepsFor := EmptyString;
     HashSalt := EmptyString |}.

End scenario.

(* ===================================================================== *)
(** * More of the program, and more notions for its properties *)
(* ===================================================================== *)

(** ** The resolver of the earlier revision *)

Section resolver_old.
Context (env : Env) (config : Config) (base_dir : string).

(** The probes of the earlier [Resolve] ([repo_dagger.go],
    [python_mod_resolver.go]): an [if]/[else if] chain, so the first form
    that exists is the only one taken; the bare path counts whether it is
    a directory or not, and stub files are not looked for. *)
Definition probe_old (module : string) : list string * bool :=
  let dir_path := strings.ReplaceAll module "." "/" in
  let dir_path_init := filepath.Join [dir_path; "__init__.py"] in
  let py_path := dir_path +:+ ".py" in
  let pyx_path := dir_path +:+ ".pyx" in
  let c_path := dir_path +:+ ".c" in
  if exists_path env base_dir dir_path_init then ([dir_path_init], true)
  else if exists_path env base_dir dir_path then ([], true)
  else if exists_path env base_dir py_path then ([py_path], true)
  else if exists_path env base_dir pyx_path then ([pyx_path], true)
  else if exists_path env base_dir c_path then ([c_path], true)
  else ([], false).

(** The earlier [Resolve].  A call on the parent is one unit of [fuel]. *)
Fixpoint Resolve_old_rec (fuel : nat) (module : string) (cache : resolver_cache)
    : result (list string * resolver_cache) :=
  match cache !! module with
  | Some cached => Ok (cached, cache)
  | None =>
      if negb (allowed config module) then Ok ([], <[module := []]> cache)
      else if strings.HasPrefix module "." then Fatal
      else
        let '(paths, visit_parent) := probe_old module in
        '(paths, cache) ←
          (if visit_parent then
             match parent_module module with
             | Some parent =>
                 match fuel with
                 | O => OutOfFuel
                 | S fuel' =>
                     '(sub_resolve, cache) ← Resolve_old_rec fuel' parent cache;
                     Ok (paths ++ sub_resolve, cache)
                 end
             | None => Ok (paths, cache)
             end
           else Ok (paths, cache));
        Ok (paths, <[module := paths]> cache)
  end.

Definition Resolve_old (module : string) (cache : resolver_cache)
    : result (list string * resolver_cache) :=
  Resolve_old_rec (String.length module) module cache.

End resolver_old.

(** [StatsSortVal] *)
Inductive StatsSortVal : Type :=
  | STATS_SORT_COUNT
  | STATS_SORT_NAME.

(** [StatsSortValFromString]: [None] is the error. *)
Definition StatsSortValFromString (val : string) : option StatsSortVal :=
  if String.eqb val "count" then Some STATS_SORT_COUNT
  else if String.eqb val "name" then Some STATS_SORT_NAME
  else None.

(** The values of the flags once [flag.Parse()] has run. *)
Record Flags : Type := {
  flag_version : bool;
  flag_config : string;
  flag_verbose : bool;
  flag_input_files : string;
  flag_print_dep_stats : bool;
  flag_print_rev_dep_stats : bool;
  flag_stats_sort : string;
  flag_self_profile : bool;
  flag_out_dep_hashes : string;
  flag_out_relations : string;
  flag_out_recursive_deps : string;
  flag_out_recursive_deps_for : string;
  flag_hash_salt : string;
}.

(** The defaults [parseArgs] declares. *)
Definition default_flags : Flags :=
  {| flag_version := false; flag_config := EmptyString; flag_verbose := false;
     flag_input_files := EmptyString; flag_print_dep_stats := false;
     flag_print_rev_dep_stats := false; flag_stats_sort := "count";
     flag_self_profile := false; flag_out_dep_hashes := EmptyString;
     flag_out_relations := EmptyString; flag_out_recursive_deps := EmptyString;
     flag_out_recursive_deps_for := EmptyString; flag_hash_salt := EmptyString |}.

(** How [parseArgs] ends: it prints the version and leaves with
    [os.Exit(0)], it returns an error, or it returns the arguments.  The
    fields of [Args] that only add log lines come beside the record the
    model of [main] takes. *)
Inductive parse_outcome : Type :=
  | PrintVersion
  | ParseError (message : string)
  | Parsed (args : Args) (verbose : bool) (stats_sort : StatsSortVal)
      (self_profile : bool).

(** [parseArgs], after [flag.Parse()]. *)
Definition parseArgs (f : Flags) : parse_outcome :=
  if flag_version f then PrintVersion
  else if String.eqb (flag_config f) EmptyString
  then ParseError "config path not specified"
  else
    match StatsSortValFromString (flag_stats_sort f) with
    | None => ParseError ("invalid stats-sort value: " +:+ flag_stats_sort f)
    | Some stats_sort_val =>
        if negb (Bool.eqb (String.eqb (flag_out_recursive_deps f) EmptyString)
                   (String.eqb (flag_out_recursive_deps_for f) EmptyString))
        then ParseError
               "both -out-recursive-deps and -out-recursive-deps-for must be specified together"
        else
          Parsed
            {| ConfigPath := flag_config f;
               InputFiles := strings.Split (flag_input_files f) ",";
               PrintDepStats := flag_print_dep_stats f;
               PrintRevDepStats := flag_print_rev_dep_stats f;
               OutDepHashes := flag_out_dep_hashes f;
               OutRelations := flag_out_relations f;
               OutRecursiveDeps := flag_out_recursive_deps f;
               OutRecursiveDepsFor := flag_out_recursive_deps_for f;
               HashSalt := flag_hash_salt f |}
            (flag_verbose f) stats_sort_val (flag_self_profile f)
    end.

(** The arguments a parse hands to [main]. *)
Definition parsed_args (o : parse_outcome) : option Args :=
  match o with
  | Parsed args _ _ _ => Some args
  | _ => None
  end.

(** The loop of [main] over [config.Inputs.items]: the matches of every
    input pattern, in the order of the patterns. *)
Definition collect_inputs (env : Env) (base_dir : string)
    (inputs : list string) : result (list string) :=
  for_each
    (λ input_files input,
       input_files_chunk ← try (glob_any env base_dir input);
       Ok (input_files ++ input_files_chunk))
    inputs [].

(** [main] returns after the relations are written: no report, no digest
    and no recursive dependencies were asked for. *)
Definition done_after_relations (args : Args) : bool :=
  negb (PrintDepStats args) && negb (PrintRevDepStats args)
  && String.eqb (OutDepHashes args) EmptyString
  && String.eqb (OutRecursiveDeps args) EmptyString.

(** The keys of the relation map are the visited files. *)
Definition dom_ok (g : graph) : Prop :=
  dom (file_relation_map g) = all_files_set g.

(** The entry of [file] is what a visit of the file alone finds, sorted
    and de-duplicated behind the global dependencies; an entry that still
    points into the global-deps array reads the sorted array. *)
Definition entry_ok (env : Env) (config : Config) (base_dir : string)
    (g : graph) (file : string) (s : slice) : Prop :=
  (∃ n found,
     relations_found env config base_dir n file = Ok found
     ∧ slice_items (g_gd g) s
       = slices.compact (slices.sort (GlobalDeps config ++ found)))
  ∧ match s with
    | Shared _ => g_gd g = slices.sort (GlobalDeps config)
    | Own _ => True
    end.

(** A graph over global dependencies without duplicates: the array holds
    them as configured or sorted, and every entry is as [entry_ok] says. *)
Definition graph_entries_ok (env : Env) (config : Config) (base_dir : string)
    (g : graph) : Prop :=
  graph_ok env config base_dir g
  ∧ (g_gd g = GlobalDeps config ∨ g_gd g = slices.sort (GlobalDeps config))
  ∧ ∀ file s,
      file_relation_map g !! file = Some s →
      entry_ok env config base_dir g file s.

(** Every file of an entry is visited, is an input of the wave, or waits
    for the next wave. *)
Definition pending_ok (g : graph) (inputs pending : list string) : Prop :=
  ∀ file s x,
    file_relation_map g !! file = Some s →
    x ∈ slice_items (g_gd g) s →
    x ∈ all_files_set g ∨ x ∈ inputs ∨ x ∈ pending.

(** Inputs that are excluded, over two global dependencies listed once
    each and out of order. *)
Module scenario_excluded.

Definition files : list (string * string) :=
  [("x.pyc", EmptyString); ("y.pyc", EmptyString); ("a", EmptyString);
   ("b", EmptyString); ("repo_dagger.yaml", "global_deps: [b, a]")].

Definition config : Config :=
  {| BaseDir := "."; Inputs := ["*.pyc"]; GlobalDeps := ["b"; "a"];
     GlobalExclude := ["**/*.pyc"]; RootPythonPackages := [];
     PathRules := ∅ |}.

Definition env : Env :=
  world.of_files files (λ _, Some config) scenario.no_hash.

End scenario_excluded.

(** A global dependency that is not in the tree. *)
Module scenario_missing.

Definition files : list (string * string) :=
  [("a.py", EmptyString); ("repo_dagger.yaml", "global_deps: missing.lock")].

Definition config : Config :=
  {| BaseDir := "."; Inputs := ["*.py"]; GlobalDeps := ["missing.lock"];
     GlobalExclude := []; RootPythonPackages := []; PathRules := ∅ |}.

Definition env : Env :=
  world.of_files files (λ _, Some config) scenario.no_hash.

End scenario_missing.

(** A global dependency named by a rooted path, and a rule that matches
    it. *)
Module scenario_rooted.

Definition files : list (string * string) :=
  [("a.py", EmptyString); ("repo_dagger.yaml", "global_deps: /abs.lock")].

Definition rule : PathRule :=
  {| Actions := scenario.actions [] [] false; RegexRules := ∅ |}.

Definition config : Config :=
  {| BaseDir := "."; Inputs := ["*.py"]; GlobalDeps := ["/abs.lock"];
     GlobalExclude := []; RootPythonPackages := [];
     PathRules := <["/**" := rule]> ∅ |}.

Definition env : Env :=
  world.of_files files (λ _, Some config) scenario.no_hash.

End scenario_rooted.

(* ===================================================================== *)
(** * Theorems *)
(* ===================================================================== *)

(** The library functions are kept folded in proofs. *)
Arguments filepath.Join : simpl never.
Arguments filepath.Dir : simpl never.
Arguments filepath.Clean : simpl never.
Arguments strings.ReplaceAll : simpl never.
Arguments strings.HasPrefix : simpl never.
Arguments slices.sort : simpl never.
Arguments slices.compact : simpl never.
Arguments applyOnTemplates : simpl never.

(** ** The order of strings, sorting and compaction *)

Lemma string_compare_refl (s : string) : String.compare s s = Eq.
Proof.
  induction s as [|c s IH]; simpl; [done|].
  unfold Ascii.compare. by rewrite N.compare_refl.
Qed.

Lemma string_leb_trans (a b c : string) :
  String.leb a b = true → String.leb b c = true → String.leb a c = true.
Proof.
  unfold String.leb. revert b c.
  induction a as [|x a IH]; intros [|y b] [|z c]; simpl; try done.
  unfold Ascii.compare.
  destruct (N.compare_spec (N_of_ascii x) (N_of_ascii y)) as [Hxy|Hxy|Hxy];
    destruct (N.compare_spec (N_of_ascii y) (N_of_ascii z)) as [Hyz|Hyz|Hyz];
    try done.
  - rewrite Hxy, Hyz, N.compare_refl. apply IH.
  - rewrite Hxy. intros _ _. by apply N.compare_lt_iff in Hyz as ->.
  - rewrite <- Hyz. intros _ _. by apply N.compare_lt_iff in Hxy as ->.
  - intros _ _.
    assert (N_of_ascii x < N_of_ascii z)%N as H by lia.
    by apply N.compare_lt_iff in H as ->.
Qed.

#[global] Instance string_le_refl : Reflexive slices.string_le.
Proof.
  intros s. unfold slices.string_le, String.leb.
  by rewrite string_compare_refl.
Qed.

#[global] Instance string_le_trans : Transitive slices.string_le.
Proof. intros a b c. apply string_leb_trans. Qed.

#[global] Instance string_le_total : Total slices.string_le.
Proof. intros a b. apply String.leb_total. Qed.

#[global] Instance string_le_antisym : AntiSymm (=) slices.string_le.
Proof. intros a b. apply String.leb_antisym. Qed.

Lemma sort_perm (l : list string) : slices.sort l ≡ₚ l.
Proof. apply merge_sort_Permutation. Qed.

Lemma sort_sorted (l : list string) : Sorted slices.string_le (slices.sort l).
Proof. apply (Sorted_merge_sort _). Qed.

(** Sorting is a function of the elements and their multiplicities: the
    order in which they were collected is forgotten. *)
Lemma sort_unique (l1 l2 : list string) :
  l1 ≡ₚ l2 → slices.sort l1 = slices.sort l2.
Proof.
  intros H. apply (Sorted_unique slices.string_le); try apply sort_sorted.
  by rewrite !sort_perm.
Qed.

Lemma sort_of_sorted (l : list string) :
  Sorted slices.string_le l → slices.sort l = l.
Proof.
  intros H. apply (Sorted_unique slices.string_le); [apply sort_sorted|done|].
  apply sort_perm.
Qed.

Lemma sort_elem_of (x : string) (l : list string) : x ∈ slices.sort l ↔ x ∈ l.
Proof. by rewrite sort_perm. Qed.

Lemma sort_length (l : list string) : length (slices.sort l) = length l.
Proof. by rewrite sort_perm. Qed.

Lemma compact_cons_cons (x y : string) (l : list string) :
  slices.compact (x :: y :: l) =
  if String.eqb x y then slices.compact (y :: l) else x :: slices.compact (y :: l).
Proof. done. Qed.

Lemma compact_elem_of (x : string) (l : list string) :
  x ∈ slices.compact l ↔ x ∈ l.
Proof.
  induction l as [|a [|b l] IH]; [done..|].
  rewrite compact_cons_cons. destruct (String.eqb_spec a b) as [->|Hab].
  - rewrite IH. set_solver.
  - rewrite elem_of_cons, IH. set_solver.
Qed.

Lemma compact_length (l : list string) : length (slices.compact l) ≤ length l.
Proof.
  induction l as [|a [|b l] IH]; [done..|].
  rewrite compact_cons_cons. destruct (String.eqb a b); simpl in *; lia.
Qed.

Lemma compact_head (a : string) (l : list string) :
  ∃ l', slices.compact (a :: l) = a :: l'.
Proof.
  revert a. induction l as [|b l IH]; intros a; [by eexists|].
  rewrite compact_cons_cons. destruct (String.eqb_spec a b) as [->|Hab]; eauto.
Qed.

Lemma compact_sorted (l : list string) :
  Sorted slices.string_le l → Sorted slices.string_le (slices.compact l).
Proof.
  induction l as [|a [|b l] IH]; [done..|].
  intros Hs. rewrite compact_cons_cons.
  apply Sorted_inv in Hs as [Hs Hhd].
  destruct (String.eqb_spec a b) as [->|Hab]; [by apply IH|].
  constructor; [by apply IH|].
  destruct (compact_head b l) as [l' ->]. constructor.
  by apply HdRel_inv in Hhd.
Qed.

(** A sorted list without its repetitions has every element once. *)
Lemma compact_NoDup (l : list string) :
  Sorted slices.string_le l → NoDup (slices.compact l).
Proof.
  induction l as [|a [|b l] IH]; [constructor|repeat constructor; set_solver|].
  intros Hs. rewrite compact_cons_cons.
  pose proof Hs as Hss%Sorted_StronglySorted; [|apply _].
  apply Sorted_inv in Hs as [Hs Hhd].
  destruct (String.eqb_spec a b) as [->|Hab]; [by apply IH|].
  constructor; [|by apply IH].
  rewrite compact_elem_of. intros Hin.
  apply StronglySorted_inv in Hss as [Hss Hall].
  rewrite Forall_forall in Hall.
  apply StronglySorted_inv in Hss as [_ Hall'].
  rewrite Forall_forall in Hall'.
  apply elem_of_cons in Hin as [->|Hin]; [done|].
  apply Hab. apply (anti_symm slices.string_le).
  - apply Hall. set_solver.
  - by apply Hall'.
Qed.

Lemma compact_of_NoDup (l : list string) : NoDup l → slices.compact l = l.
Proof.
  induction l as [|a [|b l] IH]; [done..|].
  intros Hnd. rewrite compact_cons_cons.
  apply NoDup_cons in Hnd as [Hnotin Hnd].
  destruct (String.eqb_spec a b) as [->|Hab]; [set_solver|].
  by rewrite IH.
Qed.

(** What is stored after [slices.Sort] and [slices.Compact]. *)
Lemma stored_sorted_nodup (l : list string) :
  Sorted slices.string_le (slices.compact (slices.sort l))
  ∧ NoDup (slices.compact (slices.sort l))
  ∧ ∀ x, x ∈ slices.compact (slices.sort l) ↔ x ∈ l.
Proof.
  split_and!.
  - apply compact_sorted, sort_sorted.
  - apply compact_NoDup, sort_sorted.
  - intros x. by rewrite compact_elem_of, sort_elem_of.
Qed.

(** ** The resolver *)

Lemma substring_0_length (n : nat) (s : string) :
  String.length (String.substring 0 n s) = n `min` String.length s.
Proof.
  revert n. induction s as [|c s IH]; intros [|n]; simpl; [done..|].
  by rewrite IH.
Qed.

Lemma last_index_go_bound (i : nat) (s : string) (last : option nat) (j : nat) :
  strings.last_index_go "." i s last = Some j →
  last = Some j ∨ (i ≤ j ∧ j < i + String.length s).
Proof.
  revert i last.
  induction s as [|c s IH]; intros i last; [simpl; auto|].
  cbn [strings.last_index_go String.length].
  intros H. apply IH in H as [H|H]; [|right; lia].
  destruct (String.prefix "." (String c s)); [|by left].
  right; simplify_eq; lia.
Qed.

(** The parent of a dotted name is shorter than the name. *)
Lemma parent_module_shorter (module parent : string) :
  parent_module module = Some parent →
  String.length parent < String.length module.
Proof.
  unfold parent_module, strings.LastIndex.
  destruct (strings.last_index_go "." 0 module None) as [j|] eqn:Hj; [|done].
  apply last_index_go_bound in Hj as [?|[_ Hj]]; [done|].
  destruct (Z.of_nat j) eqn:Hz; [| |lia]; intros [= <-];
    rewrite substring_0_length; lia.
Qed.

Section resolver_facts.
Context (env : Env) (config : Config) (base_dir : string).

Notation Resolve_rec := (Resolve_rec env config base_dir).
Notation Resolve := (Resolve env config base_dir).
Notation probe := (probe env base_dir).

(** Any budget of at least the length of the name gives the same result:
    the budget [Resolve] starts with is enough. *)
Lemma Resolve_rec_fuel (fuel1 fuel2 : nat) (module : string)
    (cache : resolver_cache) :
  String.length module ≤ fuel1 → String.length module ≤ fuel2 →
  Resolve_rec fuel1 module cache = Resolve_rec fuel2 module cache.
Proof.
  revert fuel2 module cache.
  induction fuel1 as [|fuel1 IH]; intros fuel2 module cache H1 H2.
  - destruct module; [|simpl in H1; lia].
    destruct fuel2; simpl; done.
  - destruct fuel2 as [|fuel2].
    { destruct module; [|simpl in H2; lia]. simpl; done. }
    simpl. destruct (cache !! module); [done|].
    destruct (negb (allowed config module)); [done|].
    destruct (strings.HasPrefix module "."); [done|].
    destruct (probe module) as [paths [|]]; [|done].
    destruct (parent_module module) as [parent|] eqn:Hp; [|done].
    apply parent_module_shorter in Hp.
    rewrite (IH fuel2); [done|lia..].
Qed.

(** The equation of [Resolve]: the source, with the recursive call. *)
Lemma Resolve_unfold (module : string) (cache : resolver_cache) :
  Resolve module cache =
  match cache !! module with
  | Some cached => Ok (cached, cache)
  | None =>
      if negb (allowed config module) then Ok ([], <[module := []]> cache)
      else if strings.HasPrefix module "." then Fatal
      else
        let '(paths, visit_parent) := probe module in
        match (if visit_parent then parent_module module else None) with
        | Some parent =>
            r ← Resolve parent cache;
            Ok (paths ++ r.1, <[module := paths ++ r.1]> r.2)
        | None => Ok (paths, <[module := paths]> cache)
        end
  end.
Proof.
  unfold Resolve at 1.
  destruct (String.length module) as [|n] eqn:Hn.
  - destruct module; [|done]. simpl.
    destruct (cache !! EmptyString); [done|].
    destruct (negb (allowed config EmptyString)); [done|].
    destruct (probe EmptyString) as [paths [|]]; done.
  - simpl. destruct (cache !! module); [done|].
    destruct (negb (allowed config module)); [done|].
    destruct (strings.HasPrefix module "."); [done|].
    destruct (probe module) as [paths [|]]; [|done].
    destruct (parent_module module) as [parent|] eqn:Hp; [|done].
    apply parent_module_shorter in Hp.
    rewrite (Resolve_rec_fuel n (String.length parent)); [|lia..].
    fold (Resolve parent cache).
    destruct (Resolve parent cache) as [[sub c]| |]; done.
Qed.

(** [Resolve] always comes back: it returns or it ends the run. *)
Lemma Resolve_total (module : string) (cache : resolver_cache) :
  Resolve module cache ≠ OutOfFuel.
Proof.
  remember (String.length module) as n eqn:Hn.
  revert module cache Hn.
  induction (lt_wf n) as [n _ IH]; intros module cache ->.
  rewrite Resolve_unfold.
  destruct (cache !! module); [done|].
  destruct (negb (allowed config module)); [done|].
  destruct (strings.HasPrefix module "."); [done|].
  destruct (probe module) as [paths [|]]; [|done].
  destruct (parent_module module) as [parent|] eqn:Hp; [|done].
  apply parent_module_shorter in Hp.
  specialize (IH _ Hp parent cache eq_refl).
  destruct (Resolve parent cache) as [[sub c]| |]; done.
Qed.

(** A resolved module is in the cache, and the cache only grows. *)
Lemma Resolve_caches (module : string) (cache cache' : resolver_cache)
    (paths : list string) :
  Resolve module cache = Ok (paths, cache') →
  cache' !! module = Some paths ∧ cache ⊆ cache'.
Proof.
  remember (String.length module) as n eqn:Hn.
  revert module cache cache' paths Hn.
  induction (lt_wf n) as [n _ IH]; intros module cache cache' paths ->.
  rewrite Resolve_unfold.
  destruct (cache !! module) as [cached|] eqn:Hc.
  { intros [= <- <-]. done. }
  destruct (negb (allowed config module)).
  { intros [= <- <-]. split; [by rewrite lookup_insert_eq|].
    by apply insert_subseteq. }
  destruct (strings.HasPrefix module "."); [done|].
  destruct (probe module) as [ps [|]].
  - destruct (parent_module module) as [parent|] eqn:Hp.
    + pose proof (parent_module_shorter _ _ Hp) as Hlt.
      destruct (Resolve parent cache) as [[sub c]| |] eqn:Hr; [|done..].
      simpl. intros [= <- <-].
      destruct (IH _ Hlt parent cache c sub eq_refl Hr) as [Hpc Hsub].
      split; [by rewrite lookup_insert_eq|].
      etrans; [exact Hsub|]. apply insert_subseteq.
      destruct (c !! module) as [x|] eqn:Hcm; [|done].
      destruct (decide (module = parent)) as [->|Hne]; [lia|].
      (* a key of [c] that is not in [cache] was resolved below [parent] *)
      exfalso. revert Hcm. clear -Hc Hr Hlt IH.
      assert (∀ k, String.length k < String.length module →
                ∀ c0 c1 ps, Resolve k c0 = Ok (ps, c1) → c0 !! module = None →
                c1 !! module = None) as Hfresh.
      { intros k. remember (String.length k) as m eqn:Hm.
        revert k Hm. induction (lt_wf m) as [m _ IHm]; intros k -> Hk c0 c1 ps.
        rewrite Resolve_unfold.
        assert (k ≠ module) as Hkm by (intros ->; lia).
        destruct (c0 !! k); [by intros [= <- <-]|].
        destruct (negb (allowed config k)).
        { intros [= <- <-] ?. by rewrite lookup_insert_ne. }
        destruct (strings.HasPrefix k "."); [done|].
        destruct (probe k) as [qs [|]].
        - destruct (parent_module k) as [pk|] eqn:Hpk.
          + pose proof (parent_module_shorter _ _ Hpk) as Hlt'.
            destruct (Resolve pk c0) as [[s2 c2]| |] eqn:Hr2; [|done..].
            simpl. intros [= <- <-] H0. rewrite lookup_insert_ne; [|done].
            eapply (IHm _ Hlt' pk eq_refl); [lia|exact Hr2|exact H0].
          + intros [= <- <-] ?. by rewrite lookup_insert_ne.
        - intros [= <- <-] ?. by rewrite lookup_insert_ne. }
      intros Hcm. by rewrite (Hfresh parent Hlt cache c sub Hr Hc) in Hcm.
    + intros [= <- <-]. split; [by rewrite lookup_insert_eq|].
      by apply insert_subseteq.
  - intros [= <- <-]. split; [by rewrite lookup_insert_eq|].
    by apply insert_subseteq.
Qed.

End resolver_facts.

Section resolver_claims.
Context (env : Env) (config : Config) (base_dir : string).

Notation exists_path := (exists_path env base_dir).

(** The probes of the source, said at once: the candidates that exist, in
    the order of the probes, and whether any form exists. *)
Lemma probe_spec (module : string) :
  probe env base_dir module =
  (List.filter exists_path (candidates module), form_exists env base_dir module).
Proof.
  unfold probe, form_exists, candidates.
  cbn [fold_left existsb List.filter].
  generalize (filepath.Join [strings.ReplaceAll module "." "/"; "__init__.py"]).
  generalize (strings.ReplaceAll module "." "/"). intros d i.
  destruct (exists_path i), (is_dir env base_dir d), (exists_path (d +:+ ".py")),
    (exists_path (d +:+ ".pyx")), (exists_path (d +:+ ".pyi")),
    (exists_path (d +:+ ".c")); reflexivity.
Qed.

Lemma probe_paths_nil (module : string) :
  form_exists env base_dir module = false → (probe env base_dir module).1 = [].
Proof.
  rewrite probe_spec. unfold form_exists. cbn [fst].
  intros [H _]%orb_false_iff.
  destruct (List.filter exists_path (candidates module)) as [|p l] eqn:Hf; [done|].
  assert (In p (List.filter exists_path (candidates module))) as Hp
    by (rewrite Hf; by left).
  apply filter_In in Hp as [Hp Hex].
  assert (existsb exists_path (candidates module) = true) as Ht
    by (apply existsb_exists; eauto).
  congruence.
Qed.

End resolver_claims.

(** A module outside every root package is resolved to nothing, whatever
    its name looks like; the test for a leading dot comes after the
    filter. *)
Lemma Resolve_outside_roots (env : Env) (config : Config)
    (base_dir module : string) (cache : resolver_cache) :
  cache !! module = None →
  allowed config module = false →
  Resolve env config base_dir module cache = Ok ([], <[module := []]> cache).
Proof. intros Hc Ha. rewrite Resolve_unfold, Hc, Ha. done. Qed.

(** The panic is reached by a name with a leading dot that passes the
    filter, that is, when a root package itself starts with a dot or is
    empty. *)
Lemma Resolve_relative_inside_roots (env : Env) (config : Config)
    (base_dir module : string) (cache : resolver_cache) :
  cache !! module = None →
  allowed config module = true →
  strings.HasPrefix module "." = true →
  Resolve env config base_dir module cache = Fatal.
Proof. intros Hc Ha Hp. rewrite Resolve_unfold, Hc, Ha, Hp. done. Qed.

(** C4 (the code at the failing input): with the root package [pkg], the
    relative module name [.b] does not end the run: [Resolve] returns no
    path and caches the empty result; and a file whose only imports are
    [from . import b] and [from .b import f] is visited without failure
    and gets no relation at all. *)
Theorem Resolve_relative_import_is_silent :
  Resolve scenario.relative_env scenario.relative_config "." ".b" ∅
  = Ok ([], {[".b" := []]})
  ∧ (g ← VisitRecursively scenario.relative_env scenario.relative_config "."
           10 ["pkg/a.py"];
     Ok (relations_of g))
    = Ok {["pkg/a.py" := []]}.
Proof. split; vm_compute; reflexivity. Qed.

(** C8: for a module that passes the filter and is not cached, [Resolve]
    calls itself on the parent name exactly when a candidate form of the
    module exists: then the result is the module's own paths followed by
    the parent's; when no form exists the result is empty and the parent
    is not resolved (it does not enter the cache). *)
Theorem Resolve_visits_parent_iff_form_exists (env : Env) (config : Config)
    (base_dir module parent : string) (cache : resolver_cache) :
  cache !! module = None →
  allowed config module = true →
  strings.HasPrefix module "." = false →
  parent_module module = Some parent →
  cache !! parent = None →
  (if form_exists env base_dir module
   then Resolve env config base_dir module cache =
          r ← Resolve env config base_dir parent cache;
          Ok ((probe env base_dir module).1 ++ r.1,
              <[module := (probe env base_dir module).1 ++ r.1]> r.2)
   else Resolve env config base_dir module cache
        = Ok ([], <[module := []]> cache))
  ∧ (∀ paths cache',
       Resolve env config base_dir module cache = Ok (paths, cache') →
       is_Some (cache' !! parent) ↔ form_exists env base_dir module = true).
Proof.
  intros Hc Ha Hp Hpar Hcp.
  pose proof (parent_module_shorter _ _ Hpar) as Hlt.
  assert (module ≠ parent) as Hne by (intros ->; lia).
  pose proof (Resolve_unfold env config base_dir module cache) as Heq.
  rewrite Hc, Ha, Hp in Heq. cbn [negb] in Heq.
  pose proof (probe_spec env base_dir module) as Hprobe.
  destruct (probe env base_dir module) as [ps vp]. injection Hprobe as Hps Hvp.
  rewrite <- Hvp. cbn [fst]. destruct vp.
  - rewrite Hpar in Heq. split; [done|].
    intros paths cache'. rewrite Heq.
    destruct (Resolve env config base_dir parent cache) as [[sub c]| |] eqn:Hr;
      [|done..].
    simpl. intros [= <- <-]. split; [done|]. intros _.
    apply Resolve_caches in Hr as [Hr _].
    rewrite lookup_insert_ne; [|done]. by rewrite Hr.
  - assert (ps = []) as ->.
    { pose proof (probe_paths_nil env base_dir module (eq_sym Hvp)) as Hnil.
      rewrite probe_spec in Hnil. by rewrite Hps. }
    split; [done|].
    intros paths cache'. rewrite Heq. intros [= <- <-].
    rewrite lookup_insert_ne; [|done]. rewrite Hcp.
    split; [by intros [? ?]|done].
Qed.

Lemma Resolve_visits_parent_witness :
  Resolve scenario.resolver_env scenario.config "." "pkg.sub.mod" ∅ =
  r ← Resolve scenario.resolver_env scenario.config "." "pkg.sub" ∅;
  Ok (["pkg/sub/mod.py"] ++ r.1,
      <["pkg.sub.mod" := ["pkg/sub/mod.py"] ++ r.1]> r.2).
Proof.
  exact (proj1 (Resolve_visits_parent_iff_form_exists
                  scenario.resolver_env scenario.config "." "pkg.sub.mod"
                  "pkg.sub" ∅ eq_refl eq_refl eq_refl eq_refl eq_refl)).
Defined.

(** Without a dot in the name there is no parent to visit. *)
Lemma Resolve_top_level (env : Env) (config : Config)
    (base_dir module : string) (cache : resolver_cache) :
  cache !! module = None →
  allowed config module = true →
  strings.HasPrefix module "." = false →
  parent_module module = None →
  Resolve env config base_dir module cache =
  Ok ((probe env base_dir module).1,
      <[module := (probe env base_dir module).1]> cache).
Proof.
  intros Hc Ha Hp Hpar. rewrite Resolve_unfold, Hc, Ha, Hp, Hpar.
  cbn [negb]. by destruct (probe env base_dir module) as [ps [|]].
Qed.

(** C3: in every tree, for every module that passes the filter, each
    candidate file that exists is among the paths [Resolve] returns: the
    probes do not exclude one another.  And with the single root package
    [pkg], in a tree where, of the files [Resolve] probes for
    [pkg.sub.mod], [pkg.sub] and [pkg], exactly [pkg/sub/mod.py],
    [pkg/sub/__init__.py] and [pkg/__init__.py] exist, resolving
    [pkg.sub.mod] returns these three paths. *)
Theorem Resolve_accumulates_every_form (env : Env) (config : Config)
    (base_dir : string) :
  (∀ module cache paths cache',
     cache !! module = None →
     allowed config module = true →
     Resolve env config base_dir module cache = Ok (paths, cache') →
     ∀ p, p ∈ candidates module → exists_path env base_dir p = true →
          p ∈ paths)
  ∧ (∀ cache,
       RootPythonPackages config = ["pkg"] →
       (∀ module p,
          module ∈ ["pkg.sub.mod"; "pkg.sub"; "pkg"] → p ∈ candidates module →
          exists_path env base_dir p =
          bool_decide
            (p ∈ ["pkg/sub/mod.py"; "pkg/sub/__init__.py"; "pkg/__init__.py"])) →
       (∀ module,
          module ∈ ["pkg.sub.mod"; "pkg.sub"; "pkg"] → cache !! module = None) →
       ∃ cache',
         Resolve env config base_dir "pkg.sub.mod" cache =
         Ok (["pkg/sub/mod.py"; "pkg/sub/__init__.py"; "pkg/__init__.py"], cache')).
Proof.
  split.
  - intros module cache0 paths cache' Hc Ha Hr p Hp Hexp.
    rewrite Resolve_unfold, Hc, Ha in Hr. cbn [negb] in Hr.
    destruct (strings.HasPrefix module "."); [done|].
    assert (p ∈ (probe env base_dir module).1) as Hin.
    { rewrite probe_spec. cbn [fst]. apply list_elem_of_In, filter_In.
      split; [by apply list_elem_of_In|done]. }
    destruct (probe env base_dir module) as [ps vp]. cbn [fst] in Hin.
    destruct (if vp then parent_module module else None) as [parent|].
    + destruct (Resolve env config base_dir parent cache0) as [[sub c]| |];
        [|done..].
      simpl in Hr. injection Hr as <- <-. set_solver.
    + injection Hr as <- <-. done.
  - intros cache Hroots Hex Hcache.
    assert (∀ module, module ∈ ["pkg.sub.mod"; "pkg.sub"; "pkg"] →
              (probe env base_dir module).1 =
              List.filter
                (λ p, bool_decide
                        (p ∈ ["pkg/sub/mod.py"; "pkg/sub/__init__.py";
                              "pkg/__init__.py"]))
                (candidates module)) as Hpaths.
    { intros module Hm. rewrite probe_spec. cbn [fst].
      apply filter_ext_in. intros p Hp. apply (Hex module); [done|].
      by apply list_elem_of_In. }
    assert (∀ module, module ∈ ["pkg.sub.mod"; "pkg.sub"] →
              (probe env base_dir module).2 = true) as Hvp.
    { intros module Hm. rewrite probe_spec. cbn [snd]. unfold form_exists.
      apply orb_true_iff. left. apply existsb_exists.
      assert (∃ p, p ∈ candidates module ∧
                   p ∈ ["pkg/sub/mod.py"; "pkg/sub/__init__.py"; "pkg/__init__.py"])
        as (p & Hp & Hp3).
      { apply elem_of_cons in Hm as [->|Hm].
        - exists "pkg/sub/mod.py". split; vm_compute; set_solver.
        - apply list_elem_of_singleton in Hm as ->.
          exists "pkg/sub/__init__.py". split; vm_compute; set_solver. }
      exists p. split; [by apply list_elem_of_In|].
      rewrite (Hex module p); [by apply bool_decide_eq_true| |done].
      set_solver. }
    assert (allowed config "pkg.sub.mod" = true ∧ allowed config "pkg.sub" = true
            ∧ allowed config "pkg" = true) as (Ha1 & Ha2 & Ha3).
    { unfold allowed. rewrite Hroots. done. }
    pose proof (Hpaths "pkg" ltac:(set_solver)) as Hp3.
    pose proof (Hpaths "pkg.sub" ltac:(set_solver)) as Hp2.
    pose proof (Hpaths "pkg.sub.mod" ltac:(set_solver)) as Hp1.
    pose proof (Hvp "pkg.sub" ltac:(set_solver)) as Hv2.
    pose proof (Hvp "pkg.sub.mod" ltac:(set_solver)) as Hv1.
    assert (Resolve env config base_dir "pkg" cache =
            Ok (["pkg/__init__.py"], <["pkg" := ["pkg/__init__.py"]]> cache)) as Hr3.
    { rewrite Resolve_top_level; [by rewrite Hp3|set_solver|done..]. }
    eexists.
    rewrite (Resolve_unfold env config base_dir "pkg.sub.mod").
    rewrite (Hcache "pkg.sub.mod") by set_solver. rewrite Ha1. cbn [negb].
    change (strings.HasPrefix "pkg.sub.mod" ".") with false. cbv iota.
    destruct (probe env base_dir "pkg.sub.mod") as [ps1 vp1].
    cbn [fst snd] in Hp1, Hv1. subst ps1 vp1.
    change (parent_module "pkg.sub.mod") with (Some "pkg.sub"). cbv iota.
    rewrite (Resolve_unfold env config base_dir "pkg.sub").
    rewrite (Hcache "pkg.sub") by set_solver. rewrite Ha2. cbn [negb].
    change (strings.HasPrefix "pkg.sub" ".") with false. cbv iota.
    destruct (probe env base_dir "pkg.sub") as [ps2 vp2].
    cbn [fst snd] in Hp2, Hv2. subst ps2 vp2.
    change (parent_module "pkg.sub") with (Some "pkg"). cbv iota.
    rewrite Hr3. reflexivity.
Qed.

Lemma Resolve_accumulates_witness :
  "pkg/mod.pyi" ∈ ["pkg/mod/__init__.py"; "pkg/mod.py"; "pkg/mod.pyi"]
  ∧ ∃ cache',
      Resolve scenario.resolver_env scenario.config "." "pkg.sub.mod" ∅ =
      Ok (["pkg/sub/mod.py"; "pkg/sub/__init__.py"; "pkg/__init__.py"], cache').
Proof.
  split.
  - eapply (proj1 (Resolve_accumulates_every_form
                     scenario.stub_env scenario.config ".") "pkg.mod" ∅).
    + reflexivity.
    + reflexivity.
    + vm_compute. reflexivity.
    + vm_compute. set_solver.
    + reflexivity.
  - apply (proj2 (Resolve_accumulates_every_form
                    scenario.resolver_env scenario.config ".") ∅).
    + reflexivity.
    + intros module p Hm Hp.
      repeat (apply elem_of_cons in Hm as [->|Hm]);
        [| | |by apply elem_of_nil in Hm];
        vm_compute in Hp;
        repeat (apply elem_of_cons in Hp as [->|Hp]);
        try (by apply elem_of_nil in Hp); vm_compute; reflexivity.
    + intros module _. apply lookup_empty.
Defined.

(** ** The closure *)

Section closure_facts.
Context (m : gmap string (list string)).

Lemma universe_closed (file x y : string) :
  x ∈ closure_universe m file → edge m x y → y ∈ closure_universe m file.
Proof.
  intros _. unfold edge, related.
  destruct (m !! x) as [l|] eqn:Hx; simpl; [|by intros ?%elem_of_nil].
  intros Hy. unfold closure_universe.
  apply elem_of_union_r, elem_of_union_list.
  exists (list_to_set l). split; [|by apply elem_of_list_to_set].
  apply list_elem_of_fmap. exists l. split; [done|].
  apply list_elem_of_fmap. exists (x, l). split; [done|].
  by apply elem_of_map_to_list.
Qed.

Lemma marks_children (U : gset string) (fuel : nat) :
  (∀ file V L, file ∈ U → size (U ∖ V) < fuel →
     ∃ V' L', buildDepList m fuel file (V, L) = Ok (V', L')
              ∧ marks m [file] V L V' L') →
  ∀ cs V L, (∀ c, c ∈ cs → c ∈ U) → size (U ∖ V) < fuel →
    ∃ V' L',
      fold_left (λ acc related_file, st ← acc; buildDepList m fuel related_file st)
        cs (Ok (V, L)) = Ok (V', L')
      ∧ marks m cs V L V' L'.
Proof.
  intros IH cs. induction cs as [|c cs IHcs]; intros V L Hcs Hsize.
  - exists V, L. split; [done|]. split_and!; [done|set_solver| |set_solver..].
    exists []. split_and!; [by rewrite app_nil_r|constructor|set_solver].
  - destruct (IH c V L) as (V1 & L1 & Hrun & HV & Hroot & Hnew & Hreach & Hclosed);
      [set_solver|done|].
    destruct (IHcs V1 L1) as (V2 & L2 & Hrun2 & HV2 & Hroot2 & Hnew2 & Hreach2 & Hclosed2).
    { set_solver. }
    { eapply Nat.le_lt_trans; [|exact Hsize]. apply subseteq_size. set_solver. }
    exists V2, L2. split.
    { cbn [fold_left]. simpl. rewrite Hrun. exact Hrun2. }
    destruct Hnew as (new1 & -> & Hnd1 & Hin1).
    destruct Hnew2 as (new2 & -> & Hnd2 & Hin2).
    split_and!.
    + set_solver.
    + intros c' [->|Hc']%elem_of_cons; [|by apply Hroot2].
      apply HV2, Hroot. set_solver.
    + exists (new1 ++ new2). split_and!.
      * by rewrite app_assoc.
      * apply NoDup_app. split_and!; [done| |done].
        intros x Hx1 Hx2. apply Hin1 in Hx1. apply Hin2 in Hx2. set_solver.
      * intros x. rewrite elem_of_app, Hin1, Hin2.
        destruct (decide (x ∈ V1)); set_solver.
    + intros x Hx HxV. destruct (decide (x ∈ V1)) as [Hx1|Hx1].
      * destruct (Hreach x Hx1 HxV) as (c' & ->%list_elem_of_singleton & Hrtc).
        exists c. split; [set_solver|done].
      * destruct (Hreach2 x Hx Hx1) as (c' & Hc' & Hrtc).
        exists c'. split; [set_solver|done].
    + intros x y Hx HxV Hxy. destruct (decide (x ∈ V1)) as [Hx1|Hx1].
      * apply HV2. by eapply Hclosed.
      * by eapply Hclosed2.
Qed.

Lemma buildDepList_marks (U : gset string) (fuel : nat) :
  (∀ x y, x ∈ U → edge m x y → y ∈ U) →
  ∀ file V L, file ∈ U → size (U ∖ V) < fuel →
    ∃ V' L', buildDepList m fuel file (V, L) = Ok (V', L')
             ∧ marks m [file] V L V' L'.
Proof.
  intros HU. induction fuel as [|fuel IH]; intros file V L Hfile Hsize; [lia|].
  cbn [buildDepList fst snd]. destruct (decide (file ∈ V)) as [Hin|Hnotin].
  - exists V, L. split; [done|]. split_and!; [done|set_solver| |set_solver..].
    exists []. split_and!; [by rewrite app_nil_r|constructor|set_solver].
  - destruct (marks_children U fuel IH (related m file) ({[file]} ∪ V) L)
      as (V' & L' & Hrun & HV & Hroot & (new & -> & Hnd & Hin) & Hreach & Hclosed).
    { intros c Hc. by apply (HU file). }
    { assert (U ∖ ({[file]} ∪ V) ⊂ U ∖ V) as Hsub by set_solver.
      apply subset_size in Hsub. lia. }
    exists V', ((L ++ new) ++ [file]). split.
    { rewrite Hrun. done. }
    split_and!.
    + set_solver.
    + set_solver.
    + exists (new ++ [file]). split_and!.
      * by rewrite app_assoc.
      * apply NoDup_app. split_and!; [done| |apply NoDup_singleton].
        intros x Hx ->%list_elem_of_singleton. apply Hin in Hx. set_solver.
      * intros x. rewrite elem_of_app, Hin, list_elem_of_singleton.
        destruct (decide (x = file)) as [->|]; set_solver.
    + intros x Hx HxV. exists file. split; [set_solver|].
      destruct (decide (x = file)) as [->|Hne]; [done|].
      destruct (Hreach x Hx) as (c & Hc & Hrtc); [set_solver|].
      by eapply rtc_l.
    + intros x y Hx HxV Hxy. destruct (decide (x = file)) as [->|Hne].
      * by apply Hroot.
      * eapply Hclosed; [done|set_solver|done].
Qed.

Lemma occurrences_NoDup (x : string) (l : list string) :
  NoDup l → x ∈ l → occurrences x l = 1.
Proof.
  unfold occurrences. induction 1 as [|y l Hy Hnd IH]; [by intros ?%elem_of_nil|].
  intros [->|Hx]%elem_of_cons.
  - rewrite filter_cons_True by done. simpl. f_equal.
    apply length_zero_iff_nil. clear IH Hnd.
    induction l as [|z l IHl]; [done|].
    rewrite filter_cons_False by set_solver. apply IHl. set_solver.
  - rewrite filter_cons_False by (by intros ->). by apply IH.
Qed.

(** The closure of a file: it is computed within the budget taken, it is
    sorted, it has no file twice, and it holds exactly the files reachable
    from the file, the file among them. *)
Lemma BuildFullDepList_spec (file : string) :
  ∃ l, BuildFullDepList m file = Ok l
       ∧ Sorted slices.string_le l
       ∧ NoDup l
       ∧ ∀ x, x ∈ l ↔ rtc (edge m) file x.
Proof.
  unfold BuildFullDepList.
  destruct (buildDepList_marks (closure_universe m file)
              (S (size (closure_universe m file)))
              (universe_closed file) file ∅ [])
    as (V' & L' & -> & HV & Hroot & (new & -> & Hnd & Hin) & Hreach & Hclosed).
  { unfold closure_universe. set_solver. }
  { assert (closure_universe m file ∖ ∅ = closure_universe m file) as ->
      by set_solver. lia. }
  eexists. split; [done|]. cbn [snd app]. split_and!.
  - apply sort_sorted.
  - by rewrite sort_perm.
  - intros x. rewrite sort_elem_of, Hin. split.
    + intros [Hx HxV]. destruct (Hreach x Hx HxV) as (c & ->%list_elem_of_singleton & ?).
      done.
    + intros Hrtc. split; [|set_solver].
      revert x Hrtc. apply (rtc_ind_r (λ x, x ∈ V') file); [set_solver|].
      intros y z _ Hyz IH.
      eapply Hclosed; [exact IH|set_solver|done].
Qed.

End closure_facts.

(** C6: for every relation map and every file, [BuildFullDepList] returns
    (within the budget it takes) a list that is sorted, has no file twice,
    and holds exactly the files reachable from the file over the map, the
    file itself among them; and if two files each list the other, each
    occurs exactly once in the closure of the other. *)
Theorem BuildFullDepList_closure (m : gmap string (list string)) (file : string) :
  ∃ l, BuildFullDepList m file = Ok l
       ∧ Sorted slices.string_le l
       ∧ NoDup l
       ∧ (∀ x, x ∈ l ↔ rtc (edge m) file x)
       ∧ occurrences file l = 1
       ∧ (∀ other, edge m file other → edge m other file →
            occurrences other l = 1
            ∧ ∃ l', BuildFullDepList m other = Ok l' ∧ occurrences file l' = 1).
Proof.
  destruct (BuildFullDepList_spec m file) as (l & Hl & Hs & Hnd & Hin).
  exists l. split_and!; try done.
  - apply occurrences_NoDup; [done|]. by apply Hin.
  - intros other Hfo Hof. split.
    + apply occurrences_NoDup; [done|]. apply Hin. by apply rtc_once.
    + destruct (BuildFullDepList_spec m other) as (l' & Hl' & _ & Hnd' & Hin').
      exists l'. split; [done|].
      apply occurrences_NoDup; [done|]. apply Hin'. by apply rtc_once.
Qed.

Example BuildFullDepList_two_cycle :
  BuildFullDepList {["a" := ["b"; "c"]; "b" := ["a"]]} "a" = Ok ["a"; "b"; "c"]
  ∧ BuildFullDepList {["a" := ["b"; "c"]; "b" := ["a"]]} "b" = Ok ["a"; "b"; "c"].
Proof. split; vm_compute; reflexivity. Qed.

(** ** The digest *)

Lemma string_app_assoc (a b c : string) : (a +:+ b) +:+ c = a +:+ (b +:+ c).
Proof.
  induction a as [|x a IH]; [done|].
  change (String x ((a +:+ b) +:+ c) = String x (a +:+ (b +:+ c))).
  by rewrite IH.
Qed.

Lemma string_app_empty_r (a : string) : a +:+ EmptyString = a.
Proof.
  induction a as [|x a IH]; [done|].
  change (String x (a +:+ EmptyString) = String x a). by rewrite IH.
Qed.

Lemma hasher_fold (table : string → string) (l : list string) (hasher : string) :
  fold_left
    (λ hasher dep, hasher_Write (hasher_Write hasher dep) (table dep)) l hasher
  = hasher +:+ fold_right String.append EmptyString
                 ((λ dep, dep +:+ table dep) <$> l).
Proof.
  revert hasher. induction l as [|dep l IH]; intros hasher.
  - cbn. by rewrite string_app_empty_r.
  - cbn [fold_left fmap list_fmap fold_right]. rewrite IH.
    unfold hasher_Write. by rewrite !string_app_assoc.
Qed.

Example le_uint64_version :
  le_uint64 ALGORITHM_VERSION
  = string_of_list_ascii (ascii_of_nat 1 :: replicate 7 (ascii_of_nat 0)).
Proof. reflexivity. Qed.

Example hex_bytes :
  hex (string_of_list_ascii [ascii_of_nat 0; ascii_of_nat 171; ascii_of_nat 255])
  = "00abff".
Proof. reflexivity. Qed.

(** [CalculateFileHashes] fills the table with the content digest of each
    file of the set. *)
Lemma CalculateFileHashes_spec (env : Env) (all_files_set : gset string)
    (base_dir : string) (fileHashes : gmap string string) :
  CalculateFileHashes env all_files_set base_dir = Ok fileHashes →
  ∀ file digest,
    fileHashes !! file = Some digest ↔
    file ∈ all_files_set
    ∧ ∃ data, read_file env (filepath.Join [base_dir; file]) = Some data
              ∧ digest = sha256_Sum256 env data.
Proof.
  unfold CalculateFileHashes.
  assert (∀ l (acc fh : gmap string string),
            NoDup l →
            for_each
              (λ (fileHashes : gmap string string) file_name,
                 file_data_bytes ←
                   try (read_file env (filepath.Join [base_dir; file_name]));
                 Ok (<[file_name := sha256_Sum256 env file_data_bytes]> fileHashes))
              l acc = Ok fh →
            ∀ file digest,
              fh !! file = Some digest ↔
              (file ∉ l ∧ acc !! file = Some digest)
              ∨ (file ∈ l
                 ∧ ∃ data, read_file env (filepath.Join [base_dir; file]) = Some data
                           ∧ digest = sha256_Sum256 env data)) as Hloop.
  { induction l as [|f l IH]; intros acc fh Hnd; simpl.
    - intros [= <-] file digest. set_solver.
    - apply NoDup_cons in Hnd as [Hf Hnd].
      destruct (read_file env (filepath.Join [base_dir; f])) as [data|] eqn:Hd;
        [|done].
      cbn [try mbind result_bind]. intros Hrun file digest.
      rewrite (IH _ _ Hnd Hrun file digest).
      destruct (decide (file = f)) as [->|Hne].
      + rewrite lookup_insert_eq. split.
        * intros [[_ [= <-]]|[Hin _]]; [|done]. right. set_solver.
        * intros [[Hn _]|[_ (data' & Hd' & ->)]]; [set_solver|].
          left. split; [done|]. congruence.
      + rewrite lookup_insert_ne by done. set_solver. }
  intros Hrun file digest.
  rewrite (Hloop _ _ _ (NoDup_elements _) Hrun file digest).
  rewrite elem_of_elements, lookup_empty. naive_solver.
Qed.

Lemma hash_task_spec (env : Env) (args : Args) (config_hash : string)
    (relations : gmap string (list string)) (fileHashes : gmap string string)
    (file : string) (s s' : option (list string) * gmap string string) :
  String.eqb (OutDepHashes args) EmptyString = false →
  hash_task env args config_hash relations fileHashes s file = Ok s' →
  ∃ closure,
    BuildFullDepList relations file = Ok closure
    ∧ s'.2 = <[file := dep_hash env args config_hash fileHashes closure file]> s.2.
Proof.
  intros Hout. unfold hash_task. rewrite Hout.
  destruct (BuildFullDepList relations file) as [closure| |]; [|done..].
  intros [= <-]. eauto.
Qed.

Lemma hash_tasks_spec (env : Env) (args : Args) (config_hash : string)
    (relations : gmap string (list string)) (fileHashes : gmap string string)
    (files : list string) (s s' : option (list string) * gmap string string) :
  String.eqb (OutDepHashes args) EmptyString = false →
  for_each (hash_task env args config_hash relations fileHashes) files s = Ok s' →
  ∀ file digest,
    s'.2 !! file = Some digest →
    s.2 !! file = Some digest
    ∨ (file ∈ files
       ∧ ∃ closure, BuildFullDepList relations file = Ok closure
                    ∧ digest = dep_hash env args config_hash fileHashes closure file).
Proof.
  intros Hout. revert s. induction files as [|f files IH]; intros s.
  - intros [= <-]. auto.
  - cbn [for_each].
    destruct (hash_task env args config_hash relations fileHashes s f)
      as [s1| |] eqn:Ht; [|done..].
    cbn [mbind result_bind]. intros Hrun file digest Hd.
    apply hash_task_spec in Ht as (closure & Hc & Hs1); [|done].
    destruct (IH _ Hrun file digest Hd) as [Hs|[Hin Hex]].
    + rewrite Hs1 in Hs. destruct (decide (file = f)) as [->|Hne].
      * rewrite lookup_insert_eq in Hs. injection Hs as <-.
        right. split; [set_solver|eauto].
      * rewrite lookup_insert_ne in Hs by done. auto.
    + right. split; [set_solver|done].
Qed.


(** ** The driver with no input file *)

(** C2 (counterexample): in a tree the input pattern matches nothing in,
    [main] logs that no input files were found and exits with status 1,
    the status of a fatal failure, not with status 0. *)
Lemma main_no_input_files_exits_1 :
  (r ← main scenario.empty_env 10
         (Some (scenario.args "repo_dagger.yaml" EmptyString EmptyString));
   Ok (exit_status r, last_log r))
  = Ok (1%Z, "No input files found. Exiting.").
Proof. vm_compute. reflexivity. Qed.

(** C2 (amended): when the configuration loads and every input pattern,
    configured or given by [-input-files], matches no file, [main] stops
    before any graph construction: it logs that no input files were found
    through [log.Fatalln], so the process exits with status 1 and writes
    no output. *)
Theorem main_no_input_files (env : Env) (fuel : nat) (args : Args)
    (config : Config) (config_hash : string) :
  LoadConfig env (ConfigPath args) = Some (config, config_hash) →
  Forall
    (λ input,
       glob_any env
         (filepath.Join [filepath.Dir (ConfigPath args); BaseDir config]) input
       = Some [])
    (effective_inputs args config) →
  main env fuel (Some args)
  = Ok {| exit_status := 1; last_log := "No input files found. Exiting.";
          relations_json := None; recursive_deps_json := None;
          dep_hashes_json := None |}.
Proof.
  intros Hload Hglobs. unfold main. rewrite Hload.
  assert (for_each
            (λ input_files input,
               input_files_chunk ←
                 try (glob_any env
                        (filepath.Join [filepath.Dir (ConfigPath args);
                                        BaseDir config]) input);
               Ok (input_files ++ input_files_chunk))
            (effective_inputs args config) [] = Ok []) as ->.
  { induction Hglobs as [|input inputs Hg _ IH]; [done|].
    cbn [for_each]. rewrite Hg. exact IH. }
  reflexivity.
Qed.

Lemma main_no_input_files_witness :
  main scenario.empty_env 10
    (Some (scenario.args "repo_dagger.yaml" "relations.json" "hashes.json"))
  = Ok {| exit_status := 1; last_log := "No input files found. Exiting.";
          relations_json := None; recursive_deps_json := None;
          dep_hashes_json := None |}.
Proof.
  apply (main_no_input_files scenario.empty_env 10
           (scenario.args "repo_dagger.yaml" "relations.json" "hashes.json")
           scenario.empty_config zero_hash).
  - reflexivity.
  - repeat constructor.
Defined.

(** The earlier revision returned from [main] in that case: status 0. *)
Lemma main_repo_dagger_no_input_files (env : Env) (config_path config_data : string)
    (config : Config) (rest : Config → string → list string → run) :
  read_file env config_path = Some config_data →
  yaml_Decode env config_data = Some config →
  Forall
    (λ input,
       glob_any env (filepath.Join [filepath.Dir config_path; BaseDir config]) input
       = Some [])
    (Inputs config) →
  main_repo_dagger env (Some config_path) rest
  = {| exit_status := 0; last_log := "No input files found. Exiting.";
       relations_json := None; recursive_deps_json := None;
       dep_hashes_json := None |}.
Proof.
  intros Hread Hdecode Hglobs. unfold main_repo_dagger.
  rewrite Hread. cbn [mbind option_bind]. rewrite Hdecode.
  assert (for_each
            (λ input_files input,
               input_files_chunk ←
                 try (glob_any env
                        (filepath.Join [filepath.Dir config_path; BaseDir config])
                        input);
               Ok (input_files ++ input_files_chunk))
            (Inputs config) [] = Ok []) as ->.
  { induction Hglobs as [|input inputs Hg _ IH]; [done|].
    cbn [for_each]. rewrite Hg. exact IH. }
  reflexivity.
Qed.

(** ** The end-to-end scenario *)

(** The walk over the ancestor directories stops as soon as it stands at
    the base directory: nothing is globbed there. *)
Lemma visit_grand_siblings_at_base (env : Env) (base_dir : string) (fuel : nat)
    (templates : list string) (st : visitor) :
  visit_grand_siblings env base_dir fuel templates "." st = Ok st.
Proof. by destruct fuel. Qed.

(** C1 (the code at the failing input): in the scenario, with the pytest
    rule and the generic python rule, the relations stored for
    [tests/test_foo.py] are [pkg/__init__.py], [pkg/db.py] and
    [poetry.lock]; [conftest.py], which lies in the base directory, is not
    among them.  With the pytest rule alone the list is [poetry.lock]. *)
Theorem end_to_end_relations :
  (r ← main scenario.env 10
         (Some (scenario.args "repo_dagger.yaml" "relations.json" EmptyString));
   Ok (exit_status r, relations_json r ≫= (.!! "tests/test_foo.py")))
  = Ok (0%Z, Some ["pkg/__init__.py"; "pkg/db.py"; "poetry.lock"])
  ∧ (g ← VisitRecursively scenario.env scenario.config_pytest_only "." 10
           ["tests/test_foo.py"];
     Ok (relations_of g !! "tests/test_foo.py"))
    = Ok (Some ["poetry.lock"])
  ∧ filepath.Dir "tests/test_foo.py" = "tests"
  ∧ filepath.Dir "tests" = ".".
Proof. split_and!; vm_compute; reflexivity. Qed.

(** ** Excluded files and the global dependencies *)

(** C10 (the code at the failing input): with the global dependency [a]
    listed twice and two excluded inputs, the entry of [x.pyc] ends as the
    list of the empty path alone, and the entry of [y.pyc] holds the empty
    path beside [a]: the slice of the configuration is sorted and compacted
    in place, and the entries share its array. *)
Theorem excluded_file_relations_with_repeated_global_dep :
  (r ← main scenario.excluded_env 10
         (Some (scenario.args "repo_dagger.yaml" "relations.json" EmptyString));
   Ok (exit_status r,
       relations_json r ≫= (.!! "x.pyc"),
       relations_json r ≫= (.!! "y.pyc")))
  = Ok (0%Z, Some [EmptyString], Some [EmptyString; "a"]).
Proof. vm_compute. reflexivity. Qed.

(** ** Slices and the shared array *)

Lemma go_append_full (gd : list string) (s : slice) (xs : list string) :
  full_slice gd s →
  go_append gd s xs =
  (gd, match s with
       | Own l => Own (l ++ xs)
       | Shared n => match xs with [] => Shared n | _ => Own (gd ++ xs) end
       end).
Proof.
  destruct s as [n|l]; [|done]. simpl. intros ->.
  destruct xs as [|x xs]; simpl.
  - rewrite decide_True by lia. rewrite Nat.add_0_r, firstn_all, skipn_all.
    by rewrite app_nil_r.
  - rewrite decide_False by lia. by rewrite firstn_all.
Qed.

Lemma appended_nil (v : visitor) :
  full_slice (v_gd v) (v_rel v) → appended v [] v.
Proof.
  intros Hf. split; [done|]. rewrite go_append_full by done.
  destruct (v_rel v); simpl; [done|]. by rewrite app_nil_r.
Qed.

Lemma appended_full (v v' : visitor) (e : list string) :
  full_slice (v_gd v) (v_rel v) → appended v e v' →
  full_slice (v_gd v') (v_rel v').
Proof.
  intros Hf [Hgd Hrel]. rewrite Hgd, Hrel, go_append_full by done.
  destruct (v_rel v), e; done.
Qed.

Lemma appended_trans (v v' v'' : visitor) (e e' : list string) :
  full_slice (v_gd v) (v_rel v) →
  appended v e v' → appended v' e' v'' → appended v (e ++ e') v''.
Proof.
  intros Hf He He'. pose proof (appended_full _ _ _ Hf He) as Hf'.
  destruct He as [Hgd Hrel], He' as [Hgd' Hrel'].
  split; [congruence|].
  rewrite Hrel'. rewrite (go_append_full (v_gd v') (v_rel v') e') by done.
  rewrite Hrel, Hgd. rewrite !(go_append_full (v_gd v)) by done.
  cbn [snd]. destruct (v_rel v) as [n|l].
  - destruct e as [|x e]; [done|]. cbn [app]. by rewrite <- app_assoc.
  - by rewrite <- app_assoc.
Qed.

Lemma appended_items (v v' : visitor) (e : list string) :
  full_slice (v_gd v) (v_rel v) → appended v e v' →
  slice_items (v_gd v') (v_rel v') = slice_items (v_gd v) (v_rel v) ++ e.
Proof.
  intros Hf [Hgd Hrel]. rewrite Hgd, Hrel, go_append_full by done.
  destruct (v_rel v) as [n|l]; simpl; [|done].
  simpl in Hf. subst n. rewrite firstn_all.
  destruct e; simpl; [by rewrite firstn_all, app_nil_r|done].
Qed.

Lemma appended_inj (v v' : visitor) (e e' : list string) :
  full_slice (v_gd v) (v_rel v) →
  appended v e v' → appended v e' v' → e = e'.
Proof.
  intros Hf He He'.
  pose proof (appended_items _ _ _ Hf He) as H1.
  pose proof (appended_items _ _ _ Hf He') as H2.
  rewrite H1 in H2. by apply app_inv_head in H2.
Qed.

Lemma appended_record (v : visitor) (xs : list string) :
  full_slice (v_gd v) (v_rel v) → appended v xs (record_relations v xs).
Proof.
  intros Hf. unfold appended, record_relations. simpl.
  by rewrite go_append_full.
Qed.

Lemma record_relations_caches (v : visitor) (xs : list string) :
  v_cache (record_relations v xs) = v_cache v
  ∧ v_regex (record_relations v xs) = v_regex v.
Proof. done. Qed.

(** Recording matches one by one appends them all. *)
Lemma appended_fold_record (v : visitor) (xs : list string) :
  full_slice (v_gd v) (v_rel v) →
  appended v xs (fold_left (λ st x, record_relations st [x]) xs v)
  ∧ v_cache (fold_left (λ st x, record_relations st [x]) xs v) = v_cache v
  ∧ v_regex (fold_left (λ st x, record_relations st [x]) xs v) = v_regex v.
Proof.
  revert v. induction xs as [|x xs IH]; intros v Hf.
  - split; [by apply appended_nil|done].
  - cbn [fold_left].
    pose proof (appended_record v [x] Hf) as H1.
    destruct (IH (record_relations v [x]) (appended_full _ _ _ Hf H1))
      as (H2 & Hc & Hr).
    split; [|by rewrite Hc, Hr].
    change (x :: xs) with ([x] ++ xs). by eapply appended_trans.
Qed.

(** ** Two runs that agree *)

Section agreement.
Context {S : Type} (π : S → visitor).

Lemma agree_Ok_l (ok1 ok2 : S → Prop) (v1 v2 : visitor) (s1 : S) (r2 : result S) :
  agree ok1 ok2 π v1 v2 (Ok s1) r2 →
  ∃ s2, r2 = Ok s2 ∧ ok1 s1 ∧ ok2 s2
        ∧ ∃ e1 e2, e1 ≡ₚ e2 ∧ appended v1 e1 (π s1) ∧ appended v2 e2 (π s2).
Proof. destruct r2; [|done..]. intros (? & ? & ?). eauto. Qed.

Lemma agree_Ok_r (ok1 ok2 : S → Prop) (v1 v2 : visitor) (r1 : result S) (s2 : S) :
  agree ok1 ok2 π v1 v2 r1 (Ok s2) →
  ∃ s1, r1 = Ok s1 ∧ ok1 s1 ∧ ok2 s2
        ∧ ∃ e1 e2, e1 ≡ₚ e2 ∧ appended v1 e1 (π s1) ∧ appended v2 e2 (π s2).
Proof. destruct r1; [|done..]. intros (? & ? & ?). eauto. Qed.

Lemma agree_fails (ok1 ok2 : S → Prop) (v1 v2 : visitor) (r1 r2 : result S) :
  ¬ returned r1 → ¬ returned r2 → agree ok1 ok2 π v1 v2 r1 r2.
Proof. destruct r1, r2; simpl; tauto. Qed.

Lemma agree_returned (ok1 ok2 : S → Prop) (v1 v2 : visitor) (r1 r2 : result S) :
  agree ok1 ok2 π v1 v2 r1 r2 → returned r1 ↔ returned r2.
Proof. destruct r1, r2; simpl; tauto. Qed.

Lemma agree_trans (okA okB okC : S → Prop) (vA vB vC : visitor)
    (rA rB rC : result S) :
  full_slice (v_gd vB) (v_rel vB) →
  agree okA okB π vA vB rA rB → agree okB okC π vB vC rB rC →
  agree okA okC π vA vC rA rC.
Proof.
  intros Hf HAB HBC.
  destruct rA as [sA| |], rB as [sB| |], rC as [sC| |]; simpl in *; try done.
  destruct HAB as (HA & _ & eA & eB & Hp & HeA & HeB).
  destruct HBC as (_ & HC & eB' & eC & Hp' & HeB' & HeC).
  split_and!; [done..|].
  assert (eB = eB') as <- by (by eapply appended_inj).
  exists eA, eC. split_and!; [by etrans|done..].
Qed.

Lemma agree_bind {T : Type} (πT : T → visitor) (ok1 ok2 : S → Prop)
    (okT1 okT2 : T → Prop) (v1 v2 : visitor) (r1 r2 : result S)
    (k1 k2 : S → result T) :
  full_slice (v_gd v1) (v_rel v1) → full_slice (v_gd v2) (v_rel v2) →
  agree ok1 ok2 π v1 v2 r1 r2 →
  (∀ s1 s2, ok1 s1 → ok2 s2 →
     agree okT1 okT2 πT (π s1) (π s2) (k1 s1) (k2 s2)) →
  agree okT1 okT2 πT v1 v2 (r1 ≫= k1) (r2 ≫= k2).
Proof.
  intros Hf1 Hf2 Hr Hk.
  destruct r1 as [s1| |], r2 as [s2| |]; simpl in *; try done.
  destruct Hr as (H1 & H2 & e1 & e2 & Hp & He1 & He2).
  specialize (Hk s1 s2 H1 H2).
  destruct (k1 s1) as [t1| |], (k2 s2) as [t2| |]; simpl in *; try done.
  destruct Hk as (Ht1 & Ht2 & e1' & e2' & Hp' & He1' & He2').
  split_and!; [done..|].
  exists (e1 ++ e1'), (e2 ++ e2'). split_and!.
  - by apply Permutation_app.
  - by eapply appended_trans.
  - by eapply appended_trans.
Qed.

Context {A : Type}.

(** A loop over the same elements, with bodies that agree. *)
Lemma agree_for_each (ok1 ok2 : S → Prop) (b1 b2 : S → A → result S)
    (l : list A) :
  (∀ s, ok1 s → full_slice (v_gd (π s)) (v_rel (π s))) →
  (∀ s, ok2 s → full_slice (v_gd (π s)) (v_rel (π s))) →
  (∀ x s1 s2, x ∈ l → ok1 s1 → ok2 s2 →
     agree ok1 ok2 π (π s1) (π s2) (b1 s1 x) (b2 s2 x)) →
  ∀ s1 s2, ok1 s1 → ok2 s2 →
    agree ok1 ok2 π (π s1) (π s2) (for_each b1 l s1) (for_each b2 l s2).
Proof.
  intros Hf1 Hf2. induction l as [|x l IH]; intros Hb s1 s2 H1 H2.
  - simpl. split_and!; [done..|]. exists [], [].
    split_and!; [done|by apply appended_nil; auto..].
  - cbn [for_each]. eapply agree_bind; [by auto..| |].
    + apply Hb; [set_solver|done..].
    + intros s1' s2' H1' H2'. apply IH; [|done..].
      intros. apply Hb; [set_solver|done..].
Qed.

(** A loop whose body agrees with itself can take its elements in any
    order. *)
Lemma agree_for_each_perm (ok : S → Prop) (b : S → A → result S)
    (l l' : list A) :
  (∀ s, ok s → full_slice (v_gd (π s)) (v_rel (π s))) →
  (∀ x s1 s2, ok s1 → ok s2 →
     agree ok ok π (π s1) (π s2) (b s1 x) (b s2 x)) →
  l ≡ₚ l' →
  ∀ s1 s2, ok s1 → ok s2 →
    agree ok ok π (π s1) (π s2) (for_each b l s1) (for_each b l' s2).
Proof.
  intros Hf Hb Hperm.
  induction Hperm as [|x l l' _ IH|x y l|l l' l'' _ IH1 _ IH2]; intros s1 s2 H1 H2.
  - simpl. split_and!; [done..|]. exists [], [].
    split_and!; [done|by apply appended_nil; auto..].
  - cbn [for_each]. eapply agree_bind; [by auto..|by apply Hb|].
    intros. by apply IH.
  - cbn [for_each].
    destruct (b s1 y) as [a| |] eqn:E1.
    + pose proof (Hb y s1 s1 H1 H1) as Ha. rewrite E1 in Ha.
      destruct Ha as (Hoka & _ & _). cbn [mbind result_bind].
      destruct (b a x) as [a2| |] eqn:E2.
      * pose proof (Hb x a s2 Hoka H2) as Hx. rewrite E2 in Hx.
        apply agree_Ok_l in Hx
          as (c & Ec & Hoka2 & Hokc & ex & ex' & Hpx & Hex & Hex').
        rewrite Ec. cbn [mbind result_bind].
        pose proof (Hb y s1 c H1 Hokc) as Hy. rewrite E1 in Hy.
        apply agree_Ok_l in Hy
          as (c2 & Ec2 & _ & Hokc2 & ey & ey' & Hpy & Hey & Hey').
        rewrite Ec2. cbn [mbind result_bind].
        pose proof (agree_for_each ok ok b b l Hf Hf
                      (λ z t1 t2 _, Hb z t1 t2) a2 c2 Hoka2 Hokc2) as Hl.
        destruct (for_each b l a2) as [a3| |], (for_each b l c2) as [c3| |];
          simpl in Hl |- *; try done.
        destruct Hl as (Hoka3 & Hokc3 & el & el' & Hpl & Hel & Hel').
        split_and!; [done..|].
        exists (ey ++ ex ++ el), (ex' ++ ey' ++ el'). split_and!.
        -- rewrite Hpx, Hpy, Hpl. rewrite !app_assoc.
           apply Permutation_app; [apply Permutation_app_comm|done].
        -- eapply appended_trans; [by auto|done|].
           eapply appended_trans; [by auto|done..].
        -- eapply appended_trans; [by auto|done|].
           eapply appended_trans; [by auto|done..].
      * apply agree_fails; [by destruct 1|].
        pose proof (Hb x a s2 Hoka H2) as Hx. rewrite E2 in Hx.
        destruct (b s2 x); [done|by destruct 1..].
      * apply agree_fails; [by destruct 1|].
        pose proof (Hb x a s2 Hoka H2) as Hx. rewrite E2 in Hx.
        destruct (b s2 x); [done|by destruct 1..].
    + apply agree_fails; [by destruct 1|].
      destruct (b s2 x) as [c| |] eqn:Ec; [|by destruct 1..].
      pose proof (Hb x s2 s2 H2 H2) as Hc. rewrite Ec in Hc.
      destruct Hc as (Hokc & _ & _).
      pose proof (Hb y s1 c H1 Hokc) as Hy. rewrite E1 in Hy.
      cbn [mbind result_bind]. destruct (b c y); [done|by destruct 1..].
    + apply agree_fails; [by destruct 1|].
      destruct (b s2 x) as [c| |] eqn:Ec; [|by destruct 1..].
      pose proof (Hb x s2 s2 H2 H2) as Hc. rewrite Ec in Hc.
      destruct Hc as (Hokc & _ & _).
      pose proof (Hb y s1 c H1 Hokc) as Hy. rewrite E1 in Hy.
      cbn [mbind result_bind]. destruct (b c y); [done|by destruct 1..].
  - eapply agree_trans; [|by apply IH1, H1|by apply IH2]. by auto.
Qed.

End agreement.

(** ** The caches do not change what is found *)

Lemma Resolve_rec_same_stat (env1 env2 : Env) (config : Config)
    (base_dir : string) (fuel : nat) (module : string) (cache : resolver_cache) :
  stat env1 = stat env2 →
  Resolve_rec env1 config base_dir fuel module cache
  = Resolve_rec env2 config base_dir fuel module cache.
Proof.
  intros Hstat. revert module cache.
  assert (∀ module, probe env1 base_dir module = probe env2 base_dir module)
    as Hprobe.
  { intros module. unfold probe, exists_path, is_dir. by rewrite Hstat. }
  induction fuel as [|fuel IH]; intros module cache; simpl; rewrite Hprobe.
  - done.
  - destruct (cache !! module); [done|].
    destruct (negb (allowed config module)); [done|].
    destruct (strings.HasPrefix module "."); [done|].
    destruct (probe env2 base_dir module) as [paths [|]]; [|done].
    destruct (parent_module module); [|done]. by rewrite IH.
Qed.

Lemma Resolve_same_stat (env1 env2 : Env) (config : Config)
    (base_dir : string) (module : string) (cache : resolver_cache) :
  stat env1 = stat env2 →
  Resolve env1 config base_dir module cache
  = Resolve env2 config base_dir module cache.
Proof. apply Resolve_rec_same_stat. Qed.

Section cache_facts.
Context (env : Env) (config : Config) (base_dir : string).

Lemma cache_ok_empty : cache_ok env config base_dir ∅.
Proof. intros m p. by rewrite lookup_empty. Qed.

Lemma cache_ok_insert (cache cache0 : resolver_cache) (module : string)
    (paths : list string) :
  cache_ok env config base_dir cache →
  Resolve env config base_dir module ∅ = Ok (paths, cache0) →
  cache_ok env config base_dir (<[module := paths]> cache).
Proof.
  intros Hc Hr m p. destruct (decide (m = module)) as [->|Hne].
  - rewrite lookup_insert_eq. intros [= <-]. eauto.
  - rewrite lookup_insert_ne by done. apply Hc.
Qed.

(** With a cache of true results, [Resolve] returns what it returns from
    an empty cache, and leaves a cache of true results. *)
Lemma Resolve_cache_ok (module : string) (cache : resolver_cache) :
  cache_ok env config base_dir cache →
  match Resolve env config base_dir module cache with
  | Ok (paths, cache') =>
      cache_ok env config base_dir cache'
      ∧ ∃ cache0, Resolve env config base_dir module ∅ = Ok (paths, cache0)
  | Fatal => Resolve env config base_dir module ∅ = Fatal
  | OutOfFuel => False
  end.
Proof.
  remember (String.length module) as n eqn:Hn.
  revert module cache Hn.
  induction (lt_wf n) as [n _ IH]; intros module cache -> Hc.
  rewrite (Resolve_unfold env config base_dir module cache).
  destruct (cache !! module) as [cached|] eqn:Hcm.
  { split; [done|]. by apply Hc. }
  destruct (negb (allowed config module)) eqn:Ha.
  { assert (Resolve env config base_dir module ∅ = Ok ([], <[module := []]> ∅))
      as H0 by (by rewrite Resolve_unfold, lookup_empty, Ha).
    split; [by eapply cache_ok_insert|by eauto]. }
  destruct (strings.HasPrefix module ".") eqn:Hhp.
  { by rewrite Resolve_unfold, lookup_empty, Ha, Hhp. }
  destruct (probe env base_dir module) as [paths vp] eqn:Hprobe.
  destruct (if vp then parent_module module else None) as [parent|] eqn:Hp.
  - assert (parent_module module = Some parent) as Hpar by (by destruct vp).
    apply parent_module_shorter in Hpar.
    pose proof (IH _ Hpar parent cache eq_refl Hc) as Hrec.
    destruct (Resolve env config base_dir parent cache) as [[sub c]| |].
    + destruct Hrec as (Hc' & c0 & Hr0). cbn.
      assert (Resolve env config base_dir module ∅
              = Ok (paths ++ sub, <[module := paths ++ sub]> c0)) as H0.
      { by rewrite Resolve_unfold, lookup_empty, Ha, Hhp, Hprobe, Hp, Hr0. }
      split; [by eapply cache_ok_insert|by eauto].
    + cbn. by rewrite Resolve_unfold, lookup_empty, Ha, Hhp, Hprobe, Hp, Hrec.
    + done.
  - assert (Resolve env config base_dir module ∅
            = Ok (paths, <[module := paths]> ∅)) as H0.
    { by rewrite Resolve_unfold, lookup_empty, Ha, Hhp, Hprobe, Hp. }
    split; [by eapply cache_ok_insert|by eauto].
Qed.

End cache_facts.

Lemma same_tree_refl (env : Env) : same_tree env env.
Proof.
  split_and!; try done; intros dir pattern; unfold same_listing;
    by destruct (_ env dir pattern).
Qed.

Section engine_agreement.
Context (env1 env2 : Env) (config : Config) (base_dir : string).
Context (Htree : same_tree env1 env2).

Notation ok := (visitor_ok env1 config base_dir).

Lemma ok_full (v : visitor) : ok v → full_slice (v_gd v) (v_rel v).
Proof. by intros (? & _). Qed.

Lemma ok_appended (v v' : visitor) (e : list string) :
  ok v → appended v e v' →
  v_cache v' = v_cache v → v_regex v' = v_regex v → ok v'.
Proof.
  intros (Hf & Hc & Hr) He Hc' Hr'. split_and!.
  - by eapply appended_full.
  - by rewrite Hc'.
  - by rewrite Hr'.
Qed.

Lemma agree_record (v1 v2 : visitor) (xs1 xs2 : list string) :
  ok v1 → ok v2 → xs1 ≡ₚ xs2 →
  agree ok ok id v1 v2 (Ok (record_relations v1 xs1)) (Ok (record_relations v2 xs2)).
Proof.
  intros H1 H2 Hp.
  pose proof (appended_record v1 xs1 (ok_full _ H1)) as He1.
  pose proof (appended_record v2 xs2 (ok_full _ H2)) as He2.
  split_and!.
  - by apply (ok_appended v1 _ xs1).
  - by apply (ok_appended v2 _ xs2).
  - by exists xs1, xs2.
Qed.

Lemma agree_glob (dir pattern : string) (k1 k2 : list string → result visitor)
    (v1 v2 : visitor) :
  (∀ l1 l2, l1 ≡ₚ l2 → agree ok ok id v1 v2 (k1 l1) (k2 l2)) →
  agree ok ok id v1 v2
    (try (glob_files env1 dir pattern) ≫= k1)
    (try (glob_files env2 dir pattern) ≫= k2).
Proof.
  intros Hk. destruct Htree as (Hglob & _). specialize (Hglob dir pattern).
  destruct (glob_files env1 dir pattern), (glob_files env2 dir pattern);
    simpl in *; try done.
  by apply Hk.
Qed.

Lemma agree_visit_files (v1 v2 : visitor) (visit : string) :
  ok v1 → ok v2 →
  agree ok ok id v1 v2
    (visit_files_chunk ← try (glob_files env1 base_dir visit);
     Ok (record_relations v1 visit_files_chunk))
    (visit_files_chunk ← try (glob_files env2 base_dir visit);
     Ok (record_relations v2 visit_files_chunk)).
Proof. intros H1 H2. apply agree_glob. intros. by apply agree_record. Qed.

Lemma agree_visit_glob (dir : string) (anchor : string → string)
    (v1 v2 : visitor) (pattern : string) :
  ok v1 → ok v2 →
  agree ok ok id v1 v2
    (visit_glob env1 dir anchor v1 pattern) (visit_glob env2 dir anchor v2 pattern).
Proof.
  intros H1 H2. unfold visit_glob. apply agree_glob. intros l1 l2 Hp.
  assert (∀ v l, fold_left (λ st visit_file, record_relations st [anchor visit_file]) l v
                 = fold_left (λ st x, record_relations st [x]) (anchor <$> l) v)
    as Hfold.
  { intros v l. revert v. induction l as [|x l IH]; intros v; [done|].
    cbn [fold_left fmap list_fmap]. apply IH. }
  rewrite !Hfold.
  destruct (appended_fold_record v1 (anchor <$> l1) (ok_full _ H1)) as (He1 & Hc1 & Hr1).
  destruct (appended_fold_record v2 (anchor <$> l2) (ok_full _ H2)) as (He2 & Hc2 & Hr2).
  split_and!.
  - by apply (ok_appended v1 _ (anchor <$> l1)).
  - by apply (ok_appended v2 _ (anchor <$> l2)).
  - exists (anchor <$> l1), (anchor <$> l2). split_and!; [|done..].
    by apply fmap_Permutation.
Qed.

Lemma agree_visit_grand_siblings (fuel : nat) (templates : list string)
    (path_iter : string) (v1 v2 : visitor) :
  ok v1 → ok v2 →
  agree ok ok id v1 v2
    (visit_grand_siblings env1 base_dir fuel templates path_iter v1)
    (visit_grand_siblings env2 base_dir fuel templates path_iter v2).
Proof.
  revert path_iter v1 v2.
  induction fuel as [|fuel IH]; intros path_iter v1 v2 H1 H2; simpl.
  - destruct (String.eqb path_iter "."); [|done].
    split_and!; [done..|]. exists [], [].
    split_and!; [done|by apply appended_nil, ok_full..].
  - destruct (String.eqb path_iter ".").
    { split_and!; [done..|]. exists [], [].
      split_and!; [done|by apply appended_nil, ok_full..]. }
    eapply (agree_bind id id); [by apply ok_full..| |].
    + apply (agree_for_each id); [apply ok_full|apply ok_full| |done|done].
      intros. by apply agree_visit_glob.
    + intros. by apply IH.
Qed.

Lemma need_file_data_same (file : string) (fd1 fd2 : option string) :
  file_data_ok env1 base_dir file fd1 → file_data_ok env1 base_dir file fd2 →
  need_file_data env1 base_dir file fd1 = need_file_data env2 base_dir file fd2.
Proof.
  destruct Htree as (_ & _ & _ & _ & Hread & _).
  intros H1 H2. unfold need_file_data. rewrite <- Hread.
  destruct fd1 as [d1|], fd2 as [d2|]; simpl.
  - pose proof (H1 _ eq_refl). pose proof (H2 _ eq_refl). congruence.
  - by rewrite (H1 _ eq_refl).
  - by rewrite (H2 _ eq_refl).
  - done.
Qed.

Lemma need_file_data_ok (file : string) (fd : option string) (data : string) :
  file_data_ok env1 base_dir file fd →
  need_file_data env1 base_dir file fd = Ok data →
  file_data_ok env1 base_dir file (Some data).
Proof.
  unfold need_file_data, file_data_ok. intros Hfd Hn d [= <-].
  destruct fd as [d'|]; simpl in Hn.
  - injection Hn as <-. by apply Hfd.
  - by destruct (read_file env1 _); simplify_eq/=.
Qed.

Lemma parse_imports_same (data : string) :
  parse_imports env1 data = parse_imports env2 data.
Proof.
  destruct Htree as (_ & _ & _ & _ & _ & Hre & _).
  unfold parse_imports. by rewrite Hre.
Qed.

Lemma checkExcludePatterns_same (patterns : list string) (file : string) :
  checkExcludePatterns env1 patterns file = checkExcludePatterns env2 patterns file.
Proof.
  destruct Htree as (_ & _ & Hm & _).
  induction patterns as [|p patterns IH]; simpl; [done|].
  rewrite Hm. destruct (glob_match env2 p file) as [[|]|]; simpl; done.
Qed.

Lemma agree_visit_all_submodules (idents : gmap string string)
    (v1 v2 : visitor) (mod_name : string) :
  ok v1 → ok v2 →
  agree ok ok id v1 v2
    (visit_all_submodules env1 config base_dir idents v1 mod_name)
    (visit_all_submodules env2 config base_dir idents v2 mod_name).
Proof.
  intros H1 H2. unfold visit_all_submodules.
  destruct (if found_in_root_pkg config mod_name then Ok mod_name
            else try (idents !! mod_name)) as [full_mod_name| |]; [|done..].
  cbn [mbind result_bind]. apply agree_glob. intros. by apply agree_record.
Qed.

Lemma agree_resolve_import (v1 v2 : visitor) (module : string) :
  ok v1 → ok v2 →
  agree ok ok id v1 v2
    (resolve_import env1 config base_dir v1 module)
    (resolve_import env2 config base_dir v2 module).
Proof.
  intros H1 H2. unfold resolve_import.
  destruct Htree as (_ & _ & _ & Hstat & _).
  rewrite <- (Resolve_same_stat env1 env2) by done.
  destruct H1 as (Hf1 & Hc1 & Hr1), H2 as (Hf2 & Hc2 & Hr2).
  pose proof (Resolve_cache_ok env1 config base_dir module _ Hc1) as HR1.
  pose proof (Resolve_cache_ok env1 config base_dir module _ Hc2) as HR2.
  destruct (Resolve env1 config base_dir module (v_cache v1)) as [[p1 c1]| |],
           (Resolve env1 config base_dir module (v_cache v2)) as [[p2 c2]| |];
    try done; cbn [mbind result_bind fst snd].
  - destruct HR1 as (Hc1' & c01 & E1), HR2 as (Hc2' & c02 & E2).
    assert (p1 = p2) as <- by congruence.
    split_and!.
    + split_and!; [|done..]. eapply appended_full; [exact Hf1|].
      by apply (appended_record
                  {| v_gd := v_gd v1; v_rel := v_rel v1; v_cache := c1;
                     v_regex := v_regex v1 |}).
    + split_and!; [|done..]. eapply appended_full; [exact Hf2|].
      by apply (appended_record
                  {| v_gd := v_gd v2; v_rel := v_rel v2; v_cache := c2;
                     v_regex := v_regex v2 |}).
    + exists p1, p1. split_and!; [done|..].
      * by apply (appended_record
                    {| v_gd := v_gd v1; v_rel := v_rel v1; v_cache := c1;
                       v_regex := v_regex v1 |}).
      * by apply (appended_record
                    {| v_gd := v_gd v2; v_rel := v_rel v2; v_cache := c2;
                       v_regex := v_regex v2 |}).
  - destruct HR1 as (_ & c01 & E1). congruence.
  - destruct HR2 as (_ & c02 & E2). congruence.
Qed.

End engine_agreement.

Lemma agree_start {S : Type} (ok1 ok2 : S → Prop) (π : S → visitor)
    (v1 v2 v1' v2' : visitor) (r1 r2 : result S) :
  v_gd v1' = v_gd v1 → v_rel v1' = v_rel v1 →
  v_gd v2' = v_gd v2 → v_rel v2' = v_rel v2 →
  agree ok1 ok2 π v1' v2' r1 r2 → agree ok1 ok2 π v1 v2 r1 r2.
Proof.
  intros Hg1 Hr1 Hg2 Hr2. destruct r1, r2; simpl; try done.
  intros (? & ? & e1 & e2 & ? & He1 & He2). split_and!; [done..|].
  exists e1, e2. unfold appended in *. rewrite <- Hg1, <- Hr1, <- Hg2, <- Hr2.
  done.
Qed.

Lemma agree_Ok_same {S : Type} (ok1 ok2 : S → Prop) (π : S → visitor)
    (s1 s2 : S) :
  ok1 s1 → ok2 s2 →
  full_slice (v_gd (π s1)) (v_rel (π s1)) →
  full_slice (v_gd (π s2)) (v_rel (π s2)) →
  agree ok1 ok2 π (π s1) (π s2) (Ok s1) (Ok s2).
Proof.
  intros. split_and!; [done..|]. exists [], [].
  split_and!; [done|by apply appended_nil..].
Qed.

Section actions_agreement.
Context (env1 env2 : Env) (config : Config) (base_dir : string).
Context (Htree : same_tree env1 env2).

Notation ok := (visitor_ok env1 config base_dir).
Notation okf := (visiting_ok env1 config base_dir).

Lemma agree_applyActions (fuel : nat) (actions : RuleActions) (file : string)
    (fd1 fd2 : option string) (v1 v2 : visitor) (regex_result : list string) :
  ok v1 → ok v2 →
  file_data_ok env1 base_dir file fd1 → file_data_ok env1 base_dir file fd2 →
  agree (okf file) (okf file) snd v1 v2
    (applyActions env1 config base_dir fuel actions file fd1 v1 regex_result)
    (applyActions env2 config base_dir fuel actions file fd2 v2 regex_result).
Proof.
  intros H1 H2 Hfd1 Hfd2. unfold applyActions.
  eapply (agree_bind id snd ok ok); [by apply (ok_full env1 config base_dir)..| |].
  { apply (agree_for_each id);
      [apply (ok_full env1 config base_dir)|apply (ok_full env1 config base_dir)
      | |done|done].
    intros. by apply agree_visit_files. }
  intros a1 a2 Ha1 Ha2.
  eapply (agree_bind id snd ok ok); [by apply (ok_full env1 config base_dir)..| |].
  { apply (agree_for_each id);
      [apply (ok_full env1 config base_dir)|apply (ok_full env1 config base_dir)
      | |done|done].
    intros. by apply agree_visit_glob. }
  intros b1 b2 Hb1 Hb2.
  eapply (agree_bind id snd ok ok); [by apply (ok_full env1 config base_dir)..| |].
  { by apply agree_visit_grand_siblings. }
  intros c1 c2 Hc1 Hc2. unfold id.
  destruct (VisitImportedPythonModules actions
            || negb (length (VisitPythonAllSubmodulesFor actions) =? 0)).
  - rewrite <- (need_file_data_same env1 env2 base_dir Htree file fd1 fd2) by done.
    destruct (need_file_data env1 base_dir file fd1) as [data| |] eqn:Hdata;
      [|done..].
    pose proof (need_file_data_ok env1 base_dir file fd1 data Hfd1 Hdata) as Hdok.
    cbn [mbind result_bind].
    rewrite <- (parse_imports_same env1 env2 Htree).
    destruct (parse_imports env1 data) as [imports| |]; [|done..].
    cbn [mbind result_bind].
    eapply (agree_bind id snd ok ok); [by apply (ok_full env1 config base_dir)..| |].
    { apply (agree_for_each id);
        [apply (ok_full env1 config base_dir)|apply (ok_full env1 config base_dir)
        | |done|done].
      intros. by apply agree_visit_all_submodules. }
    intros d1 d2 Hd1 Hd2.
    eapply (agree_bind id snd ok ok); [by apply (ok_full env1 config base_dir)..| |].
    { apply (agree_for_each id);
        [apply (ok_full env1 config base_dir)|apply (ok_full env1 config base_dir)
        | |done|done].
      intros. by apply agree_resolve_import. }
    intros e1 e2 He1 He2.
    apply (agree_Ok_same (okf file) (okf file) snd (Some data, e1) (Some data, e2));
      [done|done|by apply (ok_full env1 config base_dir)..].
  - apply (agree_Ok_same (okf file) (okf file) snd (fd1, c1) (fd2, c2));
      [done|done|by apply (ok_full env1 config base_dir)..].
Qed.

Lemma regex_ok_insert (rc : gmap string Regexp) (pattern : string) (r : Regexp) :
  regex_ok env1 rc → regexp_Compile env1 pattern = Some r →
  regex_ok env1 (<[pattern := r]> rc).
Proof.
  intros Hrc Hr p r'. destruct (decide (p = pattern)) as [->|Hne].
  - rewrite lookup_insert_eq. by intros [= <-].
  - rewrite lookup_insert_ne by done. apply Hrc.
Qed.

Lemma agree_apply_regex_rule (fuel : nat) (file : string)
    (s1 s2 : option string * visitor) (rule : string * RuleActions) :
  okf file s1 → okf file s2 →
  agree (okf file) (okf file) snd s1.2 s2.2
    (apply_regex_rule env1 config base_dir fuel file s1 rule)
    (apply_regex_rule env2 config base_dir fuel file s2 rule).
Proof.
  intros [H1 Hfd1] [H2 Hfd2]. unfold apply_regex_rule.
  rewrite <- (checkExcludePatterns_same env1 env2 Htree).
  destruct (checkExcludePatterns env1 (Exclude rule.2) file) as [[|]| |];
    [|cbn [mbind result_bind]|done..].
  { cbn [mbind result_bind].
    apply (agree_Ok_same (okf file) (okf file) snd s1 s2);
      [done|done|by apply (ok_full env1 config base_dir)..]. }
  rewrite <- (need_file_data_same env1 env2 base_dir Htree file s1.1 s2.1) by done.
  destruct (need_file_data env1 base_dir file s1.1) as [data| |] eqn:Hdata;
    [|done..].
  pose proof (need_file_data_ok env1 base_dir file s1.1 data Hfd1 Hdata) as Hdok.
  cbn [mbind result_bind].
  assert (regexp_Compile env2 = regexp_Compile env1) as ->.
  { by destruct Htree as (_ & _ & _ & _ & _ & -> & _). }
  destruct H1 as (Hf1 & Hc1 & Hr1), H2 as (Hf2 & Hc2 & Hr2).
  set (w1 r := {| v_gd := v_gd s1.2; v_rel := v_rel s1.2; v_cache := v_cache s1.2;
                  v_regex := <[rule.1 := r]> (v_regex s1.2) |}).
  set (w2 r := {| v_gd := v_gd s2.2; v_rel := v_rel s2.2; v_cache := v_cache s2.2;
                  v_regex := <[rule.1 := r]> (v_regex s2.2) |}).
  assert (∀ r, regexp_Compile env1 rule.1 = Some r → ok (w1 r) ∧ ok (w2 r)) as Hw.
  { intros r Hr. split; (split_and!; [done|done|by apply regex_ok_insert]). }
  assert (∀ (r : Regexp) (t1 t2 : visitor),
            ok t1 → ok t2 →
            v_gd t1 = v_gd s1.2 → v_rel t1 = v_rel s1.2 →
            v_gd t2 = v_gd s2.2 → v_rel t2 = v_rel s2.2 →
            agree (okf file) (okf file) snd s1.2 s2.2
              (for_each
                 (λ (s : option string * visitor) regex_match,
                    applyActions env1 config base_dir fuel rule.2 file s.1 s.2
                      regex_match)
                 (r data) (Some data, t1))
              (for_each
                 (λ (s : option string * visitor) regex_match,
                    applyActions env2 config base_dir fuel rule.2 file s.1 s.2
                      regex_match)
                 (r data) (Some data, t2))) as Hloop.
  { intros r t1 t2 Ht1 Ht2 Hg1 Hl1 Hg2 Hl2.
    apply (agree_start _ _ snd s1.2 s2.2 t1 t2); [done..|].
    apply (agree_for_each snd (okf file) (okf file) _ _ (r data)
             ltac:(intros s [Hs _]; by apply (ok_full env1 config base_dir))
             ltac:(intros s [Hs _]; by apply (ok_full env1 config base_dir)));
      [|done|done].
    intros x t1' t2' _ [Ht1' Hfd1'] [Ht2' Hfd2']. by apply agree_applyActions. }
  destruct (v_regex s1.2 !! rule.1) as [r1|] eqn:E1,
           (v_regex s2.2 !! rule.1) as [r2|] eqn:E2.
  - pose proof (Hr1 _ _ E1). pose proof (Hr2 _ _ E2).
    assert (r1 = r2) as <- by congruence.
    cbn [mbind result_bind fst snd]. by apply Hloop.
  - pose proof (Hr1 _ _ E1) as Hc. rewrite Hc.
    cbn [try mbind result_bind fst snd]. fold (w2 r1).
    apply Hloop; [done|by apply Hw|done..].
  - pose proof (Hr2 _ _ E2) as Hc. rewrite Hc.
    cbn [try mbind result_bind fst snd]. fold (w1 r2).
    apply Hloop; [by apply Hw|done..].
  - destruct (regexp_Compile env1 rule.1) as [r|] eqn:Hc; [|done].
    cbn [try mbind result_bind fst snd]. fold (w1 r) (w2 r).
    apply Hloop; [by apply Hw|by apply Hw|done..].
Qed.

End actions_agreement.

Lemma related_for_each {S A : Type} (R : S → S → Prop)
    (b1 b2 : S → A → result S) (l : list A) :
  (∀ x s1 s2, x ∈ l → R s1 s2 → related_runs R (b1 s1 x) (b2 s2 x)) →
  ∀ s1 s2, R s1 s2 → related_runs R (for_each b1 l s1) (for_each b2 l s2).
Proof.
  induction l as [|x l IH]; intros Hb s1 s2 HR; [done|].
  cbn [for_each]. pose proof (Hb x s1 s2 ltac:(set_solver) HR) as Hx.
  destruct (b1 s1 x) as [t1| |], (b2 s2 x) as [t2| |]; try done.
  cbn [mbind result_bind]. apply IH; [|done].
  intros. apply Hb; [set_solver|done].
Qed.

Section rules_agreement.
Context (env1 env2 : Env) (config : Config) (base_dir : string).
Context (Htree : same_tree env1 env2).
Context (Hrange1 : range_ok env1) (Hrange2 : range_ok env2).

Notation ok := (visitor_ok env1 config base_dir).
Notation okf := (visiting_ok env1 config base_dir).

Lemma okf_full (file : string) (s : option string * visitor) :
  okf file s → full_slice (v_gd s.2) (v_rel s.2).
Proof. intros [Hs _]. by apply (ok_full env1 config base_dir). Qed.

Lemma agree_regex_rules (fuel : nat) (file : string)
    (l1 l2 : list (string * RuleActions)) (s1 s2 : option string * visitor) :
  l1 ≡ₚ l2 → okf file s1 → okf file s2 →
  agree (okf file) (okf file) snd s1.2 s2.2
    (for_each (apply_regex_rule env1 config base_dir fuel file) l1 s1)
    (for_each (apply_regex_rule env2 config base_dir fuel file) l2 s2).
Proof.
  intros Hp H1 H2.
  eapply (agree_trans snd _ (okf file) _ _ s1.2);
    [by eapply okf_full| |].
  - apply (agree_for_each_perm snd (okf file)
             (apply_regex_rule env1 config base_dir fuel file) l1 l2
             (okf_full file)); [|done..].
    intros x t1 t2 Ht1 Ht2.
    by apply (agree_apply_regex_rule env1 env1 config base_dir
                (same_tree_refl env1)).
  - apply (agree_for_each snd (okf file) (okf file) _ _ l2
             (okf_full file) (okf_full file)); [|done..].
    intros x t1 t2 _ Ht1 Ht2. by apply agree_apply_regex_rule.
Qed.

End rules_agreement.

Section path_rules_agreement.
Context (env1 env2 : Env) (config : Config) (base_dir : string).
Context (Htree : same_tree env1 env2).
Context (Hrange1 : range_ok env1) (Hrange2 : range_ok env2).

Notation ok := (visitor_ok env1 config base_dir).
Notation okf := (visiting_ok env1 config base_dir).

Lemma agree_apply_path_rule (fuel : nat) (file : string) (v1 v2 : visitor)
    (rule : string * PathRule) :
  ok v1 → ok v2 →
  agree ok ok id v1 v2
    (apply_path_rule env1 config base_dir fuel file v1 rule)
    (apply_path_rule env2 config base_dir fuel file v2 rule).
Proof.
  intros H1 H2. unfold apply_path_rule.
  assert (glob_match env2 = glob_match env1) as ->.
  { by destruct Htree as (_ & _ & -> & _). }
  destruct (glob_match env1 rule.1 file) as [[|]|]; cbn [try mbind result_bind];
    [| |done].
  - eapply (agree_bind snd id (okf file) (okf file));
      [by apply (ok_full env1 config base_dir)..| |].
    { apply agree_applyActions; done. }
    intros s1 s2 Hs1 Hs2.
    eapply (agree_bind snd id (okf file) (okf file));
      [by eapply okf_full..| |].
    { apply agree_regex_rules; [done| |done..].
      destruct Hrange1 as (_ & Hr1 & _), Hrange2 as (_ & Hr2 & _).
      by rewrite Hr1, Hr2. }
    intros t1 t2 [Ht1 _] [Ht2 _].
    apply (agree_Ok_same ok ok id t1.2 t2.2);
      [done|done|by apply (ok_full env1 config base_dir)..].
  - apply (agree_Ok_same ok ok id v1 v2);
      [done|done|by apply (ok_full env1 config base_dir)..].
Qed.

End path_rules_agreement.

Section visit_agreement.
Context (env1 env2 : Env) (config : Config) (base_dir : string).
Context (Htree : same_tree env1 env2).
Context (Hrange1 : range_ok env1) (Hrange2 : range_ok env2).

Notation ok := (visitor_ok env1 config base_dir).

(** [visitFile] finds the same relations, up to their order, whatever the
    order of the listings and of the rules, and whatever the caches
    hold. *)
Lemma agree_visitFile (fuel : nat) (file : string) (v1 v2 : visitor) :
  ok v1 → ok v2 →
  agree ok ok id v1 v2
    (visitFile env1 config base_dir fuel file v1)
    (visitFile env2 config base_dir fuel file v2).
Proof.
  intros H1 H2. unfold visitFile.
  rewrite <- (checkExcludePatterns_same env1 env2 Htree).
  destruct (checkExcludePatterns env1 (GlobalExclude config) file) as [[|]| |];
    cbn [mbind result_bind]; [| |done..].
  { apply (agree_Ok_same ok ok id v1 v2);
      [done|done|by apply (ok_full env1 config base_dir)..]. }
  eapply (agree_trans id _ ok _ _ v1); [by apply (ok_full env1 config base_dir)| |].
  - apply (agree_for_each_perm id ok
             (apply_path_rule env1 config base_dir fuel file)
             (range_path_rules env1 [file] (PathRules config))
             (range_path_rules env2 [file] (PathRules config))
             (ok_full env1 config base_dir)); [| |done..].
    + intros x t1 t2 Ht1 Ht2.
      by apply (agree_apply_path_rule env1 env1 config base_dir
                  (same_tree_refl env1)).
    + destruct Hrange1 as (Hr1 & _), Hrange2 as (Hr2 & _). by rewrite Hr1, Hr2.
  - apply (agree_for_each id ok ok _ _ _
             (ok_full env1 config base_dir) (ok_full env1 config base_dir));
      [|done..].
    intros x t1 t2 _ Ht1 Ht2. by apply agree_apply_path_rule.
Qed.

End visit_agreement.

(** ** What is stored does not depend on the order of collection *)

Lemma Sort_slice_length (gd : list string) (s : slice) :
  full_slice gd s → length (Sort_slice gd s).1 = length gd.
Proof.
  destruct s as [n|l]; simpl; [|done]. intros ->.
  by rewrite firstn_all, skipn_all, app_nil_r, sort_length.
Qed.

Lemma Sort_slice_full (gd : list string) (s : slice) :
  full_slice gd s → full_slice (Sort_slice gd s).1 (Sort_slice gd s).2.
Proof.
  intros Hf. pose proof (Sort_slice_length gd s Hf) as Hl.
  destruct s as [n|l]; simpl in *; [|done]. congruence.
Qed.

Lemma Compact_slice_length (gd : list string) (s : slice) :
  full_slice gd s → length (Compact_slice gd s).1 = length gd.
Proof.
  destruct s as [n|l]; simpl; [|done]. intros ->.
  rewrite firstn_all, skipn_all, app_nil_r, length_app, length_replicate.
  pose proof (compact_length gd). lia.
Qed.

(** The entry stored for a file, and the global-deps array after it. *)
Lemma stored_same (gd : list string) (v1 v2 : visitor) (e1 e2 : list string) :
  e1 ≡ₚ e2 →
  v_gd v1 = gd → v_gd v2 = gd →
  v_rel v1 = (go_append gd (Shared (length gd)) e1).2 →
  v_rel v2 = (go_append gd (Shared (length gd)) e2).2 →
  let sorted1 := Sort_slice (v_gd v1) (v_rel v1) in
  let sorted2 := Sort_slice (v_gd v2) (v_rel v2) in
  Compact_slice sorted1.1 sorted1.2 = Compact_slice sorted2.1 sorted2.2.
Proof.
  intros Hp Hgd1 Hgd2 Hrel1 Hrel2. cbv zeta.
  rewrite Hgd1, Hgd2, Hrel1, Hrel2.
  rewrite !go_append_full by done. cbn [snd].
  destruct e1 as [|x1 e1], e2 as [|x2 e2]; try done.
  - by apply Permutation_nil_cons in Hp.
  - symmetry in Hp. by apply Permutation_nil_cons in Hp.
  - cbn [Sort_slice fst snd].
    by rewrite (sort_unique (gd ++ x1 :: e1) (gd ++ x2 :: e2))
      by (by apply Permutation_app).
Qed.

Section graph_agreement.
Context (env1 env2 : Env) (config : Config) (base_dir : string).
Context (Htree : same_tree env1 env2).
Context (Hrange1 : range_ok env1) (Hrange2 : range_ok env2).

Notation ok := (visitor_ok env1 config base_dir).
Notation same := (same_graph env1 config base_dir).

Notation same_frontier := (same_frontier env1 config base_dir).

Lemma related_visit_input (fuel : nat) (s1 s2 : graph * list string)
    (file : string) :
  same_frontier s1 s2 →
  related_runs same_frontier
    (visit_input env1 config base_dir fuel s1 file)
    (visit_input env2 config base_dir fuel s2 file).
Proof.
  intros [(Hg1 & Hg2 & Hgd & Hset & Hmap) Hrel]. unfold visit_input.
  rewrite <- Hset.
  destruct (decide (file ∈ all_files_set s1.1)) as [Hin|Hnotin].
  { split; [|done]. by split_and!. }
  destruct Hg1 as (Hc1 & Hr1 & Hl1), Hg2 as (Hc2 & Hr2 & Hl2).
  set (v1 := {| v_gd := g_gd s1.1; v_rel := Shared (length (GlobalDeps config));
                v_cache := g_cache s1.1; v_regex := g_regex s1.1 |}).
  set (v2 := {| v_gd := g_gd s2.1; v_rel := Shared (length (GlobalDeps config));
                v_cache := g_cache s2.1; v_regex := g_regex s2.1 |}).
  assert (ok v1) as Hv1 by (split_and!; [by simpl|done..]).
  assert (ok v2) as Hv2 by (split_and!; [by simpl|done..]).
  pose proof (agree_visitFile env1 env2 config base_dir Htree Hrange1 Hrange2
                fuel file v1 v2 Hv1 Hv2) as Hvisit.
  destruct (visitFile env1 config base_dir fuel file v1) as [w1| |],
           (visitFile env2 config base_dir fuel file v2) as [w2| |];
    try done.
  destruct Hvisit as (Hw1 & Hw2 & e1 & e2 & Hp & [Hgd1 Hrel1] & [Hgd2 Hrel2]).
  unfold id in *. subst v1 v2. cbn [v_gd v_rel] in Hgd1, Hrel1, Hgd2, Hrel2.
  cbn [mbind result_bind].
  assert (let sorted1 := Sort_slice (v_gd w1) (v_rel w1) in
          let sorted2 := Sort_slice (v_gd w2) (v_rel w2) in
          Compact_slice sorted1.1 sorted1.2 = Compact_slice sorted2.1 sorted2.2)
    as Hstored.
  { apply (stored_same (g_gd s1.1) w1 w2 e1 e2); [done|done|congruence| |].
    - by rewrite Hrel1, Hl1.
    - by rewrite Hrel2, <- Hgd, Hl1. }
  cbv zeta in Hstored. rewrite <- Hstored.
  split; [|cbn [fst snd]; congruence].
  cbn [fst snd]. destruct Hw1 as (Hf1 & Hc1' & Hr1'), Hw2 as (Hf2 & Hc2' & Hr2').
  assert (length (Compact_slice (Sort_slice (v_gd w1) (v_rel w1)).1
                    (Sort_slice (v_gd w1) (v_rel w1)).2).1
          = length (GlobalDeps config)) as Hlen.
  { rewrite Compact_slice_length by (by apply Sort_slice_full).
    rewrite Sort_slice_length by done. rewrite Hgd1. done. }
  split_and!; simpl; try done; congruence.
Qed.

Lemma related_visit_waves (fuel : nat) (g1 g2 : graph) (input_files : list string) :
  same g1 g2 →
  related_runs same
    (visit_waves env1 config base_dir fuel g1 input_files)
    (visit_waves env2 config base_dir fuel g2 input_files).
Proof.
  revert g1 g2 input_files.
  induction fuel as [|fuel IH]; intros g1 g2 input_files Hg; [done|].
  cbn [visit_waves].
  pose proof (related_for_each same_frontier
                (visit_input env1 config base_dir fuel)
                (visit_input env2 config base_dir fuel) input_files
                (λ x s1 s2 _, related_visit_input fuel s1 s2 x)
                (g1, []) (g2, []) (conj Hg eq_refl)) as Hwave.
  destruct (for_each (visit_input env1 config base_dir fuel) input_files (g1, []))
    as [s1| |],
    (for_each (visit_input env2 config base_dir fuel) input_files (g2, []))
    as [s2| |]; try done.
  destruct Hwave as [Hs Hrel]. cbn [mbind result_bind]. rewrite <- Hrel.
  destruct (length s1.2 =? 0); [done|]. by apply IH.
Qed.

Lemma same_graph_initial :
  same
    {| g_gd := GlobalDeps config; all_files_set := ∅; file_relation_map := ∅;
       g_cache := ∅; g_regex := ∅ |}
    {| g_gd := GlobalDeps config; all_files_set := ∅; file_relation_map := ∅;
       g_cache := ∅; g_regex := ∅ |}.
Proof.
  assert (graph_ok env1 config base_dir
            {| g_gd := GlobalDeps config; all_files_set := ∅;
               file_relation_map := ∅; g_cache := ∅; g_regex := ∅ |}) as Hok.
  { split_and!; [apply cache_ok_empty| |done].
    intros p r. cbn [g_regex]. by rewrite lookup_empty. }
  by split_and!.
Qed.

(** The graph does not depend on the order of the listings and of the
    rules. *)
Lemma related_VisitRecursively (fuel : nat) (input_files : list string) :
  related_runs same
    (VisitRecursively env1 config base_dir fuel input_files)
    (VisitRecursively env2 config base_dir fuel input_files).
Proof. apply related_visit_waves, same_graph_initial. Qed.

End graph_agreement.

(** ** The driver does not depend on the orders *)

Lemma fold_left_commute {S A : Type} (step : S → A → S) (l l' : list A) (s : S) :
  (∀ s x y, x ≠ y → step (step s x) y = step (step s y) x) →
  NoDup l → l ≡ₚ l' → fold_left step l s = fold_left step l' s.
Proof.
  intros Hstep Hnd Hp. revert s.
  induction Hp as [|x l l' Hp IH|x y l|l l' l'' Hp1 IH1 Hp2 IH2]; intros s.
  - done.
  - apply NoDup_cons in Hnd as [_ Hnd]. simpl. by apply IH.
  - simpl. rewrite Hstep; [done|].
    apply NoDup_cons in Hnd as [Hy _]. set_solver.
  - rewrite IH1 by done. apply IH2. by rewrite <- Hp1.
Qed.

Section tasks.
Context (env : Env) (args : Args) (config_hash : string).
Context (relations : gmap string (list string)) (fileHashes : gmap string string).

Lemma hash_task_step (s : option (list string) * gmap string string)
    (file_name : string) :
  hash_task env args config_hash relations fileHashes s file_name
  = Ok (hash_step env args config_hash relations fileHashes s file_name).
Proof.
  unfold hash_task, hash_step.
  destruct (BuildFullDepList_spec relations file_name) as (l & -> & _). done.
Qed.

Lemma hash_tasks_fold (files : list string)
    (s : option (list string) * gmap string string) :
  for_each (hash_task env args config_hash relations fileHashes) files s
  = Ok (fold_left (hash_step env args config_hash relations fileHashes) files s).
Proof.
  revert s. induction files as [|f files IH]; intros s; [done|].
  cbn [for_each fold_left]. rewrite hash_task_step. cbn [mbind result_bind].
  apply IH.
Qed.

Lemma hash_step_commute (s : option (list string) * gmap string string)
    (x y : string) :
  x ≠ y →
  hash_step env args config_hash relations fileHashes
    (hash_step env args config_hash relations fileHashes s x) y
  = hash_step env args config_hash relations fileHashes
      (hash_step env args config_hash relations fileHashes s y) x.
Proof.
  intros Hxy. unfold hash_step. cbn [fst snd]. f_equal.
  - destruct (String.eqb_spec (OutRecursiveDepsFor args) x) as [Hx|Hx],
             (String.eqb_spec (OutRecursiveDepsFor args) y) as [Hy|Hy];
      try done. congruence.
  - destruct (String.eqb (OutDepHashes args) EmptyString); [done|].
    by rewrite insert_insert_ne.
Qed.

(** The tables do not depend on the order in which the tasks complete. *)
Lemma hash_tasks_any_order (files files' : list string)
    (s : option (list string) * gmap string string) :
  NoDup files → files ≡ₚ files' →
  for_each (hash_task env args config_hash relations fileHashes) files s
  = for_each (hash_task env args config_hash relations fileHashes) files' s.
Proof.
  intros Hnd Hp. rewrite !hash_tasks_fold. f_equal.
  apply fold_left_commute; [|done..]. intros. by apply hash_step_commute.
Qed.

End tasks.

Lemma related_input_globs (env1 env2 : Env) (base_dir : string)
    (inputs acc1 acc2 : list string) :
  same_tree env1 env2 → acc1 ≡ₚ acc2 →
  related_runs (≡ₚ)
    (for_each
       (λ input_files input,
          input_files_chunk ← try (glob_any env1 base_dir input);
          Ok (input_files ++ input_files_chunk))
       inputs acc1)
    (for_each
       (λ input_files input,
          input_files_chunk ← try (glob_any env2 base_dir input);
          Ok (input_files ++ input_files_chunk))
       inputs acc2).
Proof.
  intros (_ & Hglob & _) Hacc.
  apply (related_for_each (≡ₚ)); [|done].
  intros input a1 a2 _ Ha. specialize (Hglob base_dir input).
  destruct (glob_any env1 base_dir input), (glob_any env2 base_dir input);
    simpl in *; try done.
  by apply Permutation_app.
Qed.

Lemma same_graph_relations (env : Env) (config : Config) (base_dir : string)
    (g1 g2 : graph) :
  same_graph env config base_dir g1 g2 →
  relations_of g1 = relations_of g2 ∧ all_files_set g1 = all_files_set g2.
Proof.
  intros (_ & _ & Hgd & Hset & Hmap). unfold relations_of.
  by rewrite Hgd, Hmap.
Qed.

(** Two runs of [main] over the same tree: they end alike, unless one of
    them fails and the other runs out of budget. *)
Lemma main_related (env1 env2 : Env) (fuel : nat) (parsed : option Args) :
  same_tree env1 env2 → range_ok env1 → range_ok env2 →
  match main env1 fuel parsed, main env2 fuel parsed with
  | Ok r1, Ok r2 => r1 = r2
  | Ok r1, _ => exit_status r1 = 1%Z
  | _, Ok r2 => exit_status r2 = 1%Z
  | _, _ => True
  end.
Proof.
  intros Htree Hrange1 Hrange2.
  pose proof Htree as (_ & _ & _ & _ & Hread & _ & Hyaml & Hsha).
  destruct parsed as [args|]; [|done].
  unfold main, LoadConfig. rewrite <- Hread, <- Hyaml, <- Hsha.
  destruct (read_file env1 (ConfigPath args)) as [config_data|]; [|done].
  cbn [mbind option_bind].
  destruct (yaml_Decode env1 config_data) as [config|]; [|done].
  cbn [mbind option_bind].
  set (base_dir := filepath.Join [filepath.Dir (ConfigPath args); BaseDir config]).
  pose proof (related_input_globs env1 env2 base_dir
                (effective_inputs args config) [] [] Htree (reflexivity _))
    as Hglobs.
  destruct (for_each _ (effective_inputs args config) []) as [l1| |],
           (for_each _ (effective_inputs args config) []) as [l2| |];
    try done.
  simpl in Hglobs. rewrite <- (sort_unique l1 l2) by done.
  set (input_files := slices.compact (slices.sort l1)).
  destruct (length input_files =? 0); [done|].
  pose proof (related_VisitRecursively env1 env2 config base_dir Htree
                Hrange1 Hrange2 fuel input_files) as Hgraph.
  destruct (VisitRecursively env1 config base_dir fuel input_files) as [g1| |],
           (VisitRecursively env2 config base_dir fuel input_files) as [g2| |];
    try done.
  simpl in Hgraph. apply same_graph_relations in Hgraph as [Hrel Hset].
  rewrite <- Hrel, <- Hset.
  destruct (negb (PrintDepStats args) && negb (PrintRevDepStats args)
            && String.eqb (OutDepHashes args) EmptyString
            && String.eqb (OutRecursiveDeps args) EmptyString); [done|].
  assert (CalculateFileHashes env2 (all_files_set g1) base_dir
          = CalculateFileHashes env1 (all_files_set g1) base_dir) as ->.
  { unfold CalculateFileHashes. by rewrite <- Hread, <- Hsha. }
  assert (∀ fh s,
            for_each (hash_task env2 args (sha256_Sum256 env1 config_data)
                        (relations_of g1) fh)
              (completion_order env2 input_files) s
            = for_each (hash_task env1 args (sha256_Sum256 env1 config_data)
                          (relations_of g1) fh)
                (completion_order env1 input_files) s) as Htasks.
  { intros fh s.
    assert (hash_task env2 = hash_task env1) as ->.
    { unfold hash_task, dep_hash. by rewrite <- Hsha. }
    destruct Hrange1 as (_ & _ & Ho1), Hrange2 as (_ & _ & Ho2).
    apply hash_tasks_any_order.
    - rewrite Ho2. apply compact_NoDup, sort_sorted.
    - by rewrite Ho1, Ho2. }
  destruct (if String.eqb (OutDepHashes args) EmptyString then Ok ∅
            else CalculateFileHashes env1 (all_files_set g1) base_dir)
    as [fileHashes| |]; [|done..].
  rewrite Htasks.
  destruct (for_each _ (completion_order env1 input_files) (None, ∅))
    as [[rd dh]| |]; done.
Qed.

(** C7: two runs of [main] over the same tree and configuration, which
    may differ in the order in which directories are listed, in the order
    in which the path rules and the regex rules are walked, and in the
    order in which the tasks complete: if one of them ends with status 0,
    so does the other, with the same relations, the same recursive
    dependencies and the same digests; two runs that both end have the
    same outcome; the graphs built have the same relation map; and what
    is stored after sorting and compacting is sorted, without repetition,
    and a function of the relations collected up to their order. *)
Theorem main_deterministic (env1 env2 : Env) (fuel : nat) (parsed : option Args) :
  same_tree env1 env2 → range_ok env1 → range_ok env2 →
  successful (main env1 fuel parsed) = successful (main env2 fuel parsed)
  ∧ (∀ r1 r2,
       main env1 fuel parsed = Ok r1 → main env2 fuel parsed = Ok r2 → r1 = r2)
  ∧ (∀ config base_dir input_files g1,
       VisitRecursively env1 config base_dir fuel input_files = Ok g1 →
       ∃ g2, VisitRecursively env2 config base_dir fuel input_files = Ok g2
             ∧ relations_of g1 = relations_of g2
             ∧ all_files_set g1 = all_files_set g2)
  ∧ (∀ l1 l2,
       l1 ≡ₚ l2 →
       slices.compact (slices.sort l1) = slices.compact (slices.sort l2)
       ∧ Sorted slices.string_le (slices.compact (slices.sort l1))
       ∧ NoDup (slices.compact (slices.sort l1))).
Proof.
  intros Htree Hrange1 Hrange2.
  pose proof (main_related env1 env2 fuel parsed Htree Hrange1 Hrange2) as Hmain.
  split_and!.
  - unfold successful.
    destruct (main env1 fuel parsed) as [r1| |], (main env2 fuel parsed) as [r2| |];
      try done; by rewrite Hmain.
  - intros r1 r2 E1 E2. by rewrite E1, E2 in Hmain.
  - intros config base_dir input_files g1 Hg1.
    pose proof (related_VisitRecursively env1 env2 config base_dir Htree
                  Hrange1 Hrange2 fuel input_files) as Hgraph.
    rewrite Hg1 in Hgraph.
    destruct (VisitRecursively env2 config base_dir fuel input_files) as [g2| |];
      [|done..].
    exists g2. split; [done|]. by eapply same_graph_relations.
  - intros l1 l2 Hp. split_and!.
    + by rewrite (sort_unique l1 l2).
    + apply compact_sorted, sort_sorted.
    + apply compact_NoDup, sort_sorted.
Qed.

Lemma main_deterministic_witness :
  successful
    (main scenario.env 10
       (Some (scenario.args "repo_dagger.yaml" "relations.json" "hashes.json")))
  = successful
      (main scenario.env_reversed 10
         (Some (scenario.args "repo_dagger.yaml" "relations.json" "hashes.json"))).
Proof.
  apply (main_deterministic scenario.env scenario.env_reversed).
  - split_and!; try reflexivity; intros dir pattern; simpl;
      apply Permutation_sym, reverse_Permutation.
  - split_and!; intros; simpl; reflexivity.
  - split_and!; intros; simpl; apply reverse_Permutation.
Defined.

(** ** The budget of a visit *)

Lemma finishes_bind {A B : Type} (r : result A) (k : A → result B) :
  finishes r → (∀ a, r = Ok a → finishes (k a)) → finishes (r ≫= k).
Proof. destruct r; simpl; [by auto|done..]. Qed.

Lemma finishes_try {A : Type} (o : option A) : finishes (try o).
Proof. by destruct o. Qed.

Lemma for_each_finishes {S A : Type} (b : S → A → result S) (l : list A) (s : S) :
  (∀ s x, finishes (b s x)) → finishes (for_each b l s).
Proof.
  intros Hb. revert s. induction l as [|x l IH]; intros s; [done|].
  cbn [for_each]. apply finishes_bind; [apply Hb|]. intros. apply IH.
Qed.

Lemma for_each_ext {S A : Type} (b1 b2 : S → A → result S) (l : list A) (s : S) :
  (∀ s x, b1 s x = b2 s x) → for_each b1 l s = for_each b2 l s.
Proof.
  intros Hb. revert s. induction l as [|x l IH]; intros s; [done|].
  cbn [for_each]. rewrite Hb. destruct (b2 s x); simpl; [apply IH|done..].
Qed.

Lemma climbs_mono (n m : nat) (path : string) :
  n ≤ m → climbs n path = true → climbs m path = true.
Proof.
  revert m path. induction n as [|n IH]; intros m path Hnm; simpl.
  - rewrite orb_false_r. intros Hp. destruct m; simpl; by rewrite Hp.
  - destruct m as [|m]; [lia|]. simpl.
    destruct (String.eqb path "."); [done|]. simpl. apply IH. lia.
Qed.

Section budget.
Context (env : Env) (config : Config) (base_dir : string).

Lemma visit_glob_finishes (dir : string) (anchor : string → string)
    (st : visitor) (pattern : string) :
  finishes (visit_glob env dir anchor st pattern).
Proof. unfold visit_glob. by destruct (glob_files env dir pattern). Qed.

(** Above the depth of the file, the budget does not matter. *)
Lemma visit_grand_siblings_fuel (n fuel : nat) (templates : list string)
    (path_iter : string) (st : visitor) :
  climbs n path_iter = true → n ≤ fuel →
  visit_grand_siblings env base_dir fuel templates path_iter st
  = visit_grand_siblings env base_dir n templates path_iter st
  ∧ finishes (visit_grand_siblings env base_dir n templates path_iter st).
Proof.
  revert fuel path_iter st.
  induction n as [|n IH]; intros fuel path_iter st Hc Hn; simpl in Hc.
  - rewrite orb_false_r in Hc. destruct fuel; simpl; by rewrite Hc.
  - destruct fuel as [|fuel]; [lia|]. simpl.
    destruct (String.eqb path_iter "."); [done|]. simpl in Hc.
    destruct (for_each _ templates st) as [st'| |] eqn:Hloop; simpl.
    + apply IH; [done|lia].
    + done.
    + pose proof (for_each_finishes
                    (visit_glob env (filepath.Join [base_dir; path_iter])
                       (λ visit_file, filepath.Join [path_iter; visit_file]))
                    templates st
                    (λ s x, visit_glob_finishes _ _ s x)) as Hf.
      by rewrite Hloop in Hf.
Qed.

Lemma resolve_import_finishes (st : visitor) (module : string) :
  finishes (resolve_import env config base_dir st module).
Proof.
  unfold resolve_import.
  pose proof (Resolve_total env config base_dir module (v_cache st)) as Ht.
  by destruct (Resolve env config base_dir module (v_cache st)).
Qed.

Lemma visit_all_submodules_finishes (idents : gmap string string)
    (st : visitor) (mod_name : string) :
  finishes (visit_all_submodules env config base_dir idents st mod_name).
Proof.
  unfold visit_all_submodules.
  destruct (found_in_root_pkg config mod_name); simpl.
  - by destruct (glob_files env base_dir _).
  - destruct (idents !! mod_name); simpl; [|done].
    by destruct (glob_files env base_dir _).
Qed.

Lemma parse_imports_finishes (data : string) : finishes (parse_imports env data).
Proof.
  unfold parse_imports.
  repeat (apply finishes_bind; [apply finishes_try|intros ? _]).
  apply finishes_bind.
  - apply for_each_finishes. intros s x.
    apply finishes_bind; [apply finishes_try|done].
  - intros acc _. apply for_each_finishes. intros s x.
    repeat (apply finishes_bind; [apply finishes_try|intros ? _]).
    apply for_each_finishes. intros s' y.
    apply finishes_bind; [apply finishes_try|done].
Qed.

Lemma applyActions_fuel (n fuel : nat) (actions : RuleActions) (file : string)
    (file_data : option string) (st : visitor) (regex_result : list string) :
  climbs n (filepath.Dir file) = true → n ≤ fuel →
  applyActions env config base_dir fuel actions file file_data st regex_result
  = applyActions env config base_dir n actions file file_data st regex_result
  ∧ finishes
      (applyActions env config base_dir n actions file file_data st regex_result).
Proof.
  intros Hc Hn. unfold applyActions.
  destruct (for_each _ (applyOnTemplates regex_result (Visit actions)) st)
    as [st1| |] eqn:H1; cbn [mbind result_bind]; [|done|].
  2: { pose proof (for_each_finishes
                     (λ st visit,
                        visit_files_chunk ← try (glob_files env base_dir visit);
                        Ok (record_relations st visit_files_chunk))
                     (applyOnTemplates regex_result (Visit actions)) st) as Hf.
       rewrite H1 in Hf. exfalso. apply Hf. intros s x.
       by destruct (glob_files env base_dir x). }
  destruct (for_each _ (applyOnTemplates regex_result (VisitSiblings actions)) st1)
    as [st2| |] eqn:H2; cbn [mbind result_bind]; [|done|].
  2: { pose proof (for_each_finishes
                     (visit_glob env (filepath.Join [base_dir; filepath.Dir file])
                        (λ visit_file, filepath.Join [filepath.Dir file; visit_file]))
                     (applyOnTemplates regex_result (VisitSiblings actions)) st1
                     (λ s x, visit_glob_finishes _ _ s x)) as Hf.
       by rewrite H2 in Hf. }
  destruct (visit_grand_siblings_fuel n fuel
              (applyOnTemplates regex_result (VisitGrandSiblings actions))
              (filepath.Dir file) st2 Hc Hn) as [-> Hfin].
  destruct (visit_grand_siblings env base_dir n _ (filepath.Dir file) st2)
    as [st3| |]; cbn [mbind result_bind]; [|done..].
  split; [done|].
  destruct (VisitImportedPythonModules actions
            || negb (length (VisitPythonAllSubmodulesFor actions) =? 0)); [|done].
  apply finishes_bind; [unfold need_file_data; destruct file_data;
                        [done|apply finishes_try]|].
  intros data _. apply finishes_bind; [apply parse_imports_finishes|].
  intros imports _. apply finishes_bind.
  { apply for_each_finishes. intros. apply visit_all_submodules_finishes. }
  intros st4 _. apply finishes_bind; [|done].
  apply for_each_finishes. intros. apply resolve_import_finishes.
Qed.

Lemma checkExcludePatterns_finishes (patterns : list string) (file : string) :
  finishes (checkExcludePatterns env patterns file).
Proof.
  induction patterns as [|p patterns IH]; simpl; [done|].
  by destruct (glob_match env p file) as [[|]|].
Qed.

Lemma apply_regex_rule_fuel (n fuel : nat) (file : string)
    (s : option string * visitor) (rule : string * RuleActions) :
  climbs n (filepath.Dir file) = true → n ≤ fuel →
  apply_regex_rule env config base_dir fuel file s rule
  = apply_regex_rule env config base_dir n file s rule
  ∧ finishes (apply_regex_rule env config base_dir n file s rule).
Proof.
  intros Hc Hn. unfold apply_regex_rule.
  pose proof (checkExcludePatterns_finishes (Exclude rule.2) file) as He.
  destruct (checkExcludePatterns env (Exclude rule.2) file) as [[|]| |];
    cbn [mbind result_bind]; [done| |done..].
  destruct (need_file_data env base_dir file s.1) as [data| |] eqn:Hd;
    cbn [mbind result_bind]; [|done|].
  2: { unfold need_file_data in Hd. destruct s.1; [done|].
       by destruct (read_file env _). }
  destruct (match v_regex s.2 !! rule.1 with
            | Some regex_pattern => Ok (regex_pattern, s.2)
            | None => _
            end) as [compiled| |] eqn:Hcomp; cbn [mbind result_bind]; [|done|].
  2: { destruct (v_regex s.2 !! rule.1); [done|].
       by destruct (regexp_Compile env rule.1). }
  split.
  - apply for_each_ext. intros s' x. by apply applyActions_fuel.
  - apply for_each_finishes. intros s' x. by apply (applyActions_fuel n n).
Qed.

Lemma apply_path_rule_fuel (n fuel : nat) (file : string) (st : visitor)
    (rule : string * PathRule) :
  climbs n (filepath.Dir file) = true → n ≤ fuel →
  apply_path_rule env config base_dir fuel file st rule
  = apply_path_rule env config base_dir n file st rule
  ∧ finishes (apply_path_rule env config base_dir n file st rule).
Proof.
  intros Hc Hn. unfold apply_path_rule.
  destruct (glob_match env rule.1 file) as [[|]|]; cbn [try mbind result_bind];
    [|done..].
  destruct (applyActions_fuel n fuel (Actions rule.2) file None st [] Hc Hn)
    as [-> Hfin].
  destruct (applyActions env config base_dir n (Actions rule.2) file None st [])
    as [s| |]; cbn [mbind result_bind]; [|done..].
  rewrite (for_each_ext (apply_regex_rule env config base_dir fuel file)
             (apply_regex_rule env config base_dir n file))
    by (intros; by apply apply_regex_rule_fuel).
  split; [done|]. apply finishes_bind; [|done].
  apply for_each_finishes. intros. by apply (apply_regex_rule_fuel n n).
Qed.

(** A visit of a file below the base directory comes back, and its result
    is the same for every budget of at least the depth of the file. *)
Lemma visitFile_fuel (n fuel : nat) (file : string) (st : visitor) :
  climbs n (filepath.Dir file) = true → n ≤ fuel →
  visitFile env config base_dir fuel file st
  = visitFile env config base_dir n file st
  ∧ finishes (visitFile env config base_dir n file st).
Proof.
  intros Hc Hn. unfold visitFile.
  pose proof (checkExcludePatterns_finishes (GlobalExclude config) file) as He.
  destruct (checkExcludePatterns env (GlobalExclude config) file) as [[|]| |];
    cbn [mbind result_bind]; [done| |done..].
  rewrite (for_each_ext (apply_path_rule env config base_dir fuel file)
             (apply_path_rule env config base_dir n file))
    by (intros; by apply apply_path_rule_fuel).
  split; [done|].
  apply for_each_finishes. intros. by apply (apply_path_rule_fuel n n).
Qed.

End budget.

(** ** Termination of the graph construction *)

(** The entry stored for a file whose visit appended [e], and the
    global-deps array afterwards: the array is untouched, or nothing was
    appended and the array itself was sorted, compacted and padded with
    empty strings. *)
Lemma stored_spec (gd e : list string) (v : visitor) :
  v_gd v = gd → v_rel v = (go_append gd (Shared (length gd)) e).2 →
  let sorted := Sort_slice (v_gd v) (v_rel v) in
  let c := Compact_slice sorted.1 sorted.2 in
  slice_items c.1 c.2 = slices.compact (slices.sort (gd ++ e))
  ∧ (c.1 = gd
     ∨ (e = []
        ∧ c.1 = slices.compact (slices.sort gd)
                ++ replicate (length gd - length (slices.compact (slices.sort gd)))
                     EmptyString)).
Proof.
  intros Hgd Hrel. cbv zeta. rewrite Hgd, Hrel, go_append_full by done.
  cbn [snd]. destruct e as [|x e].
  - cbn [Sort_slice fst snd]. rewrite firstn_all, skipn_all, !app_nil_r.
    cbn [Compact_slice fst snd slice_items].
    pose proof (sort_length gd) as Hlen.
    rewrite (take_ge (slices.sort gd)), (drop_ge (slices.sort gd)) by lia.
    rewrite app_nil_r. split; [by rewrite take_app_length|].
    right. done.
  - cbn [Sort_slice Compact_slice fst snd slice_items]. auto.
Qed.

Lemma for_each_invariant {S A : Type} (J : S → Prop) (P : A → Prop)
    (b : S → A → result S) (l : list A) (s : S) :
  (∀ s x, P x → J s →
     match b s x with Ok s' => J s' | Fatal => True | OutOfFuel => False end) →
  Forall P l → J s →
  match for_each b l s with Ok s' => J s' | Fatal => True | OutOfFuel => False end.
Proof.
  intros Hb Hl. revert s. induction Hl as [|x l Hx _ IH]; intros s HJ; [done|].
  cbn [for_each]. specialize (Hb s x Hx HJ).
  destruct (b s x) as [s'| |]; simpl; [by apply IH|done..].
Qed.

Lemma visited_insert_within (U X : gset string) (file : string) :
  file ∈ U → X ⊆ U → {[file]} ∪ X ⊆ U.
Proof. set_solver. Qed.

Lemma visited_insert_grows (X0 X : gset string) (file : string) :
  X0 ⊆ X → file ∉ X → X0 ⊆ {[file]} ∪ X ∧ X0 ⊂ {[file]} ∪ X.
Proof. set_solver. Qed.

Lemma unvisited_shrinks (U X0 X : gset string) :
  X ⊆ U → X0 ⊂ X → size (U ∖ X) < size (U ∖ X0).
Proof.
  intros HX [Hsub Hne]. apply subset_size. split; [set_solver|].
  intros Hback. apply Hne. intros x Hx.
  destruct (decide (x ∈ X0)) as [|Hx0]; [done|].
  assert (x ∈ U ∖ X0) as Hd by set_solver.
  apply Hback in Hd. set_solver.
Qed.

Lemma unvisited_initial (U : gset string) : size (U ∖ (∅ : gset string)) ≤ size U.
Proof. apply subseteq_size. set_solver. Qed.

Section termination.
Context (env : Env) (config : Config) (base_dir : string).
Context (U : gset string) (depth : nat).
Context (Hrange : range_ok env).
Context (Hclimb : ∀ f, f ∈ U → climbs depth (filepath.Dir f) = true).
Context (Hclosed : ∀ f l, f ∈ U →
           relations_found env config base_dir depth f = Ok l →
           ∀ x, x ∈ l → x ∈ U).

Notation ok := (visitor_ok env config base_dir).
Notation within := (graph_within env config base_dir U).
Notation wave_inv := (wave_inv env config base_dir U).

(** What a visit appends is what a visit with empty caches finds. *)
Lemma visit_relations_found (fuel : nat) (file : string) (v v' : visitor) :
  file ∈ U → depth ≤ fuel → ok v →
  visitFile env config base_dir fuel file v = Ok v' →
  ok v' ∧ ∃ e, appended v e v' ∧ ∀ x, x ∈ e → x ∈ U.
Proof.
  intros Hf Hfuel Hv Hvisit.
  destruct (visitFile_fuel env config base_dir depth fuel file v (Hclimb _ Hf) Hfuel)
    as [Heq _]. rewrite Heq in Hvisit.
  set (fresh := {| v_gd := []; v_rel := Own []; v_cache := ∅; v_regex := ∅ |}).
  assert (ok fresh) as Hfresh.
  { split_and!; [done|apply cache_ok_empty|].
    intros p r. cbn [v_regex fresh]. by rewrite lookup_empty. }
  pose proof (agree_visitFile env env config base_dir (same_tree_refl env)
                Hrange Hrange depth file v fresh Hv Hfresh) as Hagree.
  rewrite Hvisit in Hagree.
  apply agree_Ok_l in Hagree as (w & Hw & Hv' & _ & e & e' & Hp & He & He').
  split; [done|]. exists e. split; [done|].
  intros x Hx. apply (Hclosed file e' Hf); [|by rewrite <- Hp].
  unfold relations_found. fold fresh. rewrite Hw. cbn [mbind result_bind].
  f_equal. unfold id in He'.
  by rewrite (appended_items fresh w e') by done.
Qed.

Lemma visit_input_within (g0 : graph) (fuel : nat) (s : graph * list string)
    (file : string) :
  depth ≤ fuel → file ∈ U → wave_inv g0 s →
  match visit_input env config base_dir fuel s file with
  | Ok s' => wave_inv g0 s'
  | Fatal => True
  | OutOfFuel => False
  end.
Proof.
  intros Hfuel Hfile (Hg & Hrel & Hsub & Hgrow). unfold visit_input.
  destruct (decide (file ∈ all_files_set s.1)) as [Hin|Hnotin]; [done|].
  destruct Hg as ((Hc & Hr & Hlen) & Hset & Hgd & Hnd).
  set (v := {| v_gd := g_gd s.1; v_rel := Shared (length (GlobalDeps config));
               v_cache := g_cache s.1; v_regex := g_regex s.1 |}).
  assert (ok v) as Hv by (split_and!; [by simpl|done..]).
  destruct (visitFile env config base_dir fuel file v) as [v'| |] eqn:Hvisit;
    cbn [mbind result_bind]; [|done|].
  2: { destruct (visitFile_fuel env config base_dir depth fuel file v
                   (Hclimb _ Hfile) Hfuel) as [Heq Hfin].
       by rewrite <- Heq, Hvisit in Hfin. }
  destruct (visit_relations_found fuel file v v' Hfile Hfuel Hv Hvisit)
    as ((Hf' & Hc' & Hr') & e & [Hgd' Hrel'] & He).
  cbn [v_gd v_rel v] in Hgd', Hrel'. rewrite <- Hlen in Hrel'.
  destruct (stored_spec (g_gd s.1) e v' Hgd' Hrel') as [Hitems Hstore].
  cbv zeta in Hitems, Hstore.
  set (c := Compact_slice (Sort_slice (v_gd v') (v_rel v')).1
              (Sort_slice (v_gd v') (v_rel v')).2) in *.
  assert (∀ x, x ∈ slices.compact (slices.sort (g_gd s.1 ++ e)) → x ∈ U) as Hin.
  { intros x. rewrite compact_elem_of, sort_elem_of, elem_of_app.
    intros [?|?]; auto. }
  split_and!; cbn [fst snd].
  - split_and!; cbn [g_gd g_cache g_regex all_files_set].
    + split_and!; [done..|]. cbn [g_gd].
      destruct Hstore as [->|[_ ->]]; [done|].
      rewrite length_app, length_replicate.
      pose proof (compact_length (slices.sort (g_gd s.1))) as Hle.
      rewrite sort_length in Hle. lia.
    + by apply visited_insert_within.
    + destruct Hstore as [->|[-> ->]]; [done|].
      intros x [Hx|Hx]%elem_of_app.
      * apply Hin. by rewrite app_nil_r.
      * apply elem_of_replicate in Hx as [-> Hn].
        destruct Hnd as [Hnd|]; [|done]. exfalso. apply Hn.
        rewrite compact_of_NoDup by (by rewrite sort_perm).
        rewrite sort_length. lia.
    + destruct Hnd as [Hnd|]; [|by right]. left.
      destruct Hstore as [->|[-> ->]]; [done|].
      rewrite compact_of_NoDup by (by rewrite sort_perm).
      rewrite sort_length, Nat.sub_diag. cbn [replicate].
      by rewrite app_nil_r, sort_perm.
  - intros x [Hx|Hx]%elem_of_app; [by apply Hrel|].
    apply Hin. by rewrite <- Hitems.
  - by apply visited_insert_grows.
  - right. by apply visited_insert_grows.
Qed.

Lemma visit_waves_finishes (n : nat) :
  ∀ fuel g input_files,
    n + depth + 1 ≤ fuel →
    within g → (∀ f, f ∈ input_files → f ∈ U) →
    size (U ∖ all_files_set g) ≤ n →
    finishes (visit_waves env config base_dir fuel g input_files).
Proof.
  induction n as [|n IH]; intros fuel g input_files Hfuel Hg Hin Hsize;
    (destruct fuel as [|fuel]; [lia|]); cbn [visit_waves].
  all: pose proof (for_each_invariant (wave_inv g) (λ f, f ∈ U)
                     (visit_input env config base_dir fuel) input_files (g, [])
                     (λ s x Hx Hs, visit_input_within g fuel s x ltac:(lia) Hx Hs)
                     ltac:(by apply Forall_forall)
                     ltac:(by split_and!; [done|intros ? ?%elem_of_nil|done|left]))
         as Hwave.
  all: destruct (for_each (visit_input env config base_dir fuel) input_files (g, []))
         as [s| |]; cbn [mbind result_bind]; [|done..].
  all: destruct Hwave as (Hs & Hrel & Hsub & Hgrow).
  all: destruct (length s.2 =? 0) eqn:Hlen; [done|].
  all: destruct Hgrow as [Hnil|Hgrow];
         [by rewrite Hnil in Hlen|].
  all: assert (size (U ∖ all_files_set s.1) < size (U ∖ all_files_set g)) as Hlt
         by (apply unvisited_shrinks; [by destruct Hs as (_ & ? & _)|done]).
  - lia.
  - apply IH; [lia|done| |lia].
    intros f. rewrite compact_elem_of, sort_elem_of. apply Hrel.
Qed.

End termination.

(** The bound on the depth is needed: the walk to the parent directories
    stops at ["."] only, and the parent of the root directory is the root
    directory, so from a rooted path no budget is enough. *)
Lemma visit_grand_siblings_rooted (env : Env) (base_dir : string) (fuel : nat)
    (st : visitor) :
  visit_grand_siblings env base_dir fuel [] "/" st = OutOfFuel.
Proof.
  induction fuel as [|fuel IH]; [done|].
  cbn [visit_grand_siblings String.eqb Ascii.eqb Bool.eqb for_each mbind
       result_bind].
  replace (filepath.Dir "/") with "/" by (by vm_compute). exact IH.
Qed.

(** X23: the graph construction comes to an end when every reachable path
    lies below the base directory.  Let [U] be a finite set of paths that
    holds the input files and the global dependencies, in which the
    directory of every file reaches the base directory within [depth]
    steps to the parent directory, and which is closed under the relations
    [visitFile] finds (and holds the empty path if a global dependency is
    listed twice).  Then [VisitRecursively] returns or fails within every
    budget of more than [size U + depth] units: the waves stop after at
    most [size U + 1] rounds, cycles or not. *)
Theorem VisitRecursively_terminates (env : Env) (config : Config)
    (base_dir : string) (U : gset string) (depth : nat)
    (input_files : list string) :
  range_ok env →
  (∀ f, f ∈ input_files → f ∈ U) →
  (∀ f, f ∈ GlobalDeps config → f ∈ U) →
  (NoDup (GlobalDeps config) ∨ EmptyString ∈ U) →
  (∀ f, f ∈ U → climbs depth (filepath.Dir f) = true) →
  (∀ f l, f ∈ U → relations_found env config base_dir depth f = Ok l →
          ∀ x, x ∈ l → x ∈ U) →
  ∀ fuel, size U + depth + 1 ≤ fuel →
    finishes (VisitRecursively env config base_dir fuel input_files).
Proof.
  intros Hrange Hin Hgd Hnd Hclimb Hclosed fuel Hfuel.
  apply (visit_waves_finishes env config base_dir U depth Hrange Hclimb Hclosed
           (size U)); [done| |done|].
  - split_and!; cbn [g_gd all_files_set]; [|apply empty_subseteq|done|done].
    split_and!; [apply cache_ok_empty| |done].
    intros p r. cbn [g_regex]. by rewrite lookup_empty.
  - apply unvisited_initial.
Qed.

Lemma VisitRecursively_terminates_witness :
  finishes
    (VisitRecursively scenario.env scenario.config "." 10 ["tests/test_foo.py"]).
Proof.
  apply (VisitRecursively_terminates scenario.env scenario.config "."
           {["tests/test_foo.py"; "pkg/db.py"; "pkg/__init__.py"; "poetry.lock"]} 2).
  - split_and!; intros; simpl; reflexivity.
  - set_solver.
  - intros f Hf. vm_compute in Hf. set_solver.
  - left. vm_compute. apply NoDup_singleton.
  - intros f Hf. set_unfold in Hf.
    destruct Hf as [[[-> | ->] | ->] | ->]; vm_compute; reflexivity.
  - intros f l Hf. set_unfold in Hf.
    destruct Hf as [[[-> | ->] | ->] | ->]; vm_compute; intros [= <-] x Hx;
      set_solver.
  - vm_compute. lia.
Defined.

(** ** A rooted path among the reachable files *)

Lemma visit_input_fuel (env : Env) (config : Config) (base_dir : string)
    (n fuel : nat) (s : graph * list string) (file : string) :
  climbs n (filepath.Dir file) = true → n ≤ fuel →
  visit_input env config base_dir fuel s file
  = visit_input env config base_dir n s file.
Proof.
  intros Hc Hn. unfold visit_input.
  destruct (decide (file ∈ all_files_set s.1)); [done|].
  by rewrite (proj1 (visitFile_fuel env config base_dir n fuel file _ Hc Hn)).
Qed.

(** The visit of a file under the root directory, with a rule that
    matches it, uses up every budget: the walk to the parent directories
    starts at the root directory and stays there. *)
Lemma visitFile_rooted (fuel : nat) (st : visitor) :
  visitFile scenario_rooted.env scenario_rooted.config "." fuel "/abs.lock" st
  = OutOfFuel.
Proof.
  unfold visitFile.
  change (GlobalExclude scenario_rooted.config) with (@nil string).
  cbn [checkExcludePatterns mbind result_bind].
  assert (range_path_rules scenario_rooted.env ["/abs.lock"]
            (PathRules scenario_rooted.config)
          = [("/**", scenario_rooted.rule)]) as ->
    by (vm_compute; reflexivity).
  cbn [for_each]. unfold apply_path_rule. cbn [fst snd].
  assert (glob_match scenario_rooted.env "/**" "/abs.lock" = Some true) as ->
    by (vm_compute; reflexivity).
  cbn [try mbind result_bind]. unfold applyActions.
  change (Actions scenario_rooted.rule) with (scenario.actions [] [] false).
  cbn [scenario.actions Visit VisitSiblings VisitGrandSiblings].
  unfold applyOnTemplates. cbn [fmap list_fmap for_each mbind result_bind].
  assert (filepath.Dir "/abs.lock" = "/") as -> by (vm_compute; reflexivity).
  by rewrite visit_grand_siblings_rooted.
Qed.

(** C9 (the code at the failing input): with [global_deps: /abs.lock], a
    path rule [/**] without any action, and the input file [a.py], the
    reachable files are the two files [a.py] and [/abs.lock], and the
    graph construction does not come to an end: [VisitRecursively], and
    [main] with it, use up every budget.  The second wave visits
    [/abs.lock]; the rule matches it, and the loop of [applyActions] over
    the parent directories starts at [filepath.Dir] of the path, the root
    directory, whose parent is the root directory again, so it never
    reaches the base directory. *)
Theorem VisitRecursively_rooted_path_never_ends (fuel : nat) :
  VisitRecursively scenario_rooted.env scenario_rooted.config "." fuel ["a.py"]
  = OutOfFuel
  ∧ main scenario_rooted.env fuel
      (Some (scenario.args "repo_dagger.yaml" "relations.json" EmptyString))
    = OutOfFuel
  ∧ filepath.Dir "/abs.lock" = "/"
  ∧ filepath.Dir "/" = "/".
Proof.
  assert (VisitRecursively scenario_rooted.env scenario_rooted.config "."
            fuel ["a.py"] = OutOfFuel) as Hgraph.
  { unfold VisitRecursively.
    destruct fuel as [|fuel]; [done|]. cbn [visit_waves].
    assert (climbs 0 (filepath.Dir "a.py") = true) as Hclimb
      by (vm_compute; reflexivity).
    cbn [for_each].
    rewrite (visit_input_fuel _ _ _ 0 fuel _ "a.py" Hclimb) by lia.
    set (g1 := {| g_gd := ["/abs.lock"]; all_files_set := {["a.py"]};
                  file_relation_map := {["a.py" := Shared 1]};
                  g_cache := ∅; g_regex := ∅ |}).
    assert (visit_input scenario_rooted.env scenario_rooted.config "." 0
              ({| g_gd := GlobalDeps scenario_rooted.config;
                  all_files_set := ∅; file_relation_map := ∅;
                  g_cache := ∅; g_regex := ∅ |}, []) "a.py"
            = Ok (g1, ["/abs.lock"])) as ->
      by (vm_compute; reflexivity).
    cbn [mbind result_bind fst snd length Nat.eqb].
    assert (slices.compact (slices.sort ["/abs.lock"]) = ["/abs.lock"]) as ->
      by (vm_compute; reflexivity).
    destruct fuel as [|fuel]; [done|]. cbn [visit_waves for_each].
    unfold visit_input at 1. cbn [fst snd].
    destruct (decide ("/abs.lock" ∈ all_files_set g1)) as [Hin|_];
      [by vm_compute in Hin; set_solver|].
    by rewrite visitFile_rooted. }
  split_and!; [done| |by vm_compute..].
  unfold main.
  assert (LoadConfig scenario_rooted.env
            (ConfigPath
               (scenario.args "repo_dagger.yaml" "relations.json" EmptyString))
          = Some (scenario_rooted.config, zero_hash)) as ->
    by (vm_compute; reflexivity).
  assert (for_each
            (λ input_files input,
               input_files_chunk ←
                 try (glob_any scenario_rooted.env
                        (filepath.Join
                           [filepath.Dir
                              (ConfigPath
                                 (scenario.args "repo_dagger.yaml"
                                    "relations.json" EmptyString));
                            BaseDir scenario_rooted.config]) input);
               Ok (input_files ++ input_files_chunk))
            (effective_inputs
               (scenario.args "repo_dagger.yaml" "relations.json" EmptyString)
               scenario_rooted.config) []
          = Ok ["a.py"]) as ->
    by (vm_compute; reflexivity).
  assert (slices.compact (slices.sort ["a.py"]) = ["a.py"]) as ->
    by (vm_compute; reflexivity).
  cbn [length Nat.eqb].
  assert (filepath.Join
            [filepath.Dir
               (ConfigPath
                  (scenario.args "repo_dagger.yaml" "relations.json"
                     EmptyString));
             BaseDir scenario_rooted.config] = ".") as ->
    by (vm_compute; reflexivity).
  by rewrite Hgraph.
Qed.


(* ===================================================================== *)
(** * Further properties of the code *)
(* ===================================================================== *)

(** ** More on the resolver *)

(** The parent of a name that does not start with a dot does not start
    with a dot. *)
Lemma parent_module_not_relative (module parent : string) :
  parent_module module = Some parent →
  strings.HasPrefix module "." = false →
  strings.HasPrefix parent "." = false.
Proof.
  unfold parent_module, strings.HasPrefix. intros Hparent Hrel.
  assert (∀ n, String.prefix "." (String.substring 0 n module) = false) as Hsub.
  { intros n. destruct module as [|c s], n as [|n];
      cbn [String.substring String.prefix] in *; try done.
    destruct (ascii_dec "." c); [|done]. by destruct s. }
  destruct (strings.LastIndex module "."); [..|done];
    injection Hparent as <-; apply Hsub.
Qed.

Lemma Resolve_not_fatal (env : Env) (config : Config) (base_dir : string)
    (n : nat) :
  ∀ module cache,
    String.length module ≤ n →
    strings.HasPrefix module "." = false →
    Resolve env config base_dir module cache ≠ Fatal.
Proof.
  induction n as [|n IH]; intros module cache Hn Hrel;
    rewrite Resolve_unfold, Hrel;
    destruct (cache !! module); try done;
    destruct (negb (allowed config module)); try done;
    destruct (probe env base_dir module) as [paths visit_parent];
    destruct visit_parent; try done;
    destruct (parent_module module) as [parent|] eqn:Hparent; try done.
  - apply parent_module_shorter in Hparent. lia.
  - pose proof (parent_module_shorter _ _ Hparent) as Hlt.
    pose proof (parent_module_not_relative _ _ Hparent Hrel) as Hrel'.
    specialize (IH parent cache ltac:(lia) Hrel').
    pose proof (Resolve_total env config base_dir parent cache) as Htot.
    destruct (Resolve env config base_dir parent cache) as [r| |]; done.
Qed.

(** X1: [Resolve] comes to an end for every module name, and it ends the
    run in one case only: the name is not cached, passes the filter on the
    root packages and starts with a dot.  No failure comes from the file
    system or from the parents of the name. *)
Theorem Resolve_fails_only_on_relative_name (env : Env) (config : Config)
    (base_dir module : string) (cache : resolver_cache) :
  finishes (Resolve env config base_dir module cache)
  ∧ (Resolve env config base_dir module cache = Fatal ↔
     cache !! module = None
     ∧ allowed config module = true
     ∧ strings.HasPrefix module "." = true).
Proof.
  split.
  - pose proof (Resolve_total env config base_dir module cache).
    by destruct (Resolve env config base_dir module cache).
  - split.
    + intros Hfatal.
      destruct (strings.HasPrefix module ".") eqn:Hrel.
      * rewrite Resolve_unfold, Hrel in Hfatal.
        destruct (cache !! module); [done|].
        by destruct (allowed config module).
      * by apply (Resolve_not_fatal env config base_dir (String.length module))
          in Hfatal.
    + intros (Hc & Ha & Hrel). by apply Resolve_relative_inside_roots.
Qed.

(** X2: the cache of the resolver is a faithful memo.  After a call that
    returns, the cache has only grown, and the same call on the new cache
    returns the same paths and leaves the cache as it is. *)
Theorem Resolve_memoises (env : Env) (config : Config) (base_dir module : string)
    (cache cache' : resolver_cache) (paths : list string) :
  Resolve env config base_dir module cache = Ok (paths, cache') →
  cache ⊆ cache'
  ∧ cache' !! module = Some paths
  ∧ Resolve env config base_dir module cache' = Ok (paths, cache').
Proof.
  intros Hres. apply Resolve_caches in Hres as [Hin Hsub].
  split_and!; [done..|]. by rewrite Resolve_unfold, Hin.
Qed.

Lemma Resolve_memoises_witness :
  ∃ paths cache',
    ∅ ⊆ cache'
    ∧ cache' !! "pkg.sub.mod" = Some paths
    ∧ Resolve scenario.resolver_env scenario.config "." "pkg.sub.mod" cache'
      = Ok (paths, cache').
Proof.
  eexists _, _.
  apply (Resolve_memoises scenario.resolver_env scenario.config "." "pkg.sub.mod" ∅).
  vm_compute. reflexivity.
Defined.

Lemma elem_of_List_filter {A : Type} (f : A → bool) (l : list A) (x : A) :
  x ∈ List.filter f l → f x = true.
Proof.
  induction l as [|y l IH]; simpl; [by intros ?%elem_of_nil|].
  destruct (f y) eqn:Hy; [|done].
  intros [->|?]%elem_of_cons; auto.
Qed.

Lemma Resolve_paths_exist (env : Env) (config : Config) (base_dir : string)
    (n : nat) :
  ∀ module paths cache',
    String.length module ≤ n →
    Resolve env config base_dir module ∅ = Ok (paths, cache') →
    ∀ p, p ∈ paths → exists_path env base_dir p = true.
Proof.
  induction n as [|n IH]; intros module paths cache' Hn;
    rewrite Resolve_unfold, lookup_empty;
    (destruct (negb (allowed config module));
       [by intros [= <- <-] p ?%elem_of_nil|]);
    (destruct (strings.HasPrefix module "."); [done|]);
    rewrite probe_spec;
    (destruct (form_exists env base_dir module); [|shelve]);
    (destruct (parent_module module) as [parent|] eqn:Hparent; [|shelve]).
  - apply parent_module_shorter in Hparent. lia.
  - pose proof (parent_module_shorter _ _ Hparent) as Hlt.
    destruct (Resolve env config base_dir parent ∅) as [[sub c]| |] eqn:Hsub;
      [|done..].
    cbn [mbind result_bind fst snd]. intros [= <- <-] p [Hp|Hp]%elem_of_app.
    + exact (elem_of_List_filter (exists_path env base_dir) (candidates module)
               p Hp).
    + apply (IH parent sub c); [lia|done..].
  Unshelve.
  all: intros [= <- <-] p Hp;
    exact (elem_of_List_filter (exists_path env base_dir) (candidates module)
             p Hp).
Qed.

(** X3: the resolver returns files only.  With a cache of earlier results,
    every path of a result is the path of an entry that [os.Stat] found
    under the base directory, and a module outside the root packages has
    no path at all. *)
Theorem Resolve_returns_existing_paths (env : Env) (config : Config)
    (base_dir module : string) (cache cache' : resolver_cache)
    (paths : list string) :
  cache_ok env config base_dir cache →
  Resolve env config base_dir module cache = Ok (paths, cache') →
  (∀ p, p ∈ paths → is_Some (stat env (filepath.Join [base_dir; p])))
  ∧ (allowed config module = false → paths = []).
Proof.
  intros Hcache Hres.
  pose proof (Resolve_cache_ok env config base_dir module cache Hcache) as Hok.
  rewrite Hres in Hok. destruct Hok as [_ [cache0 Hfresh]]. split.
  - intros p Hp.
    pose proof (Resolve_paths_exist env config base_dir (String.length module)
                  module paths cache0 ltac:(done) Hfresh p Hp) as Hex.
    unfold exists_path in Hex. by apply bool_decide_eq_true in Hex.
  - intros Hout.
    rewrite (Resolve_outside_roots env config base_dir module ∅) in Hfresh
      by (by rewrite ?lookup_empty).
    by injection Hfresh as <- _.
Qed.

Lemma Resolve_returns_existing_paths_witness :
  (∀ p, p ∈ ["pkg/sub/mod.py"; "pkg/sub/__init__.py"; "pkg/__init__.py"] →
        is_Some (stat scenario.resolver_env (filepath.Join ["."; p])))
  ∧ (allowed scenario.config "pkg.sub.mod" = false →
     ["pkg/sub/mod.py"; "pkg/sub/__init__.py"; "pkg/__init__.py"] = []).
Proof.
  eapply (Resolve_returns_existing_paths scenario.resolver_env scenario.config
            "." "pkg.sub.mod" ∅).
  - apply cache_ok_empty.
  - vm_compute. reflexivity.
Defined.

(** X4: what was resolved before does not change a result.  On a cache of
    earlier results [Resolve] returns the paths it returns on an empty
    cache, and it fails on the one exactly when it fails on the other. *)
Theorem Resolve_independent_of_cache (env : Env) (config : Config)
    (base_dir module : string) (cache : resolver_cache) :
  cache_ok env config base_dir cache →
  match Resolve env config base_dir module cache,
        Resolve env config base_dir module ∅ with
  | Ok r, Ok r0 => r.1 = r0.1 ∧ cache_ok env config base_dir r.2
  | Fatal, Fatal => True
  | _, _ => False
  end.
Proof.
  intros Hcache.
  pose proof (Resolve_cache_ok env config base_dir module cache Hcache) as Hok.
  destruct (Resolve env config base_dir module cache) as [[paths cache']| |];
    [|by rewrite Hok|done].
  destruct Hok as [Hc' [cache0 ->]]. done.
Qed.

Lemma Resolve_independent_of_cache_witness :
  match Resolve scenario.resolver_env scenario.config "." "pkg.sub"
          {["pkg" := ["pkg/__init__.py"]]},
        Resolve scenario.resolver_env scenario.config "." "pkg.sub" ∅ with
  | Ok r, Ok r0 =>
      r.1 = r0.1 ∧ cache_ok scenario.resolver_env scenario.config "." r.2
  | Fatal, Fatal => True
  | _, _ => False
  end.
Proof.
  apply (Resolve_independent_of_cache scenario.resolver_env scenario.config "."
           "pkg.sub" {["pkg" := ["pkg/__init__.py"]]}).
  intros module paths [<- <-]%lookup_singleton_Some.
  eexists. vm_compute. reflexivity.
Defined.

(** ** Templates and exclusion patterns *)

Lemma replace_go_without_dollar (rest new : string) (s : string) :
  Forall (λ c, c ≠ "$"%char) (list_ascii_of_string s) →
  strings.replace_go (String "$" rest) new 0 s = s.
Proof.
  induction s as [|c s IH]; [done|].
  cbn [list_ascii_of_string]. intros [Hc Hs]%Forall_cons.
  cbn [strings.replace_go String.prefix].
  destruct (ascii_dec "$" c) as [<-|_]; [done|]. by rewrite IH.
Qed.

Lemma applyOnTemplate_fold_without_dollar (l : list (nat * string))
    (template : string) :
  Forall (λ c, c ≠ "$"%char) (list_ascii_of_string template) →
  fold_left
    (λ out (im : nat * string),
       strings.ReplaceAll out ("$" +:+ pretty (im.1 : nat)) im.2)
    l template
  = template.
Proof.
  intros Hd. induction l as [|[i m] l IH]; [done|].
  cbn [fold_left fst snd].
  change ("$" +:+ pretty i) with (String "$" (pretty i)).
  unfold strings.ReplaceAll at 2.
  by rewrite replace_go_without_dollar.
Qed.

(** X5: templates without a group reference are taken as they are written.
    [applyOnTemplates] returns one string for each template, in the order
    of the templates; with no regular-expression match (the actions of a
    path rule) every template is returned unchanged, and with any match a
    template that holds no dollar sign is returned unchanged. *)
Theorem applyOnTemplates_literal (res : list string) (templates : list string) :
  length (applyOnTemplates res templates) = length templates
  ∧ applyOnTemplates [] templates = templates
  ∧ (Forall
       (λ template, Forall (λ c, c ≠ "$"%char) (list_ascii_of_string template))
       templates →
     applyOnTemplates res templates = templates).
Proof.
  unfold applyOnTemplates. split_and!.
  - by rewrite length_fmap.
  - induction templates as [|t ts IH]; [done|]. by rewrite fmap_cons, IH.
  - induction 1 as [|t ts Ht _ IH]; [done|].
    rewrite fmap_cons, IH. f_equal.
    by apply applyOnTemplate_fold_without_dollar.
Qed.

(** X6: [checkExcludePatterns] stops at the first pattern that matches or
    cannot be matched.  It answers true exactly when some pattern matches
    and every pattern before it was tried and did not match, false exactly
    when no pattern matches, and it fails exactly when a malformed pattern
    comes before any match; the patterns after the first match are not
    looked at. *)
Theorem checkExcludePatterns_first_match (env : Env) (patterns : list string)
    (file : string) :
  (checkExcludePatterns env patterns file = Ok true ↔
   ∃ before p after,
     patterns = before ++ p :: after
     ∧ Forall (λ q, glob_match env q file = Some false) before
     ∧ glob_match env p file = Some true)
  ∧ (checkExcludePatterns env patterns file = Ok false ↔
     Forall (λ q, glob_match env q file = Some false) patterns)
  ∧ (checkExcludePatterns env patterns file = Fatal ↔
     ∃ before p after,
       patterns = before ++ p :: after
       ∧ Forall (λ q, glob_match env q file = Some false) before
       ∧ glob_match env p file = None).
Proof.
  induction patterns as [|q patterns (IHt & IHf & IHe)].
  - cbn [checkExcludePatterns]. split_and!; split; try done.
    + by intros ([|??] & ? & ? & ? & _).
    + by intros ([|??] & ? & ? & ? & _).
  - cbn [checkExcludePatterns].
    assert (∀ o : option bool,
              (∃ before p after,
                 q :: patterns = before ++ p :: after
                 ∧ Forall (λ q, glob_match env q file = Some false) before
                 ∧ glob_match env p file = o) ↔
              glob_match env q file = o
              ∨ (glob_match env q file = Some false
                 ∧ ∃ before p after,
                     patterns = before ++ p :: after
                     ∧ Forall (λ q, glob_match env q file = Some false) before
                     ∧ glob_match env p file = o)) as Hsplit.
    { intros o. split.
      - intros ([|q' before] & p & after & Heq & Hb & Hp); simplify_eq/=.
        + by left.
        + apply Forall_cons in Hb as [Hq Hb]. right. split; [done|].
          by exists before, p, after.
      - intros [Hq|[Hq (before & p & after & -> & Hb & Hp)]].
        + by exists [], q, patterns.
        + exists (q :: before), p, after. split_and!; [done| |done].
          by apply Forall_cons. }
    rewrite !Hsplit, Forall_cons, <- IHt, <- IHf, <- IHe.
    destruct (glob_match env q file) as [[|]|]; cbn [try mbind result_bind];
      split_and!; split; try done; try tauto; try (intros [?|[? ?]]; done);
      try (intros [? ?]; done); auto.
Qed.

(** X7: a file that is excluded, or that no path rule matches, gets no
    relation of its own.  If [global_exclude] matches the file, or if no
    pattern of [path_rules] matches it, [visitFile] returns with the
    relations and the caches as they were, in whatever order the rules are
    walked. *)
Theorem visitFile_without_rule (env : Env) (config : Config) (base_dir : string)
    (fuel : nat) (file : string) (st : visitor) :
  range_ok env →
  checkExcludePatterns env (GlobalExclude config) file = Ok true
  ∨ (checkExcludePatterns env (GlobalExclude config) file = Ok false
     ∧ ∀ pattern rule,
         PathRules config !! pattern = Some rule →
         glob_match env pattern file = Some false) →
  visitFile env config base_dir fuel file st = Ok st.
Proof.
  intros (Hrange & _ & _) Hcase. unfold visitFile.
  destruct Hcase as [->|[-> Hnone]]; [done|]. cbn [mbind result_bind].
  assert (∀ rule, rule ∈ range_path_rules env [file] (PathRules config) →
                  glob_match env rule.1 file = Some false) as Hall.
  { intros [pattern rule]. rewrite (Hrange [file] (PathRules config)).
    intros ?%elem_of_map_to_list. by apply (Hnone pattern rule). }
  induction (range_path_rules env [file] (PathRules config))
    as [|[pattern rule] l IH]; [done|].
  pose proof (Hall (pattern, rule) ltac:(left)) as Hm. cbn [fst] in Hm.
  assert (apply_path_rule env config base_dir fuel file st (pattern, rule)
          = Ok st) as Hstep
    by (unfold apply_path_rule; cbn [fst snd]; by rewrite Hm).
  cbn [for_each]. rewrite Hstep. cbn [mbind result_bind].
  apply IH. intros r Hin. apply Hall. by right.
Qed.

Lemma visitFile_without_rule_witness :
  visitFile scenario.env scenario.config "." 5 "poetry.lock"
    {| v_gd := ["poetry.lock"]; v_rel := Shared 1; v_cache := ∅; v_regex := ∅ |}
  = Ok {| v_gd := ["poetry.lock"]; v_rel := Shared 1; v_cache := ∅;
          v_regex := ∅ |}.
Proof.
  apply (visitFile_without_rule scenario.env scenario.config "." 5 "poetry.lock").
  - split_and!; intros; simpl; reflexivity.
  - right. split; [vm_compute; reflexivity|].
    intros pattern rule Hin.
    assert (pattern = "tests/**/test_*.py" ∨ pattern = "**/*.py") as [->| ->].
    { destruct (decide (pattern = "tests/**/test_*.py")) as [|Hn1]; [by left|].
      destruct (decide (pattern = "**/*.py")) as [|Hn2]; [by right|].
      exfalso. revert Hin. unfold scenario.config. cbn [PathRules].
      rewrite !lookup_insert_ne by done. by rewrite lookup_empty. }
    all: vm_compute; reflexivity.
Defined.

(** ** The graph [VisitRecursively] builds *)

Lemma for_each_preserves {S A : Type} (J : S → Prop) (b : S → A → result S)
    (l : list A) :
  (∀ s x s', x ∈ l → J s → b s x = Ok s' → J s') →
  ∀ s s', J s → for_each b l s = Ok s' → J s'.
Proof.
  induction l as [|x l IH]; intros Hb s s' HJ; cbn [for_each].
  - by intros [= <-].
  - destruct (b s x) as [s1| |] eqn:Hstep; cbn [mbind result_bind]; [|done..].
    apply IH.
    + intros ??? Hin. apply Hb. by right.
    + apply (Hb s x); [by left|done..].
Qed.

Section visited.
Context (env : Env) (config : Config) (base_dir : string).

Lemma visit_input_visited (fuel : nat) (s s' : graph * list string)
    (file : string) :
  dom_ok s.1 →
  visit_input env config base_dir fuel s file = Ok s' →
  dom_ok s'.1 ∧ all_files_set s'.1 = {[file]} ∪ all_files_set s.1.
Proof.
  unfold visit_input, dom_ok. intros Hdom.
  destruct (decide (file ∈ all_files_set s.1)) as [Hin|Hnotin].
  - intros [= <-]. split; [done|]. set_solver.
  - destruct (visitFile _ _ _ _ _ _) as [v'| |]; cbn [mbind result_bind];
      [|done..].
    intros [= <-]. cbn [fst all_files_set file_relation_map].
    by rewrite dom_insert_L, Hdom.
Qed.

Lemma visit_inputs_visited (fuel : nat) (l : list string) :
  ∀ s s',
    dom_ok s.1 →
    for_each (visit_input env config base_dir fuel) l s = Ok s' →
    dom_ok s'.1
    ∧ all_files_set s'.1 = list_to_set l ∪ all_files_set s.1.
Proof.
  induction l as [|x l IH]; intros s s' Hdom; cbn [for_each].
  - intros [= <-]. split; [done|]. set_solver.
  - destruct (visit_input _ _ _ _ s x) as [s1| |] eqn:Hstep;
      cbn [mbind result_bind]; [|done..].
    apply visit_input_visited in Hstep as [Hdom1 Hset1]; [|done].
    intros Hrest. apply IH in Hrest as [Hdom' Hset']; [|done].
    split; [done|]. rewrite Hset', Hset1. set_solver.
Qed.

Lemma visit_waves_visited (fuel : nat) :
  ∀ g input_files g',
    dom_ok g →
    visit_waves env config base_dir fuel g input_files = Ok g' →
    dom_ok g'
    ∧ all_files_set g ⊆ all_files_set g'
    ∧ ∀ f, f ∈ input_files → f ∈ all_files_set g'.
Proof.
  induction fuel as [|fuel IH]; intros g input_files g' Hdom; [done|].
  cbn [visit_waves].
  destruct (for_each _ input_files (g, [])) as [s| |] eqn:Hwave;
    cbn [mbind result_bind]; [|done..].
  apply visit_inputs_visited in Hwave as [Hdom1 Hset1]; [|done].
  cbn [fst] in Hset1.
  destruct (length s.2 =? 0).
  - intros [= <-]. split; [done|]. rewrite Hset1. set_solver.
  - intros Hrest. apply IH in Hrest as (Hdom' & Hsub & _); [|done].
    split; [done|]. rewrite Hset1 in Hsub. set_solver.
Qed.

End visited.

(** X8: the keys of the relation map are the visited files, and every
    input file is among them.  When [VisitRecursively] returns, a file has
    an entry in [file_relation_map] exactly when it is in [all_files_set],
    and each of the input files is in both. *)
Theorem VisitRecursively_visits_inputs (env : Env) (config : Config)
    (base_dir : string) (fuel : nat) (input_files : list string) (g : graph) :
  VisitRecursively env config base_dir fuel input_files = Ok g →
  dom (relations_of g) = all_files_set g
  ∧ ∀ f, f ∈ input_files → f ∈ all_files_set g.
Proof.
  unfold VisitRecursively. intros Hrun.
  apply (visit_waves_visited env config base_dir fuel _ input_files g) in Hrun
    as (Hdom & _ & Hin).
  - split; [|done]. unfold relations_of. by rewrite dom_fmap_L.
  - unfold dom_ok. cbn [file_relation_map all_files_set]. apply dom_empty_L.
Qed.

Lemma VisitRecursively_visits_inputs_witness :
  ∃ g,
    dom (relations_of g) = all_files_set g
    ∧ ∀ f, f ∈ ["tests/test_foo.py"] → f ∈ all_files_set g.
Proof.
  eexists.
  apply (VisitRecursively_visits_inputs scenario.env scenario.config "." 10
           ["tests/test_foo.py"]).
  vm_compute. reflexivity.
Defined.

(** What is stored for a file, by whether its visit appended a relation. *)
Lemma stored_cases (gd e : list string) (v : visitor) :
  v_gd v = gd → v_rel v = (go_append gd (Shared (length gd)) e).2 →
  let sorted := Sort_slice (v_gd v) (v_rel v) in
  Compact_slice sorted.1 sorted.2
  = match e with
    | [] =>
        (slices.compact (slices.sort gd)
         ++ replicate (length gd - length (slices.compact (slices.sort gd)))
              EmptyString,
         Shared (length (slices.compact (slices.sort gd))))
    | _ => (gd, Own (slices.compact (slices.sort (gd ++ e))))
    end.
Proof.
  intros Hgd Hrel. cbv zeta. rewrite Hgd, Hrel, go_append_full by done.
  cbn [snd]. destruct e as [|x e]; [|done].
  cbn [Sort_slice fst snd]. rewrite firstn_all, skipn_all, !app_nil_r.
  cbn [Compact_slice fst snd].
  pose proof (sort_length gd) as Hlen.
  rewrite (take_ge (slices.sort gd)), (drop_ge (slices.sort gd)) by lia.
  by rewrite app_nil_r.
Qed.

Section entries.
Context (env : Env) (config : Config) (base_dir : string).
Context (Hrange : range_ok env).
Context (Hnodup : NoDup (GlobalDeps config)).

Notation ok := (visitor_ok env config base_dir).
Notation entries_ok := (graph_entries_ok env config base_dir).

Lemma global_deps_sorted_once (gd : list string) :
  gd = GlobalDeps config ∨ gd = slices.sort (GlobalDeps config) →
  gd ≡ₚ GlobalDeps config
  ∧ slices.compact (slices.sort gd) = slices.sort (GlobalDeps config)
  ∧ length (slices.sort (GlobalDeps config)) = length gd.
Proof.
  intros Hgd.
  assert (gd ≡ₚ GlobalDeps config) as Hp
    by (destruct Hgd as [->| ->]; [done|apply sort_perm]).
  split_and!; [done| |by rewrite sort_length, Hp].
  rewrite (sort_unique gd (GlobalDeps config)) by done.
  apply compact_of_NoDup. by rewrite sort_perm.
Qed.

(** What a visit appends is, up to its order, what a visit with an empty
    slice and empty caches finds. *)
Lemma visit_appends_found (fuel : nat) (file : string) (v v' : visitor) :
  ok v →
  visitFile env config base_dir fuel file v = Ok v' →
  ok v'
  ∧ ∃ e found,
      appended v e v' ∧ e ≡ₚ found
      ∧ relations_found env config base_dir fuel file = Ok found.
Proof.
  intros Hv Hvisit.
  set (fresh := {| v_gd := []; v_rel := Own []; v_cache := ∅; v_regex := ∅ |}).
  assert (ok fresh) as Hfresh.
  { split_and!; [done|apply cache_ok_empty|].
    intros p r. cbn [v_regex fresh]. by rewrite lookup_empty. }
  pose proof (agree_visitFile env env config base_dir (same_tree_refl env)
                Hrange Hrange fuel file v fresh Hv Hfresh) as Hagree.
  rewrite Hvisit in Hagree.
  apply agree_Ok_l in Hagree as (w & Hw & Hv' & _ & e & e' & Hp & He & He').
  split; [done|]. exists e, e'. split_and!; [done..|].
  unfold relations_found. fold fresh. rewrite Hw. cbn [mbind result_bind].
  f_equal. unfold id in He'.
  by rewrite (appended_items fresh w e') by done.
Qed.

Lemma visit_input_entries (inputs : list string) (fuel : nat)
    (s s' : graph * list string) (file : string) :
  entries_ok s.1 → pending_ok s.1 inputs s.2 →
  visit_input env config base_dir fuel s file = Ok s' →
  entries_ok s'.1 ∧ pending_ok s'.1 inputs s'.2.
Proof.
  intros ((Hc & Hr & Hlen) & Hgd & Hentries) Hpending. unfold visit_input.
  destruct (decide (file ∈ all_files_set s.1)) as [Hin|Hnotin].
  { intros [= <-]. by split_and!. }
  set (v := {| v_gd := g_gd s.1; v_rel := Shared (length (GlobalDeps config));
               v_cache := g_cache s.1; v_regex := g_regex s.1 |}).
  assert (ok v) as Hv by (split_and!; [by simpl|done..]).
  destruct (visitFile env config base_dir fuel file v) as [v'| |] eqn:Hvisit;
    cbn [mbind result_bind]; [|done..].
  destruct (visit_appends_found fuel file v v' Hv Hvisit)
    as ((_ & Hc' & Hr') & e & found & [Hgd' Hrel'] & Hp & Hfound).
  cbn [v_gd v_rel v] in Hgd', Hrel'. rewrite <- Hlen in Hrel'.
  pose proof (stored_cases (g_gd s.1) e v' Hgd' Hrel') as Hstored.
  cbv zeta in Hstored. rewrite Hstored. clear Hstored.
  destruct (global_deps_sorted_once (g_gd s.1) Hgd) as (Hperm & Hsorted & Hl).
  assert (slices.compact (slices.sort (g_gd s.1 ++ e))
          = slices.compact (slices.sort (GlobalDeps config ++ found))) as Hitems
    by (by rewrite (sort_unique (g_gd s.1 ++ e) (GlobalDeps config ++ found))
          by (by apply Permutation_app)).
  destruct e as [|x e]; intros [= <-]; cbn [fst snd].
  - (* nothing appended: the array itself is sorted in place *)
    apply Permutation_nil_l in Hp as <-.
    rewrite Hsorted, Hl, Nat.sub_diag. cbn [replicate]. rewrite app_nil_r.
    rewrite !app_nil_r in Hitems.
    assert (slice_items (slices.sort (GlobalDeps config))
              (Shared (length (g_gd s.1)))
            = slices.sort (GlobalDeps config)) as Hread
      by (cbn [slice_items]; rewrite <- Hl; apply firstn_all).
    assert (∀ file0 s0, file_relation_map s.1 !! file0 = Some s0 →
              slice_items (slices.sort (GlobalDeps config)) s0
              = slice_items (g_gd s.1) s0) as Hsame.
    { intros file0 s0 Hs0. destruct (Hentries file0 s0 Hs0) as [_ Hshared].
      destruct s0 as [k|l]; [by rewrite Hshared|done]. }
    split.
    + split_and!; cbn [g_gd g_cache g_regex file_relation_map].
      * split_and!; [done..|]. cbn [g_gd]. by rewrite Hl.
      * by right.
      * intros file0 s0 [[<- <-]|[Hne Hs0]]%lookup_insert_Some.
        -- split; [|done]. exists fuel, []. split; [done|].
           cbn [g_gd]. rewrite Hread, app_nil_r, <- Hitems. by rewrite Hsorted.
        -- destruct (Hentries file0 s0 Hs0) as [(n & found0 & Hf0 & Hi0) Hsh].
           split; [|by destruct s0]. exists n, found0. split; [done|].
           cbn [g_gd]. by rewrite (Hsame file0 s0 Hs0).
    + intros file0 s0 x. cbn [g_gd file_relation_map all_files_set].
      intros [[<- <-]|[Hne Hs0]]%lookup_insert_Some Hx.
      * right. right. apply elem_of_app. by right.
      * rewrite (Hsame file0 s0 Hs0) in Hx.
        destruct (Hpending file0 s0 x Hs0 Hx) as [?|[?|?]].
        -- left. set_solver.
        -- right. by left.
        -- right. right. apply elem_of_app. by left.
  - (* relations appended: a new array *)
    split.
    + split_and!; cbn [g_gd g_cache g_regex file_relation_map].
      * by split_and!.
      * done.
      * intros file0 s0 [[<- <-]|[Hne Hs0]]%lookup_insert_Some.
        -- split; [|done]. exists fuel, found. split; [done|].
           cbn [slice_items]. exact Hitems.
        -- by apply Hentries.
    + intros file0 s0 y. cbn [g_gd file_relation_map all_files_set].
      intros [[<- <-]|[Hne Hs0]]%lookup_insert_Some Hy.
      * right. right. apply elem_of_app. by right.
      * destruct (Hpending file0 s0 y Hs0 Hy) as [?|[?|?]].
        -- left. set_solver.
        -- right. by left.
        -- right. right. apply elem_of_app. by left.
Qed.

Lemma visit_waves_entries (fuel : nat) :
  ∀ g input_files g',
    dom_ok g → entries_ok g → pending_ok g input_files [] →
    visit_waves env config base_dir fuel g input_files = Ok g' →
    entries_ok g' ∧ pending_ok g' [] [].
Proof.
  induction fuel as [|fuel IH]; intros g input_files g' Hdom Hg Hpend; [done|].
  cbn [visit_waves].
  destruct (for_each _ input_files (g, [])) as [s| |] eqn:Hwave;
    cbn [mbind result_bind]; [|done..].
  pose proof (for_each_preserves
                (λ s, entries_ok s.1 ∧ pending_ok s.1 input_files s.2)
                (visit_input env config base_dir fuel) input_files
                (λ s x s' _ Hs Hstep,
                   visit_input_entries input_files fuel s s' x
                     (proj1 Hs) (proj2 Hs) Hstep)
                (g, []) s (conj Hg Hpend) Hwave) as [Hs Hpend'].
  apply visit_inputs_visited in Hwave as [Hdom' Hset]; [|done].
  assert (∀ pending, (∀ x, x ∈ s.2 → x ∈ pending) →
                     pending_ok s.1 pending []) as Hnext.
  { intros pending Hsub file0 s0 x Hs0 Hx.
    destruct (Hpend' file0 s0 x Hs0 Hx) as [?|[?|?]]; [by left| |].
    - left. rewrite Hset. set_solver.
    - right. left. by apply Hsub. }
  destruct (length s.2 =? 0) eqn:Hlen.
  - intros [= <-]. split; [done|].
    apply Nat.eqb_eq, nil_length_inv in Hlen.
    intros file0 s0 x Hs0 Hx.
    destruct (Hnext [] ltac:(by rewrite Hlen) file0 s0 x Hs0 Hx) as [?|[?|?]];
      auto.
  - apply IH; [done..|]. apply Hnext.
    intros x Hx. by rewrite compact_elem_of, sort_elem_of.
Qed.

Lemma VisitRecursively_entries (fuel : nat) (input_files : list string)
    (g : graph) :
  VisitRecursively env config base_dir fuel input_files = Ok g →
  dom_ok g ∧ entries_ok g ∧ pending_ok g [] [].
Proof.
  unfold VisitRecursively. intros Hrun.
  set (g0 := {| g_gd := GlobalDeps config; all_files_set := ∅;
                file_relation_map := ∅; g_cache := ∅; g_regex := ∅ |}) in *.
  assert (dom_ok g0) as Hdom0
    by (unfold dom_ok; cbn [file_relation_map all_files_set g0];
        apply dom_empty_L).
  split.
  - by apply (visit_waves_visited env config base_dir fuel g0 input_files g).
  - apply (visit_waves_entries fuel g0 input_files g); [done| | |done].
    + split_and!; cbn [g_gd g0 file_relation_map].
      * split_and!; [apply cache_ok_empty| |done].
        intros p r. cbn [g_regex g0]. by rewrite lookup_empty.
      * by left.
      * intros file s. by rewrite lookup_empty.
    + intros file s x. cbn [file_relation_map g0]. by rewrite lookup_empty.
Qed.

Lemma relations_of_lookup (g : graph) (file : string) (l : list string) :
  relations_of g !! file = Some l ↔
  ∃ s, file_relation_map g !! file = Some s ∧ l = slice_items (g_gd g) s.
Proof.
  unfold relations_of. rewrite lookup_fmap.
  destruct (file_relation_map g !! file) as [s|]; cbn.
  - split; [intros [= <-]; eauto|]. by intros (s' & [= <-] & ->).
  - split; [done|]. by intros (? & ? & _).
Qed.

End entries.

(** X9: the entry of a file is the sorted, de-duplicated list of the global
    dependencies and the relations of the file itself.  If [global_deps]
    names no file twice and [VisitRecursively] returns, the entry of every
    file in the relation map is [slices.Compact] of [slices.Sort] of the
    global dependencies followed by what [visitFile] finds for this file
    when it starts from an empty slice and empty caches: the caches and
    the files visited before leave no trace in it.  The entry is sorted,
    has no duplicate, and holds every global dependency. *)
Theorem VisitRecursively_entry (env : Env) (config : Config) (base_dir : string)
    (fuel : nat) (input_files : list string) (g : graph) (file : string)
    (l : list string) :
  range_ok env → NoDup (GlobalDeps config) →
  VisitRecursively env config base_dir fuel input_files = Ok g →
  relations_of g !! file = Some l →
  (∃ n found,
     relations_found env config base_dir n file = Ok found
     ∧ l = slices.compact (slices.sort (GlobalDeps config ++ found)))
  ∧ Sorted slices.string_le l ∧ NoDup l
  ∧ ∀ dep, dep ∈ GlobalDeps config → dep ∈ l.
Proof.
  intros Hrange Hnodup Hrun (s & Hs & ->)%relations_of_lookup.
  destruct (VisitRecursively_entries env config base_dir Hrange Hnodup fuel
              input_files g Hrun) as (_ & (_ & _ & Hentries) & _).
  destruct (Hentries file s Hs) as [(n & found & Hfound & Hitems) _].
  rewrite Hitems.
  destruct (stored_sorted_nodup (GlobalDeps config ++ found))
    as (Hsorted & Hnd & Hin).
  split_and!; [by exists n, found|done..|].
  intros dep Hdep. apply Hin, elem_of_app. by left.
Qed.

Lemma VisitRecursively_entry_witness :
  (∃ n found,
     relations_found scenario.env scenario.config "." n "tests/test_foo.py"
     = Ok found
     ∧ ["pkg/__init__.py"; "pkg/db.py"; "poetry.lock"]
       = slices.compact
           (slices.sort (GlobalDeps scenario.config ++ found)))
  ∧ Sorted slices.string_le ["pkg/__init__.py"; "pkg/db.py"; "poetry.lock"]
  ∧ NoDup ["pkg/__init__.py"; "pkg/db.py"; "poetry.lock"]
  ∧ ∀ dep, dep ∈ GlobalDeps scenario.config →
           dep ∈ ["pkg/__init__.py"; "pkg/db.py"; "poetry.lock"].
Proof.
  eapply (VisitRecursively_entry scenario.env scenario.config "." 10
            ["tests/test_foo.py"] _ "tests/test_foo.py").
  - split_and!; intros; simpl; reflexivity.
  - vm_compute. apply NoDup_singleton.
  - vm_compute. reflexivity.
  - vm_compute. reflexivity.
Defined.

(** X10: the relation map is closed.  If [global_deps] names no file twice
    and [VisitRecursively] returns, every file named in an entry of the
    relation map has been visited and has an entry of its own. *)
Theorem VisitRecursively_closed (env : Env) (config : Config)
    (base_dir : string) (fuel : nat) (input_files : list string) (g : graph)
    (file : string) (l : list string) :
  range_ok env → NoDup (GlobalDeps config) →
  VisitRecursively env config base_dir fuel input_files = Ok g →
  relations_of g !! file = Some l →
  ∀ x, x ∈ l → x ∈ all_files_set g ∧ is_Some (relations_of g !! x).
Proof.
  intros Hrange Hnodup Hrun (s & Hs & ->)%relations_of_lookup x Hx.
  destruct (VisitRecursively_entries env config base_dir Hrange Hnodup fuel
              input_files g Hrun) as (Hdom & _ & Hclosed).
  destruct (Hclosed file s x Hs Hx) as [Hin|[[]%elem_of_nil|[]%elem_of_nil]].
  split; [done|]. apply elem_of_dom. unfold relations_of.
  by rewrite dom_fmap_L, Hdom.
Qed.

Lemma VisitRecursively_closed_witness :
  ∃ g,
    ∀ x, x ∈ ["pkg/__init__.py"; "pkg/db.py"; "poetry.lock"] →
         x ∈ all_files_set g ∧ is_Some (relations_of g !! x).
Proof.
  eexists.
  eapply (VisitRecursively_closed scenario.env scenario.config "." 10
            ["tests/test_foo.py"] _ "tests/test_foo.py").
  - split_and!; intros; simpl; reflexivity.
  - vm_compute. apply NoDup_singleton.
  - vm_compute. reflexivity.
  - vm_compute. reflexivity.
Defined.

(** X11: an excluded file has the sorted global dependencies as its entry.
    If [global_deps] names no file twice, [VisitRecursively] returns and a
    visited file matches [global_exclude], then the entry of the file is
    the global dependencies in ascending order, whatever was visited
    before it. *)
Theorem excluded_file_relations (env : Env) (config : Config)
    (base_dir : string) (fuel : nat) (input_files : list string) (g : graph)
    (file : string) :
  range_ok env → NoDup (GlobalDeps config) →
  VisitRecursively env config base_dir fuel input_files = Ok g →
  file ∈ all_files_set g →
  checkExcludePatterns env (GlobalExclude config) file = Ok true →
  relations_of g !! file = Some (slices.sort (GlobalDeps config)).
Proof.
  intros Hrange Hnodup Hrun Hin Hexcluded.
  destruct (VisitRecursively_entries env config base_dir Hrange Hnodup fuel
              input_files g Hrun) as (Hdom & (_ & _ & Hentries) & _).
  rewrite <- Hdom in Hin. apply elem_of_dom in Hin as [s Hs].
  destruct (Hentries file s Hs) as [(n & found & Hfound & Hitems) _].
  unfold relations_found, visitFile in Hfound. rewrite Hexcluded in Hfound.
  cbn in Hfound. injection Hfound as <-.
  apply relations_of_lookup. exists s. split; [done|].
  rewrite Hitems, app_nil_r. symmetry. apply compact_of_NoDup.
  by rewrite sort_perm.
Qed.

Lemma excluded_file_relations_witness :
  ∃ g, relations_of g !! "y.pyc" = Some (slices.sort ["b"; "a"]).
Proof.
  eexists.
  apply (excluded_file_relations scenario_excluded.env scenario_excluded.config
           "." 10 ["x.pyc"; "y.pyc"]).
  - split_and!; intros; simpl; reflexivity.
  - vm_compute. apply NoDup_cons. split; [|apply NoDup_singleton].
    by intros [=]%list_elem_of_singleton.
  - vm_compute. reflexivity.
  - vm_compute. set_solver.
  - vm_compute. reflexivity.
Defined.

(** ** Closures and file hashes *)

Lemma closure_agrees (m1 m2 : gmap string (list string)) (file : string) :
  (∀ x, rtc (edge m1) file x → m1 !! x = m2 !! x) →
  ∀ y, rtc (edge m1) file y ↔ rtc (edge m2) file y.
Proof.
  intros Hsame y. split.
  - revert y. apply (rtc_ind_r (λ y, rtc (edge m2) file y) file); [done|].
    intros y z Hy Hedge IH. apply (rtc_r _ y); [done|].
    unfold edge, related in *. by rewrite <- (Hsame y Hy).
  - revert y.
    apply (rtc_ind_r (λ y, rtc (edge m1) file y) file); [done|].
    intros y z _ Hedge IH. apply (rtc_r _ y); [done|].
    unfold edge, related in *. by rewrite (Hsame y IH).
Qed.

Lemma sorted_nodup_unique (l1 l2 : list string) :
  Sorted slices.string_le l1 → Sorted slices.string_le l2 →
  NoDup l1 → NoDup l2 → (∀ x, x ∈ l1 ↔ x ∈ l2) → l1 = l2.
Proof.
  intros Hs1 Hs2 Hn1 Hn2 Hin.
  apply (Sorted_unique slices.string_le); [done..|].
  by apply NoDup_Permutation.
Qed.

Lemma BuildFullDepList_agrees (m1 m2 : gmap string (list string))
    (file : string) :
  (∀ x, rtc (edge m1) file x → m1 !! x = m2 !! x) →
  BuildFullDepList m1 file = BuildFullDepList m2 file.
Proof.
  intros Hsame.
  destruct (BuildFullDepList_spec m1 file) as (l1 & -> & Hs1 & Hn1 & Hin1).
  destruct (BuildFullDepList_spec m2 file) as (l2 & -> & Hs2 & Hn2 & Hin2).
  f_equal. apply sorted_nodup_unique; [done..|].
  intros x. by rewrite Hin1, Hin2, (closure_agrees m1 m2 file Hsame).
Qed.

(** X12: the closure of a file depends on the entries of the files it
    reaches only.  Two relation maps that agree on every file reachable
    from [file] in the first give the same list. *)
Theorem BuildFullDepList_local (m1 m2 : gmap string (list string))
    (file : string) :
  (∀ x, rtc (edge m1) file x → m1 !! x = m2 !! x) →
  BuildFullDepList m1 file = BuildFullDepList m2 file.
Proof.
  intros Hsame.
  destruct (BuildFullDepList_spec m1 file) as (l1 & -> & Hs1 & Hn1 & Hin1).
  destruct (BuildFullDepList_spec m2 file) as (l2 & -> & Hs2 & Hn2 & Hin2).
  f_equal. apply sorted_nodup_unique; [done..|].
  intros x. by rewrite Hin1, Hin2, (closure_agrees m1 m2 file Hsame).
Qed.

Lemma BuildFullDepList_local_witness :
  BuildFullDepList {["a" := ["b"]; "c" := ["a"]]} "a"
  = BuildFullDepList {["a" := ["b"]; "c" := ["d"; "e"]]} "a".
Proof.
  apply BuildFullDepList_local. intros x Hx.
  assert (x = "a" ∨ x = "b") as [->| ->]; [|done..].
  revert x Hx. apply (rtc_ind_r (λ x, x = "a" ∨ x = "b") "a"); [by left|].
  intros y z _ Hedge [->| ->]; unfold edge, related in Hedge;
    vm_compute in Hedge.
  - apply list_elem_of_singleton in Hedge as ->. by right.
  - by apply elem_of_nil in Hedge.
Defined.

(** X13: closures compose.  A file missing from the relation map has the
    closure that holds the file alone; and the closure of a file holds the
    whole closure of each of its members. *)
Theorem BuildFullDepList_contains_closures (m : gmap string (list string)) :
  (∀ file, m !! file = None → BuildFullDepList m file = Ok [file])
  ∧ (∀ file dep l l',
       BuildFullDepList m file = Ok l → dep ∈ l →
       BuildFullDepList m dep = Ok l' →
       ∀ x, x ∈ l' → x ∈ l).
Proof.
  split.
  - intros file Hnone.
    destruct (BuildFullDepList_spec m file) as (l & -> & Hs & Hn & Hin).
    f_equal. apply sorted_nodup_unique; [done|repeat constructor|done| |].
    + apply NoDup_singleton.
    + intros x. rewrite Hin, list_elem_of_singleton. split; [|by intros ->].
      intros Hrtc. apply rtc_inv in Hrtc as [->|(y & Hedge & _)]; [done|].
      unfold edge, related in Hedge. rewrite Hnone in Hedge.
      by apply elem_of_nil in Hedge.
  - intros file dep l l' Hl Hdep Hl' x Hx.
    destruct (BuildFullDepList_spec m file) as (l0 & Hl0 & _ & _ & Hin).
    destruct (BuildFullDepList_spec m dep) as (l1 & Hl1 & _ & _ & Hin').
    rewrite Hl in Hl0. rewrite Hl' in Hl1. simplify_eq.
    apply Hin. etrans; [by apply Hin|by apply Hin'].
Qed.

Lemma hashes_loop (env : Env) (base_dir : string) (l : list string) :
  ∀ h0 : gmap string string,
    match
      for_each
        (λ (fileHashes : gmap string string) file_name,
           file_data_bytes ←
             try (read_file env (filepath.Join [base_dir; file_name]));
           Ok (<[file_name := sha256_Sum256 env file_data_bytes]> fileHashes))
        l h0
    with
    | Ok h =>
        (∀ file, file ∈ l →
                 is_Some (read_file env (filepath.Join [base_dir; file])))
        ∧ ∀ file,
            h !! file =
            if decide (file ∈ l)
            then sha256_Sum256 env
                   <$> read_file env (filepath.Join [base_dir; file])
            else h0 !! file
    | Fatal =>
        ∃ file, file ∈ l
                ∧ read_file env (filepath.Join [base_dir; file]) = None
    | OutOfFuel => False
    end.
Proof.
  induction l as [|x l IH]; intros h0; cbn [for_each].
  - split; [by intros ? ?%elem_of_nil|]. intros file.
    by rewrite decide_False by apply not_elem_of_nil.
  - destruct (read_file env (filepath.Join [base_dir; x])) as [data|] eqn:Hx;
      cbn [try mbind result_bind].
    2: { exists x. split; [left|done]. }
    specialize (IH (<[x := sha256_Sum256 env data]> h0)).
    destruct (for_each _ l _) as [h| |]; [|by destruct IH as (f & ? & ?);
                                             exists f; split; [right|]|done].
    destruct IH as [Hread Hh]. split.
    + intros file [->|?]%elem_of_cons; [by rewrite Hx|by apply Hread].
    + intros file. rewrite Hh.
      destruct (decide (file ∈ l)) as [Hin|Hnotin].
      * by rewrite decide_True by (by right).
      * destruct (decide (file = x)) as [->|Hne].
        -- rewrite decide_True by left. by rewrite lookup_insert_eq, Hx.
        -- rewrite lookup_insert_ne by done.
           rewrite decide_False; [done|].
           by intros [?|?]%elem_of_cons.
Qed.

Lemma CalculateFileHashes_result (env : Env)
    (all_files_set : gset string) (base_dir : string) :
  match CalculateFileHashes env all_files_set base_dir with
  | Ok fileHashes =>
      dom fileHashes = all_files_set
      ∧ ∀ file, file ∈ all_files_set →
          ∃ data, read_file env (filepath.Join [base_dir; file]) = Some data
                  ∧ fileHashes !! file = Some (sha256_Sum256 env data)
  | Fatal =>
      ∃ file, file ∈ all_files_set
              ∧ read_file env (filepath.Join [base_dir; file]) = None
  | OutOfFuel => False
  end.
Proof.
  unfold CalculateFileHashes.
  pose proof (hashes_loop env base_dir (elements all_files_set) ∅) as Hloop.
  destruct (for_each _ (elements all_files_set) ∅) as [h| |]; [| |done].
  - destruct Hloop as [Hread Hh].
    assert (∀ file, file ∈ all_files_set →
              ∃ data, read_file env (filepath.Join [base_dir; file]) = Some data
                      ∧ h !! file = Some (sha256_Sum256 env data)) as Hall.
    { intros file Hin. destruct (Hread file) as [data Hdata];
        [by apply elem_of_elements|].
      exists data. split; [done|].
      rewrite Hh, decide_True by (by apply elem_of_elements).
      by rewrite Hdata. }
    split; [|done]. apply set_eq. intros file. rewrite elem_of_dom. split.
    + intros [d Hd]. rewrite Hh in Hd.
      destruct (decide (file ∈ elements all_files_set)) as [Hin|_];
        [by apply elem_of_elements in Hin|by rewrite lookup_empty in Hd].
    + intros Hin. destruct (Hall file Hin) as (data & _ & ->). eauto.
  - destruct Hloop as (file & Hin & Hnone). exists file.
    split; [by apply elem_of_elements in Hin|done].
Qed.

(** X14: [CalculateFileHashes] hashes every visited file or ends the run.
    When it returns, the table has exactly the visited files as keys and
    maps each to the SHA-256 of the bytes read at [base_dir/file]; it ends
    the run only if one of the visited files cannot be read. *)
Theorem CalculateFileHashes_all_or_nothing (env : Env)
    (all_files_set : gset string) (base_dir : string) :
  match CalculateFileHashes env all_files_set base_dir with
  | Ok fileHashes =>
      dom fileHashes = all_files_set
      ∧ ∀ file, file ∈ all_files_set →
          ∃ data, read_file env (filepath.Join [base_dir; file]) = Some data
                  ∧ fileHashes !! file = Some (sha256_Sum256 env data)
  | Fatal =>
      ∃ file, file ∈ all_files_set
              ∧ read_file env (filepath.Join [base_dir; file]) = None
  | OutOfFuel => False
  end.
Proof.
  unfold CalculateFileHashes.
  pose proof (hashes_loop env base_dir (elements all_files_set) ∅) as Hloop.
  destruct (for_each _ (elements all_files_set) ∅) as [h| |]; [| |done].
  - destruct Hloop as [Hread Hh].
    assert (∀ file, file ∈ all_files_set →
              ∃ data, read_file env (filepath.Join [base_dir; file]) = Some data
                      ∧ h !! file = Some (sha256_Sum256 env data)) as Hall.
    { intros file Hin. destruct (Hread file) as [data Hdata];
        [by apply elem_of_elements|].
      exists data. split; [done|].
      rewrite Hh, decide_True by (by apply elem_of_elements).
      by rewrite Hdata. }
    split; [|done]. apply set_eq. intros file. rewrite elem_of_dom. split.
    + intros [d Hd]. rewrite Hh in Hd.
      destruct (decide (file ∈ elements all_files_set)) as [Hin|_];
        [by apply elem_of_elements in Hin|by rewrite lookup_empty in Hd].
    + intros Hin. destruct (Hall file Hin) as (data & _ & ->). eauto.
  - destruct Hloop as (file & Hin & Hnone). exists file.
    split; [by apply elem_of_elements in Hin|done].
Qed.

(** ** The outputs of [main] *)

(** What a run of [main] that returns has done. *)
Lemma main_inversion (env : Env) (fuel : nat) (args : Args) (r : run) :
  main env fuel (Some args) = Ok r →
  (exit_status r = 1%Z ∧ recursive_deps_json r = None
   ∧ dep_hashes_json r = None)
  ∨ ∃ config config_hash chunks g,
      let base_dir :=
        filepath.Join [filepath.Dir (ConfigPath args); BaseDir config] in
      let input_files := slices.compact (slices.sort chunks) in
      LoadConfig env (ConfigPath args) = Some (config, config_hash)
      ∧ collect_inputs env base_dir (effective_inputs args config) = Ok chunks
      ∧ VisitRecursively env config base_dir fuel input_files = Ok g
      ∧ exit_status r = 0%Z
      ∧ relations_json r
        = (if String.eqb (OutRelations args) EmptyString then None
           else Some (relations_of g))
      ∧ if done_after_relations args
        then recursive_deps_json r = None ∧ dep_hashes_json r = None
        else
          ∃ fileHashes t,
            (if String.eqb (OutDepHashes args) EmptyString then Ok ∅
             else CalculateFileHashes env (all_files_set g) base_dir)
            = Ok fileHashes
            ∧ for_each (hash_task env args config_hash (relations_of g) fileHashes)
                (completion_order env input_files) (None, ∅)
              = Ok t
            ∧ recursive_deps_json r = t.1
            ∧ dep_hashes_json r
              = (if String.eqb (OutDepHashes args) EmptyString then None
                 else Some t.2).
Proof.
  unfold main. intros Hmain.
  destruct (LoadConfig env (ConfigPath args)) as [[config config_hash]|]
    eqn:Hload; [|left; by simplify_eq/=].
  destruct (for_each _ (effective_inputs args config) []) as [chunks| |]
    eqn:Hglob; [|left; by simplify_eq/=..].
  destruct (length (slices.compact (slices.sort chunks)) =? 0);
    [left; by simplify_eq/=|].
  destruct (VisitRecursively _ _ _ _ _) as [g| |] eqn:Hvisit;
    [|left; by simplify_eq/=|done].
  fold (done_after_relations args) in Hmain.
  destruct (done_after_relations args) eqn:Hquick.
  { right. exists config, config_hash, chunks, g. cbv zeta.
    by simplify_eq/=. }
  destruct (if String.eqb (OutDepHashes args) EmptyString then Ok ∅
            else CalculateFileHashes env (all_files_set g) _)
    as [fileHashes| |] eqn:Hhashes; [|left; by simplify_eq/=..].
  destruct (for_each _ (completion_order env _) _) as [[rd dh]| |] eqn:Htasks;
    [|done..].
  right. exists config, config_hash, chunks, g. cbv zeta.
  injection Hmain as <-. split_and!; [done..|].
  exists fileHashes, (rd, dh). by split_and!.
Qed.

Section steps.
Context (env : Env) (args : Args) (config_hash : string).
Context (relations : gmap string (list string)) (fileHashes : gmap string string).

Notation step := (hash_step env args config_hash relations fileHashes).

Lemma hash_steps_dom (l : list string)
    (s : option (list string) * gmap string string) :
  String.eqb (OutDepHashes args) EmptyString = false →
  dom (fold_left step l s).2 = list_to_set l ∪ dom s.2.
Proof.
  intros Hout. revert s. induction l as [|x l IH]; intros s; cbn [fold_left].
  - set_solver.
  - rewrite IH.
    assert (dom (step s x).2 = {[x]} ∪ dom s.2) as ->
      by (unfold hash_step; rewrite Hout; cbn [snd]; by rewrite dom_insert_L).
    set_solver.
Qed.

Lemma hash_steps_recursive (l : list string)
    (s : option (list string) * gmap string string) :
  (fold_left step l s).1
  = if decide (OutRecursiveDepsFor args ∈ l)
    then Some match BuildFullDepList relations (OutRecursiveDepsFor args) with
              | Ok closure => closure
              | _ => []
              end
    else s.1.
Proof.
  revert s. induction l as [|x l IH]; intros s; cbn [fold_left].
  - by rewrite decide_False by apply not_elem_of_nil.
  - rewrite IH. destruct (decide (OutRecursiveDepsFor args ∈ l)) as [Hin|Hnotin].
    + by rewrite decide_True by (by right).
    + unfold hash_step. cbn [fst].
      destruct (String.eqb (OutRecursiveDepsFor args) x) eqn:Hx.
      * apply String.eqb_eq in Hx as <-. by rewrite decide_True by left.
      * apply String.eqb_neq in Hx. rewrite decide_False; [done|].
        by intros [?|?]%elem_of_cons.
Qed.

End steps.

(** X15: one digest for each input file, and for no other file.  When
    [main] writes the dependency hashes, the keys of the table are the
    files the input patterns match; a file that is reached as a
    dependency only has no digest of its own. *)
Theorem main_one_digest_per_input (env : Env) (fuel : nat) (args : Args)
    (r : run) (dep_hashes : gmap string string) :
  range_ok env →
  main env fuel (Some args) = Ok r →
  dep_hashes_json r = Some dep_hashes →
  ∃ config config_hash chunks,
    LoadConfig env (ConfigPath args) = Some (config, config_hash)
    ∧ collect_inputs env
        (filepath.Join [filepath.Dir (ConfigPath args); BaseDir config])
        (effective_inputs args config)
      = Ok chunks
    ∧ ∀ file, is_Some (dep_hashes !! file) ↔ file ∈ chunks.
Proof.
  intros (_ & _ & Horder) Hmain Hjson.
  apply main_inversion in Hmain
    as [(_ & _ & Hnone)|(config & config_hash & chunks & g & Hrun)];
    [by rewrite Hnone in Hjson|].
  cbv zeta in Hrun. destruct Hrun as (Hload & Hglob & _ & _ & _ & Hrest).
  exists config, config_hash, chunks. split_and!; [done..|].
  destruct (done_after_relations args);
    [destruct Hrest as [_ Hnone]; by rewrite Hnone in Hjson|].
  destruct Hrest as (fileHashes & t & _ & Htasks & _ & Hdh).
  rewrite Hjson in Hdh.
  destruct (String.eqb (OutDepHashes args) EmptyString) eqn:Hout; [done|].
  injection Hdh as ->. rewrite hash_tasks_fold in Htasks.
  injection Htasks as <-. intros file.
  rewrite <- elem_of_dom, hash_steps_dom by done.
  cbn [snd]. rewrite dom_empty_L, elem_of_union, elem_of_list_to_set, Horder.
  rewrite compact_elem_of, sort_elem_of. set_solver.
Qed.

Lemma main_one_digest_per_input_witness :
  ∃ config config_hash chunks,
    LoadConfig scenario.env "repo_dagger.yaml" = Some (config, config_hash)
    ∧ collect_inputs scenario.env
        (filepath.Join [filepath.Dir "repo_dagger.yaml"; BaseDir config])
        (effective_inputs
           (scenario.args "repo_dagger.yaml" EmptyString "hashes.json") config)
      = Ok chunks
    ∧ ∀ file,
        is_Some
          (({["tests/test_foo.py" := hex zero_hash]} : gmap string string)
             !! file)
        ↔ file ∈ chunks.
Proof.
  eapply (main_one_digest_per_input scenario.env 10
            (scenario.args "repo_dagger.yaml" EmptyString "hashes.json")).
  - split_and!; intros; simpl; reflexivity.
  - vm_compute. reflexivity.
  - vm_compute. reflexivity.
Defined.

(** X16: the recursive dependencies are written for an input file only.
    In a run of [main] that ends with status 0 and goes on after the
    relations, the list handed to [-out-recursive-deps] is the closure of
    the file named by [-out-recursive-deps-for] if the input patterns
    match that file; if they do not, no list is written and the run still
    ends with status 0. *)
Theorem main_recursive_deps_for_input_only (env : Env) (fuel : nat)
    (args : Args) (r : run) :
  range_ok env →
  main env fuel (Some args) = Ok r →
  exit_status r = 0%Z →
  ∃ config config_hash chunks g,
    LoadConfig env (ConfigPath args) = Some (config, config_hash)
    ∧ collect_inputs env
        (filepath.Join [filepath.Dir (ConfigPath args); BaseDir config])
        (effective_inputs args config)
      = Ok chunks
    ∧ VisitRecursively env config
        (filepath.Join [filepath.Dir (ConfigPath args); BaseDir config])
        fuel (slices.compact (slices.sort chunks))
      = Ok g
    ∧ recursive_deps_json r
      = if done_after_relations args then None
        else if decide (OutRecursiveDepsFor args ∈ chunks)
        then match BuildFullDepList (relations_of g) (OutRecursiveDepsFor args)
             with
             | Ok closure => Some closure
             | _ => None
             end
        else None.
Proof.
  intros (_ & _ & Horder) Hmain Hstatus.
  apply main_inversion in Hmain
    as [(Hfail & _)|(config & config_hash & chunks & g & Hrun)];
    [by rewrite Hfail in Hstatus|].
  cbv zeta in Hrun. destruct Hrun as (Hload & Hglob & Hvisit & _ & _ & Hrest).
  exists config, config_hash, chunks, g. split_and!; [done..|].
  destruct (done_after_relations args); [by destruct Hrest|].
  destruct Hrest as (fileHashes & t & _ & Htasks & -> & _).
  rewrite hash_tasks_fold in Htasks. injection Htasks as <-.
  rewrite hash_steps_recursive. cbn [fst].
  destruct (BuildFullDepList_spec (relations_of g) (OutRecursiveDepsFor args))
    as (closure & -> & _).
  destruct (decide (OutRecursiveDepsFor args ∈ chunks)) as [Hin|Hnotin].
  - rewrite decide_True; [done|].
    by rewrite Horder, compact_elem_of, sort_elem_of.
  - rewrite decide_False; [done|].
    by rewrite Horder, compact_elem_of, sort_elem_of.
Qed.

Lemma main_recursive_deps_for_input_only_witness :
  ∃ r config config_hash chunks g,
    LoadConfig scenario.env "repo_dagger.yaml" = Some (config, config_hash)
    ∧ collect_inputs scenario.env
        (filepath.Join [filepath.Dir "repo_dagger.yaml"; BaseDir config])
        (effective_inputs
           {| ConfigPath := "repo_dagger.yaml"; InputFiles := [EmptyString];
              PrintDepStats := false; PrintRevDepStats := false;
              OutDepHashes := EmptyString; OutRelations := EmptyString;
              OutRecursiveDeps := "deps.json";
              OutRecursiveDepsFor := "pkg/db.py"; HashSalt := EmptyString |}
           config)
      = Ok chunks
    ∧ VisitRecursively scenario.env config
        (filepath.Join [filepath.Dir "repo_dagger.yaml"; BaseDir config])
        10 (slices.compact (slices.sort chunks))
      = Ok g
    ∧ recursive_deps_json r
      = if done_after_relations
             {| ConfigPath := "repo_dagger.yaml"; InputFiles := [EmptyString];
                PrintDepStats := false; PrintRevDepStats := false;
                OutDepHashes := EmptyString; OutRelations := EmptyString;
                OutRecursiveDeps := "deps.json";
                OutRecursiveDepsFor := "pkg/db.py"; HashSalt := EmptyString |}
        then None
        else if decide ("pkg/db.py" ∈ chunks)
        then match BuildFullDepList (relations_of g) "pkg/db.py" with
             | Ok closure => Some closure
             | _ => None
             end
        else None.
Proof.
  eexists.
  eapply (main_recursive_deps_for_input_only scenario.env 10
            {| ConfigPath := "repo_dagger.yaml"; InputFiles := [EmptyString];
               PrintDepStats := false; PrintRevDepStats := false;
               OutDepHashes := EmptyString; OutRelations := EmptyString;
               OutRecursiveDeps := "deps.json";
               OutRecursiveDepsFor := "pkg/db.py"; HashSalt := EmptyString |}).
  - split_and!; intros; simpl; reflexivity.
  - vm_compute. reflexivity.
  - reflexivity.
Defined.

(** ** What a digest depends on *)

Lemma digest_input_ext (salt config_hash file_name : string)
    (closure : list string) (f g : string → string) :
  (∀ dep, dep ∈ closure → f dep = g dep) →
  digest_input salt config_hash file_name closure f
  = digest_input salt config_hash file_name closure g.
Proof.
  intros Hfg. unfold digest_input. do 4 f_equal.
  induction closure as [|d closure IH]; [done|].
  rewrite !fmap_cons. cbn [fold_right].
  rewrite (Hfg d) by left. f_equal. apply IH. intros dep Hdep. apply Hfg.
  by right.
Qed.

Lemma dep_hash_digest_input (env : Env) (args : Args) (config_hash : string)
    (fileHashes : gmap string string) (closure : list string)
    (file_name : string) :
  dep_hash env args config_hash fileHashes closure file_name
  = hex (sha256_Sum256 env
           (digest_input (HashSalt args) config_hash file_name closure
              (λ dep, default zero_hash (fileHashes !! dep)))).
Proof.
  unfold dep_hash, digest_input.
  rewrite (hasher_fold (λ dep, default zero_hash (fileHashes !! dep))).
  unfold hasher_Write.
  change (EmptyString +:+ le_uint64 ALGORITHM_VERSION)
    with (le_uint64 ALGORITHM_VERSION).
  by rewrite !string_app_assoc.
Qed.

(** X17: the digest of a file depends on its closure only.  If two relation
    maps and two tables of file hashes agree on every file of the closure
    of [file_name], the task of [main] for [file_name] stores the same
    digest and the same recursive dependencies with either; a change of a
    file outside the closure changes neither. *)
Theorem digest_depends_on_closure_only (env : Env) (args : Args)
    (config_hash : string) (m1 m2 : gmap string (list string))
    (h1 h2 : gmap string string) (file_name : string) (closure : list string)
    (s : option (list string) * gmap string string) :
  BuildFullDepList m1 file_name = Ok closure →
  (∀ x, x ∈ closure → m1 !! x = m2 !! x ∧ h1 !! x = h2 !! x) →
  hash_task env args config_hash m1 h1 s file_name
  = hash_task env args config_hash m2 h2 s file_name.
Proof.
  intros Hclosure Hsame.
  destruct (BuildFullDepList_spec m1 file_name) as (l & Hl & _ & _ & Hin).
  rewrite Hclosure in Hl. injection Hl as <-.
  unfold hash_task.
  rewrite <- (BuildFullDepList_agrees m1 m2 file_name)
    by (intros x Hx; by apply Hsame, Hin).
  rewrite Hclosure. cbn [mbind result_bind].
  rewrite !dep_hash_digest_input.
  rewrite (digest_input_ext (HashSalt args) config_hash file_name closure
             (λ dep, default zero_hash (h1 !! dep))
             (λ dep, default zero_hash (h2 !! dep))); [done|].
  intros dep Hdep. by destruct (Hsame dep Hdep) as [_ ->].
Qed.

Lemma digest_depends_on_closure_only_witness :
  hash_task scenario.env
    (scenario.args "repo_dagger.yaml" EmptyString "hashes.json") "h"
    {["a" := ["b"]; "c" := ["a"]]} {["a" := "1"; "b" := "2"; "c" := "3"]}
    (None, ∅) "a"
  = hash_task scenario.env
      (scenario.args "repo_dagger.yaml" EmptyString "hashes.json") "h"
      {["a" := ["b"]; "c" := ["d"]]} {["a" := "1"; "b" := "2"; "c" := "4"]}
      (None, ∅) "a".
Proof.
  apply (digest_depends_on_closure_only _ _ _ _ _ _ _ _ ["a"; "b"]).
  - vm_compute. reflexivity.
  - intros x [->|[->|[]%elem_of_nil]%elem_of_cons]%elem_of_cons;
      split; vm_compute; reflexivity.
Defined.

Lemma closure_visited (env : Env) (config : Config) (base_dir : string)
    (fuel : nat) (input_files : list string) (g : graph) (file : string) :
  range_ok env → NoDup (GlobalDeps config) →
  VisitRecursively env config base_dir fuel input_files = Ok g →
  file ∈ input_files →
  ∀ dep, rtc (edge (relations_of g)) file dep → dep ∈ all_files_set g.
Proof.
  intros Hrange Hnodup Hrun Hin.
  destruct (VisitRecursively_entries env config base_dir Hrange Hnodup fuel
              input_files g Hrun) as (Hdom & _ & Hclosed).
  unfold VisitRecursively in Hrun.
  apply visit_waves_visited in Hrun as (_ & _ & Hinputs);
    [|by unfold dom_ok; cbn [file_relation_map all_files_set];
         apply dom_empty_L].
  apply (rtc_ind_r (λ dep, dep ∈ all_files_set g) file); [by apply Hinputs|].
  intros y z _ Hedge Hy. unfold edge, related in Hedge.
  destruct (relations_of g !! y) as [l|] eqn:Hl;
    [|by apply elem_of_nil in Hedge].
  apply relations_of_lookup in Hl as (s & Hs & ->). cbn in Hedge.
  destruct (Hclosed y s z Hs Hedge) as [?|[[]%elem_of_nil|[]%elem_of_nil]].
  done.
Qed.

(** X18: every byte that goes into a digest comes from a file that was
    read.  For each digest [main] writes, if [global_deps] names no file
    twice, every file of the closure of the input file was visited, was
    read by [CalculateFileHashes], and enters the digest with the SHA-256
    of its content; the all-zero hash of a file missing from the table
    never enters a digest. *)
Theorem main_digest_covers_closure (env : Env) (fuel : nat) (args : Args)
    (r : run) (dep_hashes : gmap string string) (file digest : string) :
  range_ok env →
  main env fuel (Some args) = Ok r →
  dep_hashes_json r = Some dep_hashes →
  dep_hashes !! file = Some digest →
  ∃ config_data config chunks g closure,
    let base_dir :=
      filepath.Join [filepath.Dir (ConfigPath args); BaseDir config] in
    read_file env (ConfigPath args) = Some config_data
    ∧ yaml_Decode env config_data = Some config
    ∧ collect_inputs env base_dir (effective_inputs args config) = Ok chunks
    ∧ VisitRecursively env config base_dir fuel
        (slices.compact (slices.sort chunks))
      = Ok g
    ∧ BuildFullDepList (relations_of g) file = Ok closure
    ∧ (NoDup (GlobalDeps config) →
       (∀ dep, dep ∈ closure →
          dep ∈ all_files_set g
          ∧ is_Some (read_file env (filepath.Join [base_dir; dep])))
       ∧ digest
         = hex (sha256_Sum256 env
                  (digest_input (HashSalt args) (sha256_Sum256 env config_data)
                     file closure
                     (λ dep,
                        sha256_Sum256 env
                          (default EmptyString
                             (read_file env
                                (filepath.Join [base_dir; dep]))))))).
Proof.
  intros Hrange Hmain Hjson Hdigest.
  apply main_inversion in Hmain
    as [(_ & _ & Hnone)|(config & config_hash & chunks & g & Hrun)];
    [by rewrite Hnone in Hjson|].
  cbv zeta in Hrun. destruct Hrun as (Hload & Hglob & Hvisit & _ & _ & Hrest).
  unfold LoadConfig in Hload.
  destruct (read_file env (ConfigPath args)) as [config_data|] eqn:Hread;
    [|done].
  cbn [mbind option_bind] in Hload.
  destruct (yaml_Decode env config_data) as [config'|] eqn:Hdecode; [|done].
  cbn [mbind option_bind] in Hload. injection Hload as -> <-.
  destruct (done_after_relations args);
    [destruct Hrest as [_ Hnone]; by rewrite Hnone in Hjson|].
  destruct Hrest as (fileHashes & t & Hhashes & Htasks & _ & Hdh).
  rewrite Hjson in Hdh.
  destruct (String.eqb (OutDepHashes args) EmptyString) eqn:Hout; [done|].
  injection Hdh as ->.
  destruct (hash_tasks_spec env args _ _ _ _ _ _ Hout Htasks file digest Hdigest)
    as [Hempty|(Hin & closure & Hclosure & ->)];
    [cbn [snd] in Hempty; by rewrite lookup_empty in Hempty|].
  exists config_data, config, chunks, g, closure. cbv zeta.
  split_and!; [done..|]. intros Hnodup.
  destruct Hrange as (Hr1 & Hr2 & Horder).
  rewrite Horder in Hin.
  pose proof (closure_visited env config _ fuel _ g file
                (conj Hr1 (conj Hr2 Horder)) Hnodup Hvisit Hin) as Hvisited.
  destruct (BuildFullDepList_spec (relations_of g) file)
    as (l & Hl & _ & _ & Hreach).
  rewrite Hclosure in Hl. injection Hl as <-.
  pose proof (CalculateFileHashes_result env (all_files_set g)
                (filepath.Join [filepath.Dir (ConfigPath args); BaseDir config]))
    as Htable.
  rewrite Hhashes in Htable. destruct Htable as [_ Htable].
  split.
  - intros dep Hdep. apply Hreach, Hvisited in Hdep. split; [done|].
    destruct (Htable dep Hdep) as (data & -> & _). eauto.
  - rewrite dep_hash_digest_input. do 2 f_equal.
    apply digest_input_ext. intros dep Hdep.
    apply Hreach, Hvisited in Hdep.
    destruct (Htable dep Hdep) as (data & -> & ->). done.
Qed.

Lemma main_digest_covers_closure_witness :
  ∃ config_data config chunks g closure,
    read_file scenario.env "repo_dagger.yaml" = Some config_data
    ∧ yaml_Decode scenario.env config_data = Some config
    ∧ collect_inputs scenario.env
        (filepath.Join [filepath.Dir "repo_dagger.yaml"; BaseDir config])
        (effective_inputs
           (scenario.args "repo_dagger.yaml" EmptyString "hashes.json") config)
      = Ok chunks
    ∧ VisitRecursively scenario.env config
        (filepath.Join [filepath.Dir "repo_dagger.yaml"; BaseDir config]) 10
        (slices.compact (slices.sort chunks))
      = Ok g
    ∧ BuildFullDepList (relations_of g) "tests/test_foo.py" = Ok closure
    ∧ (NoDup (GlobalDeps config) →
       (∀ dep, dep ∈ closure →
          dep ∈ all_files_set g
          ∧ is_Some
              (read_file scenario.env
                 (filepath.Join
                    [filepath.Join [filepath.Dir "repo_dagger.yaml";
                                    BaseDir config]; dep])))
       ∧ hex zero_hash
         = hex (sha256_Sum256 scenario.env
                  (digest_input EmptyString
                     (sha256_Sum256 scenario.env config_data)
                     "tests/test_foo.py" closure
                     (λ dep,
                        sha256_Sum256 scenario.env
                          (default EmptyString
                             (read_file scenario.env
                                (filepath.Join
                                   [filepath.Join
                                      [filepath.Dir "repo_dagger.yaml";
                                       BaseDir config]; dep]))))))).
Proof.
  eapply (main_digest_covers_closure scenario.env 10
            (scenario.args "repo_dagger.yaml" EmptyString "hashes.json")
            _ _ "tests/test_foo.py").
  - split_and!; intros; simpl; reflexivity.
  - vm_compute. reflexivity.
  - vm_compute. reflexivity.
  - vm_compute. reflexivity.
Defined.




(** X22: an unreadable visited file ends a run that was asked for
    dependency hashes, after the relations were written.  If the graph
    construction has returned, [-out-dep-hashes] is given and one of the
    visited files cannot be read, [CalculateFileHashes] ends the run with
    status 1, no digest is written, and the relations file, when asked
    for, holds the full relation map. *)
Theorem main_unreadable_file (env : Env) (fuel : nat) (args : Args)
    (config : Config) (config_hash : string) (chunks : list string)
    (g : graph) (file : string) :
  LoadConfig env (ConfigPath args) = Some (config, config_hash) →
  collect_inputs env
    (filepath.Join [filepath.Dir (ConfigPath args); BaseDir config])
    (effective_inputs args config)
  = Ok chunks →
  VisitRecursively env config
    (filepath.Join [filepath.Dir (ConfigPath args); BaseDir config])
    fuel (slices.compact (slices.sort chunks))
  = Ok g →
  String.eqb (OutDepHashes args) EmptyString = false →
  file ∈ all_files_set g →
  read_file env
    (filepath.Join
       [filepath.Join [filepath.Dir (ConfigPath args); BaseDir config]; file])
  = None →
  main env fuel (Some args)
  = Ok {| exit_status := 1; last_log := "Error while reading file ";
          relations_json :=
            if String.eqb (OutRelations args) EmptyString then None
            else Some (relations_of g);
          recursive_deps_json := None; dep_hashes_json := None |}.
Proof.
  intros Hload Hglob Hvisit Hout Hin Hread. unfold main.
  rewrite Hload. unfold collect_inputs in Hglob. rewrite Hglob.
  destruct (slices.compact (slices.sort chunks)) as [|x inputs] eqn:Hinputs.
  { destruct fuel; [done|]. cbn in Hvisit. injection Hvisit as <-.
    by apply elem_of_empty in Hin. }
  cbn [length Nat.eqb]. rewrite Hvisit, Hout, !andb_false_r.
  pose proof (CalculateFileHashes_result env (all_files_set g)
                (filepath.Join [filepath.Dir (ConfigPath args); BaseDir config]))
    as Htable.
  destruct (CalculateFileHashes env (all_files_set g) _) as [h| |];
    [|done..].
  destruct Htable as [_ Htable].
  destruct (Htable file Hin) as (data & Hdata & _). by rewrite Hread in Hdata.
Qed.

Lemma main_unreadable_file_witness :
  ∃ g,
    main scenario_missing.env 10
      (Some (scenario.args "repo_dagger.yaml" "relations.json" "hashes.json"))
    = Ok {| exit_status := 1; last_log := "Error while reading file ";
            relations_json :=
              if String.eqb "relations.json" EmptyString then None
              else Some (relations_of g);
            recursive_deps_json := None; dep_hashes_json := None |}.
Proof.
  eexists.
  eapply (main_unreadable_file scenario_missing.env 10
            (scenario.args "repo_dagger.yaml" "relations.json" "hashes.json")
            _ _ _ _ "missing.lock").
  - vm_compute. reflexivity.
  - vm_compute. reflexivity.
  - vm_compute. reflexivity.
  - reflexivity.
  - vm_compute. set_solver.
  - vm_compute. reflexivity.
Defined.

(** ** The command line *)

(** X19: [parseArgs] accepts the flags exactly when a configuration path
    is given, [-stats-sort] is [count] or [name], and
    [-out-recursive-deps] and [-out-recursive-deps-for] are both given or
    both left out.  The version flag comes first: with it the program
    prints the version and leaves, whatever the other flags are. *)
Theorem parseArgs_accepts (f : Flags) :
  (flag_version f = true → parseArgs f = PrintVersion)
  ∧ (is_Some (parsed_args (parseArgs f)) ↔
     flag_version f = false
     ∧ flag_config f ≠ EmptyString
     ∧ (flag_stats_sort f = "count" ∨ flag_stats_sort f = "name")
     ∧ (flag_out_recursive_deps f = EmptyString
        ↔ flag_out_recursive_deps_for f = EmptyString)).
Proof.
  unfold parseArgs, StatsSortValFromString. split; [by intros ->|].
  destruct (flag_version f); [split; [by intros []|by intros []]|].
  destruct (String.eqb_spec (flag_config f) EmptyString) as [Hc|Hc].
  { split; [by intros []|]. by intros (_ & ? & _). }
  destruct (String.eqb_spec (flag_stats_sort f) "count") as [Hs|Hs];
    [|destruct (String.eqb_spec (flag_stats_sort f) "name") as [Hs'|Hs']].
  3: { split; [by intros []|]. intros (_ & _ & [?|?] & _); done. }
  all: destruct (String.eqb_spec (flag_out_recursive_deps f) EmptyString)
         as [Hr|Hr],
       (String.eqb_spec (flag_out_recursive_deps_for f) EmptyString)
         as [Hf|Hf];
    cbn [Bool.eqb negb parsed_args];
    (split; [intros [? ?]|intros (_ & _ & _ & Hiff)]);
    try done; try (split_and!; auto; tauto); try (exfalso; tauto).
Qed.

Lemma split_go_head (sep : ascii) (s cur : string) :
  ∃ first rest,
    strings.split_go sep cur s = first :: rest
    ∧ String.length cur ≤ String.length first.
Proof.
  revert cur. induction s as [|c s IH]; intros cur; cbn [strings.split_go].
  - by exists cur, [].
  - destruct (Ascii.eqb c sep); [by eexists _, _|].
    destruct (IH (cur +:+ String c EmptyString)) as (first & rest & -> & Hlen).
    exists first, rest. split; [done|].
    assert (String.length (cur +:+ String c EmptyString)
            = S (String.length cur)) as Hcur.
    { clear. induction cur as [|a cur IH]; [done|].
      change (String a cur +:+ String c EmptyString)
        with (String a (cur +:+ String c EmptyString)).
      cbn [String.length]. by rewrite IH. }
    lia.
Qed.

(** X20: [-input-files] replaces the inputs of the configuration only when
    its first element is not empty.  With the flag left out or empty, and
    also when its value starts with a comma, [main] keeps
    [config.Inputs.items]; in every other case the inputs are the value
    split at its commas. *)
Theorem input_files_override (f : Flags) (config : Config) (args : Args) :
  parsed_args (parseArgs f) = Some args →
  effective_inputs args config
  = match flag_input_files f with
    | EmptyString => Inputs config
    | String c _ =>
        if Ascii.eqb c "," then Inputs config
        else strings.Split (flag_input_files f) ","
    end.
Proof.
  unfold parseArgs.
  destruct (flag_version f); [done|].
  destruct (String.eqb (flag_config f) EmptyString); [done|].
  destruct (StatsSortValFromString (flag_stats_sort f)); [|done].
  destruct (negb _); [done|].
  intros [= <-]. unfold effective_inputs. cbn [InputFiles].
  unfold strings.Split.
  destruct (flag_input_files f) as [|c tail]; [done|].
  cbn [strings.split_go].
  destruct (Ascii.eqb c ","); [done|].
  destruct (split_go_head "," tail (EmptyString +:+ String c EmptyString))
    as (first & rest & -> & Hlen).
  change (EmptyString +:+ String c EmptyString) with (String c EmptyString)
    in Hlen.
  destruct first as [|a first]; [cbn [String.length] in Hlen; lia|done].
Qed.

Lemma input_files_override_witness :
  effective_inputs
    {| ConfigPath := "repo_dagger.yaml"; InputFiles := [EmptyString; "a.py"];
       PrintDepStats := false; PrintRevDepStats := false;
       OutDepHashes := EmptyString; OutRelations := EmptyString;
       OutRecursiveDeps := EmptyString; OutRecursiveDepsFor := EmptyString;
       HashSalt := EmptyString |}
    scenario.config
  = Inputs scenario.config.
Proof.
  apply (input_files_override
           {| flag_version := false; flag_config := "repo_dagger.yaml";
              flag_verbose := false; flag_input_files := ",a.py";
              flag_print_dep_stats := false; flag_print_rev_dep_stats := false;
              flag_stats_sort := "count"; flag_self_profile := false;
              flag_out_dep_hashes := EmptyString;
              flag_out_relations := EmptyString;
              flag_out_recursive_deps := EmptyString;
              flag_out_recursive_deps_for := EmptyString;
              flag_hash_salt := EmptyString |}
           scenario.config).
  reflexivity.
Defined.

(** ** The resolver of the earlier revision, against the later one *)

Section resolver_old_facts.
Context (env : Env) (config : Config) (base_dir : string).

Lemma Resolve_old_rec_fuel (fuel1 fuel2 : nat) (module : string)
    (cache : resolver_cache) :
  String.length module ≤ fuel1 → String.length module ≤ fuel2 →
  Resolve_old_rec env config base_dir fuel1 module cache
  = Resolve_old_rec env config base_dir fuel2 module cache.
Proof.
  revert fuel2 module cache.
  induction fuel1 as [|fuel1 IH]; intros fuel2 module cache H1 H2.
  - destruct module; [|simpl in H1; lia]. by destruct fuel2.
  - destruct fuel2 as [|fuel2]; [by destruct module; [|simpl in H2; lia]|].
    simpl. destruct (cache !! module); [done|].
    destruct (negb (allowed config module)); [done|].
    destruct (strings.HasPrefix module "."); [done|].
    destruct (probe_old env base_dir module) as [paths [|]]; [|done].
    destruct (parent_module module) as [parent|] eqn:Hp; [|done].
    apply parent_module_shorter in Hp.
    by rewrite (IH fuel2) by lia.
Qed.

Lemma Resolve_old_unfold (module : string) (cache : resolver_cache) :
  Resolve_old env config base_dir module cache =
  match cache !! module with
  | Some cached => Ok (cached, cache)
  | None =>
      if negb (allowed config module) then Ok ([], <[module := []]> cache)
      else if strings.HasPrefix module "." then Fatal
      else
        let '(paths, visit_parent) := probe_old env base_dir module in
        match (if visit_parent then parent_module module else None) with
        | Some parent =>
            r ← Resolve_old env config base_dir parent cache;
            Ok (paths ++ r.1, <[module := paths ++ r.1]> r.2)
        | None => Ok (paths, <[module := paths]> cache)
        end
  end.
Proof.
  unfold Resolve_old at 1.
  destruct (String.length module) as [|n] eqn:Hn.
  - destruct module; [|done]. simpl.
    destruct (cache !! EmptyString); [done|].
    destruct (negb (allowed config EmptyString)); [done|].
    by destruct (probe_old env base_dir EmptyString) as [paths [|]].
  - simpl. destruct (cache !! module); [done|].
    destruct (negb (allowed config module)); [done|].
    destruct (strings.HasPrefix module "."); [done|].
    destruct (probe_old env base_dir module) as [paths [|]]; [|done].
    destruct (parent_module module) as [parent|] eqn:Hp; [|done].
    apply parent_module_shorter in Hp.
    rewrite (Resolve_old_rec_fuel n (String.length parent)) by lia.
    fold (Resolve_old env config base_dir parent cache).
    by destruct (Resolve_old env config base_dir parent cache) as [[sub c]| |].
Qed.

(** One level: the earlier probes take at most one path, and it is one of
    the paths the later probes take. *)
Lemma probe_old_probe (module : string) :
  length (probe_old env base_dir module).1 ≤ 1
  ∧ (∀ p, p ∈ (probe_old env base_dir module).1 →
          p ∈ (probe env base_dir module).1)
  ∧ ((exists_path env base_dir (strings.ReplaceAll module "." "/") = true →
      is_dir env base_dir (strings.ReplaceAll module "." "/") = true) →
     (probe_old env base_dir module).2 = true →
     (probe env base_dir module).2 = true).
Proof.
  rewrite probe_spec. unfold probe_old, form_exists, candidates.
  cbn [List.filter existsb fst snd].
  destruct (exists_path env base_dir
              (filepath.Join [strings.ReplaceAll module "." "/"; "__init__.py"]));
    [cbn [fst snd length orb]; split_and!; [lia| |done];
     by intros p ->%list_elem_of_singleton; left|].
  destruct (exists_path env base_dir (strings.ReplaceAll module "." "/"));
    [cbn [fst snd length orb]; split_and!; [lia|by intros p ?%elem_of_nil|];
     intros Hdir _; rewrite (Hdir eq_refl); by rewrite !orb_true_r|].
  destruct (exists_path env base_dir (strings.ReplaceAll module "." "/" +:+ ".py"));
    [cbn [fst snd length orb]; split_and!; [lia| |done];
     by intros p ->%list_elem_of_singleton; left|].
  destruct (exists_path env base_dir (strings.ReplaceAll module "." "/" +:+ ".pyx"));
    [cbn [fst snd length orb]; split_and!; [lia| |done];
     by intros p ->%list_elem_of_singleton; left|].
  destruct (exists_path env base_dir (strings.ReplaceAll module "." "/" +:+ ".c"));
    [|cbn [fst snd length orb]; split_and!; [lia|by intros p ?%elem_of_nil|done]].
  cbn [fst snd length orb]. split_and!; [lia| |].
  - intros p ->%list_elem_of_singleton.
    destruct (exists_path env base_dir _); [right|]; left.
  - intros _ _. destruct (exists_path env base_dir _); by rewrite ?orb_true_r.
Qed.

Lemma Resolve_old_subset (n : nat) :
  (∀ module,
     exists_path env base_dir (strings.ReplaceAll module "." "/") = true →
     is_dir env base_dir (strings.ReplaceAll module "." "/") = true) →
  ∀ module paths cache',
    String.length module ≤ n →
    Resolve_old env config base_dir module ∅ = Ok (paths, cache') →
    ∃ paths' cache'',
      Resolve env config base_dir module ∅ = Ok (paths', cache'')
      ∧ ∀ p, p ∈ paths → p ∈ paths'.
Proof.
  intros Hdirs.
  induction n as [|n IH]; intros module paths cache' Hn;
    rewrite Resolve_old_unfold, Resolve_unfold, lookup_empty;
    (destruct (negb (allowed config module));
       [intros [= <- <-]; by eexists _, _|]);
    destruct (strings.HasPrefix module ".") eqn:Hrel; try done;
    destruct (probe_old_probe module) as (_ & Hsub & Hparent);
    specialize (Hparent (Hdirs module));
    destruct (probe_old env base_dir module) as [po vpo];
    destruct (probe env base_dir module) as [pn vpn];
    cbn [fst snd] in Hsub, Hparent.
  all: destruct vpo; [rewrite (Hparent eq_refl)|].
  all: destruct (parent_module module) as [parent|] eqn:Hp.
  all: try (intros [= <- <-]; destruct vpn; by eexists _, _).
  all: pose proof (parent_module_shorter _ _ Hp) as Hlt.
  all: try lia.
  - destruct (Resolve_old env config base_dir parent ∅) as [[sub c]| |] eqn:Hold;
      [|done..].
    destruct (IH parent sub c ltac:(lia) Hold) as (sub' & c' & -> & Hsub').
    cbn [mbind result_bind fst snd]. intros [= <- <-].
    eexists _, _. split; [done|].
    intros p [?|?]%elem_of_app; apply elem_of_app; auto.
  - intros [= <- <-]. destruct vpn; [|by eexists _, _].
    pose proof (Resolve_total env config base_dir parent ∅) as Htot.
    pose proof (Resolve_not_fatal env config base_dir (String.length parent)
                  parent ∅ ltac:(done)
                  (parent_module_not_relative _ _ Hp Hrel)) as Hnf.
    destruct (Resolve env config base_dir parent ∅) as [[sub c]| |]; [|done..].
    cbn [mbind result_bind fst snd]. eexists _, _. split; [done|].
    intros p Hp'. apply elem_of_app. left. by apply Hsub.
Qed.

End resolver_old_facts.

(** X21: the later resolver returns every path the earlier one returned.
    At one level the earlier revision takes at most one path, the first
    form that exists, and the later revision takes it too.  Over the
    parents as well: if no module path without an extension names a plain
    file, every path of a result of the earlier [Resolve] is a path of the
    result of the later [Resolve] for the same module. *)
Theorem Resolve_old_paths_kept (env : Env) (config : Config)
    (base_dir : string) :
  (∀ module,
     length (probe_old env base_dir module).1 ≤ 1
     ∧ ∀ p, p ∈ (probe_old env base_dir module).1 →
            p ∈ (probe env base_dir module).1)
  ∧ ((∀ module,
        exists_path env base_dir (strings.ReplaceAll module "." "/") = true →
        is_dir env base_dir (strings.ReplaceAll module "." "/") = true) →
     ∀ module paths cache',
       Resolve_old env config base_dir module ∅ = Ok (paths, cache') →
       ∃ paths' cache'',
         Resolve env config base_dir module ∅ = Ok (paths', cache'')
         ∧ ∀ p, p ∈ paths → p ∈ paths').
Proof.
  split.
  - intros module.
    destruct (probe_old_probe env base_dir module) as (? & ? & _). done.
  - intros Hdirs module paths cache'.
    by apply (Resolve_old_subset env config base_dir (String.length module)).
Qed.

Example Resolve_old_first_form_only :
  Resolve_old scenario.stub_env scenario.config "." "pkg.mod" ∅
  = Ok (["pkg/mod/__init__.py"],
        {["pkg.mod" := ["pkg/mod/__init__.py"]; "pkg" := []]})
  ∧ (r ← Resolve scenario.stub_env scenario.config "." "pkg.mod" ∅; Ok r.1)
    = Ok ["pkg/mod/__init__.py"; "pkg/mod.py"; "pkg/mod.pyi"].
Proof. split; vm_compute; reflexivity. Qed.
